(** * A-CLIP loss functions ([losses.py]): a shallow embedding over the reals

    [losses.py] computes a SimCLR loss ([SIMCLRLoss]), a combined
    image-text loss ([ACLIPLoss]) and a negative cosine similarity
    ([cal_simsiam_loss]) on floating-point tensors of [torch].

    The embedding keeps the program's structure: the shape checks of the
    tensor operations, the label and mask cache of each module with the
    order of its assignments, the order of the operations, the [dict]
    that a call returns.  Floating point is replaced by exact real
    arithmetic: a tensor entry is an [R], a 1-D tensor is the list of its
    entries, a 2-D tensor the list of its rows.  IEEE special values
    (inf, NaN) have no counterpart; where the program would produce them
    (a mean over zero rows, a zero temperature) the statements carry the
    side condition that excludes the case.  A tensor of zero rows is the
    empty list and has lost its width.

    Integer tensors (labels, predictions) hold indices and are lists of
    [nat].  Gradients ([detach], [no_grad]) change no value and are left
    out. *)

From Stdlib Require Import String.
From Stdlib Require Import Reals Lra Lia List Bool Arith.
Import ListNotations.

Open Scope R_scope.

(** ** Errors

    A Python call either returns or raises.  [RaisedException] is the bare
    [raise Exception] of [cal_simsiam_loss]; [TorchError] stands for any
    error raised inside a [torch] primitive (incompatible shapes, a class
    index out of range, an empty reduction, a [None] operand); [KeyError]
    is a missing [dict] key. *)

Inductive error : Type :=
| RaisedException
| TorchError
| KeyError.

Inductive result (A : Type) : Type :=
| Ok (a : A)
| Err (e : error).

Arguments Ok {A} a.
Arguments Err {A} e.

Definition bind {A B : Type} (c : result A) (k : A -> result B) : result B :=
  match c with
  | Ok a => k a
  | Err e => Err e
  end.

Notation "x <- c ;; k" := (bind c (fun x => k))
  (at level 61, c at next level, right associativity).

Fixpoint mapM {A B : Type} (f : A -> result B) (l : list A) : result (list B) :=
  match l with
  | [] => Ok []
  | x :: t => y <- f x ;; ys <- mapM f t ;; Ok (y :: ys)
  end.

(** A 1-D tensor is the list of its entries, a 2-D tensor the list of
    its rows. *)
Abbreviation tensor1 := (list R) (only parsing).
Abbreviation tensor2 := (list (list R)) (only parsing).

(** ** The [torch] primitives that [losses.py] calls

    Each primitive follows its documented behaviour on 1-D and 2-D
    tensors, with the default arguments that [losses.py] leaves in
    place. *)

Module Torch.

Definition sum (v : tensor1) : R := fold_right Rplus 0 v.

(** [v.mean()] of a 1-D tensor. *)
Definition mean (v : tensor1) : R := sum v / INR (length v).

(** Broadcasting of one dimension: equal sizes pair up, a size of one
    is repeated, anything else is an error. *)
Definition bzip {A : Type} (xs ys : list A) : result (list (A * A)) :=
  if (length xs =? length ys)%nat then Ok (combine xs ys)
  else match xs, ys with
       | [x], _ => Ok (map (fun y => (x, y)) ys)
       | _, [y] => Ok (map (fun x => (x, y)) xs)
       | _, _ => Err TorchError
       end.

(** Two 2-D tensors broadcast against each other, entry by entry. *)
Definition broadcast2 (a b : tensor2) : result (list (list (R * R))) :=
  rows <- bzip a b ;;
  mapM (fun rr => bzip (fst rr) (snd rr)) rows.

Definition elementwise (f : R -> R -> R) (a b : tensor2) : result tensor2 :=
  pairs <- broadcast2 a b ;;
  Ok (map (map (fun xy => f (fst xy) (snd xy))) pairs).

(** [a * b] and [a - b] on 2-D tensors. *)
Definition mul (a b : tensor2) : result tensor2 := elementwise Rmult a b.
Definition sub (a b : tensor2) : result tensor2 := elementwise Rminus a b.

(** [m.sum(dim=1)] (also [dim=-1] on a 2-D tensor). *)
Definition sum_dim1 (m : tensor2) : tensor1 := map sum m.

(** [s * m] and [m / s] with a scalar [s]. *)
Definition scale (s : R) (m : tensor2) : tensor2 := map (map (Rmult s)) m.
Definition div_scalar (m : tensor2) (s : R) : tensor2 :=
  map (map (fun x => x / s)) m.

Definition dot (x y : tensor1) : R :=
  sum (map (fun xy => fst xy * snd xy) (combine x y)).

Definition norm2 (v : tensor1) : R := sqrt (sum (map (fun x => x * x) v)).

(** [F.normalize(m, p=2, dim=-1)] with its default [eps = 1e-12]: every
    row is divided by [max(||row||, eps)]. *)
Definition normalize_eps : R := 1e-12.

Definition normalize_row (v : tensor1) : tensor1 :=
  let d := Rmax (norm2 v) normalize_eps in
  map (fun x => x / d) v.

Definition normalize (m : tensor2) : tensor2 := map normalize_row m.

(** [F.cosine_similarity(x1, x2, dim=-1)] with its default [eps = 1e-8]:
    the operands are broadcast to a common shape, then each row pair
    gives [sum((x1 / max(||x1||, eps)) * (x2 / max(||x2||, eps)))].
    (Older releases of [torch] divide [x1 . x2] by
    [max(||x1|| * ||x2||, eps)] instead; the two agree on rows of unit
    norm or more.) *)
Definition cosine_eps : R := 1e-8.

Definition cosine_row (u v : tensor1) : R :=
  dot (map (fun x => x / Rmax (norm2 u) cosine_eps) u)
      (map (fun x => x / Rmax (norm2 v) cosine_eps) v).

Definition cosine_similarity (x1 x2 : tensor2) : result tensor1 :=
  pairs <- broadcast2 x1 x2 ;;
  Ok (map (fun row => cosine_row (map fst row) (map snd row)) pairs).

(** [a @ b.t()], that is [torch.matmul(a, b.transpose(0, 1))]: entry
    [(i, j)] is the dot product of row [i] of [a] and row [j] of [b];
    rows of different lengths are a shape error. *)
Definition matmul_t (a b : tensor2) : result tensor2 :=
  mapM (fun ra =>
          mapM (fun rb =>
                  if (length ra =? length rb)%nat then Ok (dot ra rb)
                  else Err TorchError) b) a.

(** [torch.cat([a, b], dim=1)]. *)
Definition cat1 (a b : tensor2) : result tensor2 :=
  if (length a =? length b)%nat
  then Ok (map (fun rr => fst rr ++ snd rr) (combine a b))
  else Err TorchError.

(** [torch.arange(n)]. *)
Definition arange (n : nat) : list nat := seq 0 n.

(** [F.one_hot(labels, num_classes)]: an empty label tensor needs a
    positive class count, a non-empty one needs every label below the
    class count. *)
Definition one_hot (labels : list nat) (num_classes : nat)
  : result (list (list nat)) :=
  match labels with
  | [] => if (num_classes =? 0)%nat then Err TorchError else Ok []
  | _ =>
      if (list_max labels <? num_classes)%nat
      then Ok (map (fun y =>
                      map (fun j => if (j =? y)%nat then 1%nat else 0%nat)
                          (seq 0 num_classes)) labels)
      else Err TorchError
  end.

Definition log_softmax_row (row : tensor1) : tensor1 :=
  let lse := ln (sum (map exp row)) in
  map (fun x => x - lse) row.

(** [F.cross_entropy(logits, target)] with integer class targets and the
    default mean reduction: the mean over the rows of minus the
    log-softmax entry at the row's target class. *)
Definition cross_entropy (logits : tensor2) (target : list nat) : result R :=
  if (length logits =? length target)%nat then
    picked <- mapM (fun ry =>
                      match nth_error (log_softmax_row (fst ry)) (snd ry) with
                      | Some v => Ok (- v)
                      | None => Err TorchError
                      end) (combine logits target) ;;
    Ok (mean picked)
  else Err TorchError.

(** [torch.argmax(row)]: the index of the first maximal entry. *)
Fixpoint argmax_from (best_i : nat) (best : R) (i : nat) (l : tensor1) : nat :=
  match l with
  | [] => best_i
  | x :: t =>
      if Rlt_dec best x then argmax_from i x (S i) t
      else argmax_from best_i best (S i) t
  end.

Definition argmax_row (row : tensor1) : result nat :=
  match row with
  | [] => Err TorchError
  | x :: t => Ok (argmax_from 0 x 1 t)
  end.

(** [torch.argmax(m, dim=-1)]. *)
Definition argmax (m : tensor2) : result (list nat) := mapM argmax_row m.

(** [pred.eq(labels).sum()]. *)
Definition eq_count (pred labels : list nat) : result nat :=
  pairs <- bzip pred labels ;;
  Ok (length (filter (fun pl => (fst pl =? snd pl)%nat) pairs)).

End Torch.

(** ** The collaborators of [utils]

    [utils] is not part of [losses.py]; its three functions are modelled
    from the interface the specification gives for them. *)

Module Utils.

(** Modelled from the spec: [utils.get_rank()], the 0-indexed position of
    this process among the workers, and [utils.get_world_size()], the
    number of workers.  Both are fixed for the life of the process. *)
Record env : Type := mk_env {
  get_rank : nat;
  get_world_size : nat
}.

(** Modelled from the spec: what the other workers hand in to a gather.
    [ps slot r] is the tensor that worker [r] contributes at position
    [slot] of the gathered list; it is an input of the call. *)
Definition peers : Type := nat -> nat -> tensor2.

(** Modelled from the spec: the gathered counterpart of one local tensor,
    the concatenation along the rows of every worker's tensor in rank
    order, the calling worker's own tensor standing at its rank. *)
Definition gather_one (e : env) (contrib : nat -> tensor2) (local : tensor2)
  : tensor2 :=
  concat (map (fun r => if (r =? get_rank e)%nat then local else contrib r)
              (seq 0 (get_world_size e))).

(** Modelled from the spec: [utils.all_gather_batch_with_grad(tensors)]
    gathers every tensor of the list; gradients are not modelled. *)
Definition all_gather_batch_with_grad (e : env) (ps : peers)
           (tensors : list tensor2) : list tensor2 :=
  map (fun it => gather_one e (ps (fst it)) (snd it))
      (combine (seq 0 (length tensors)) tensors).

End Utils.

(** ** [losses.py] *)

(** A Python [dict] from metric names to scalars, in insertion order. *)
Definition dict : Type := list (string * R).

Fixpoint dict_get (d : dict) (key : string) : option R :=
  match d with
  | [] => None
  | (k, v) :: rest => if String.eqb k key then Some v else dict_get rest key
  end.

(** [d[key]]. *)
Definition dict_item (d : dict) (key : string) : result R :=
  match dict_get d key with
  | Some v => Ok v
  | None => Err KeyError
  end.

Definition get_metric_names : list string :=
  let metics := ["loss"%string] in
  (metics ++ ["simclr_loss"; "im_byol_loss"; "contra_loss_1";
              "contra_loss_2"; "clip_acc"]%string)%list.

(** [cal_simsiam_loss(p, z, version)]; [z.detach()] changes no value. *)
Definition cal_simsiam_loss (p z : tensor2) (version : string) : result R :=
  if String.eqb version "original" then
    let p := Torch.normalize p in
    let z := Torch.normalize z in
    pz <- Torch.mul p z ;;
    Ok (- Torch.mean (Torch.sum_dim1 pz))
  else if String.eqb version "simplified" then
    c <- Torch.cosine_similarity p z ;;
    Ok (- Torch.mean c)
  else Err RaisedException.

(** The labels of a worker: [local_batch_size * rank + arange(local_batch_size)]. *)
Definition make_labels (e : Utils.env) (local_batch_size : nat) : list nat :=
  map (fun i => (local_batch_size * Utils.get_rank e + i)%nat)
      (Torch.arange local_batch_size).

(** [local_batch_size != self.last_local_batch_size], where the attribute
    starts as [None]. *)
Definition size_changed (local_batch_size : nat) (last : option nat) : bool :=
  match last with
  | None => true
  | Some n => negb (local_batch_size =? n)%nat
  end.

Module SIMCLRLoss.

Record t : Type := mk {
  tau : R;
  labels : option (list nat);
  masks : option tensor2;
  last_local_batch_size : option nat
}.

(** [__init__(temperature)]. *)
Definition init (temperature : R) : t := mk temperature None None None.

Record inputs : Type := mk_inputs {
  aug1_embed : tensor2;
  aug2_embed : tensor2
}.

(** The [if local_batch_size != self.last_local_batch_size] block.  The
    three attributes are assigned one after the other, so an error in
    [F.one_hot] leaves [labels] already replaced. *)
Definition update_cache (e : Utils.env) (self : t) (local_batch_size : nat)
  : t * result unit :=
  if size_changed local_batch_size (last_local_batch_size self) then
    let new_labels := make_labels e local_batch_size in
    let self1 := mk (tau self) (Some new_labels) (masks self)
                    (last_local_batch_size self) in
    let total_batch_size := (local_batch_size * Utils.get_world_size e)%nat in
    match Torch.one_hot new_labels total_batch_size with
    | Err er => (self1, Err er)
    | Ok oh =>
        (mk (tau self) (Some new_labels)
            (Some (map (map (fun x => INR x * 1e9)) oh))
            (Some local_batch_size),
         Ok tt)
    end
  else (self, Ok tt).

(** The part of [forward] after the cache block; it reads the module's
    attributes and changes none. *)
Definition losses (self : t) (local_batch_size : nat)
           (q_a q_b k_a k_b : tensor2) : result dict :=
  match labels self, masks self with
  | Some self_labels, Some self_masks =>
      logits_aa <- Torch.matmul_t q_a k_a ;;
      let logits_aa := Torch.div_scalar logits_aa (tau self) in
      logits_aa <- Torch.sub logits_aa self_masks ;;
      logits_bb <- Torch.matmul_t q_b k_b ;;
      let logits_bb := Torch.div_scalar logits_bb (tau self) in
      logits_bb <- Torch.sub logits_bb self_masks ;;
      logits_ab <- Torch.matmul_t q_a k_b ;;
      let logits_ab := Torch.div_scalar logits_ab (tau self) in
      logits_ba <- Torch.matmul_t q_b k_a ;;
      let logits_ba := Torch.div_scalar logits_ba (tau self) in
      cat_a <- Torch.cat1 logits_ab logits_aa ;;
      loss_a <- Torch.cross_entropy cat_a self_labels ;;
      cat_b <- Torch.cat1 logits_ba logits_bb ;;
      loss_b <- Torch.cross_entropy cat_b self_labels ;;
      let loss := (loss_a + loss_b) / 2 in
      cat_acc <- Torch.cat1 logits_ab logits_aa ;;
      pred <- Torch.argmax cat_acc ;;
      correct <- Torch.eq_count pred self_labels ;;
      let acc := 100 * INR correct / INR local_batch_size in
      Ok [("loss"%string, loss); ("ssl_loss"%string, loss);
          ("ssl_acc"%string, acc)]
  | _, _ => Err TorchError
  end.

Definition forward (e : Utils.env) (ps : Utils.peers) (self : t)
           (outputs : inputs) : t * result dict :=
  let q_a := aug1_embed outputs in
  let q_b := aug2_embed outputs in
  let q_a := Torch.normalize q_a in
  let q_b := Torch.normalize q_b in
  let local_batch_size := length q_a in
  match Utils.all_gather_batch_with_grad e ps [q_a; q_b] with
  | [k_a; k_b] =>
      match update_cache e self local_batch_size with
      | (self', Err er) => (self', Err er)
      | (self', Ok _) => (self', losses self' local_batch_size q_a q_b k_a k_b)
      end
  | _ => (self, Err TorchError)
  end.

End SIMCLRLoss.

Module ACLIPLoss.

Record t : Type := mk {
  labels : option (list nat);
  last_local_batch_size : option nat;
  simclr_loss : SIMCLRLoss.t
}.

(** [__init__(temperature)]. *)
Definition init (temperature : R) : t :=
  mk None None (SIMCLRLoss.init temperature).

Record inputs : Type := mk_inputs {
  image_embed : tensor2;
  text_embed : tensor2;
  logit_scale : R;
  image_ssl_embed : tensor2;
  byol_feats : tensor2;
  byol_feats_e : tensor2
}.

(** The local function [loss_fn(x, y)]. *)
Definition loss_fn (x y : tensor2) : result tensor1 :=
  let x := Torch.normalize x in
  let y := Torch.normalize y in
  xy <- Torch.mul x y ;;
  Ok (map (fun s => 2 - 2 * s) (Torch.sum_dim1 xy)).

(** The [if local_batch_size != self.last_local_batch_size] block. *)
Definition update_cache (e : Utils.env) (self : t) (local_batch_size : nat) : t :=
  if size_changed local_batch_size (last_local_batch_size self) then
    mk (Some (make_labels e local_batch_size)) (Some local_batch_size)
       (simclr_loss self)
  else self.

(** The part of [forward] after the cache block. *)
Definition losses (e : Utils.env) (ps : Utils.peers) (self : t)
           (outputs : inputs) (simclr_loss_dict : dict) (im_byol_loss : R)
  : result dict :=
  let local_batch_size := length (text_embed outputs) in
  let image_embed := Torch.normalize (image_embed outputs) in
  let text_embed := Torch.normalize (text_embed outputs) in
  let image_embed_1 := firstn local_batch_size image_embed in
  let image_embed_2 := skipn local_batch_size image_embed in
  match Utils.all_gather_batch_with_grad e ps
          [image_embed_1; image_embed_2; text_embed] with
  | [image_embed_all_1; image_embed_all_2; text_embed_all] =>
      match labels self with
      | Some self_labels =>
          let logit_scale := logit_scale outputs in
          logits_per_image <-
            Torch.matmul_t (Torch.scale logit_scale image_embed_1) text_embed_all ;;
          logits_per_text <-
            Torch.matmul_t (Torch.scale logit_scale text_embed) image_embed_all_1 ;;
          ce_image <- Torch.cross_entropy logits_per_image self_labels ;;
          ce_text <- Torch.cross_entropy logits_per_text self_labels ;;
          let contra_loss_1 := (ce_image + ce_text) / 2 in
          logits_per_image <-
            Torch.matmul_t (Torch.scale logit_scale image_embed_2) text_embed_all ;;
          logits_per_text <-
            Torch.matmul_t (Torch.scale logit_scale text_embed) image_embed_all_2 ;;
          ce_image <- Torch.cross_entropy logits_per_image self_labels ;;
          ce_text <- Torch.cross_entropy logits_per_text self_labels ;;
          let contra_loss_2 := (ce_image + ce_text) / 2 in
          ssl_loss <- dict_item simclr_loss_dict "ssl_loss" ;;
          let loss :=
            0.5 * contra_loss_1 + 0.5 * contra_loss_2 + ssl_loss
            + 2 * im_byol_loss in
          pred <- Torch.argmax logits_per_image ;;
          correct <- Torch.eq_count pred self_labels ;;
          let acc := 100 * INR correct / INR local_batch_size in
          ssl_loss' <- dict_item simclr_loss_dict "ssl_loss" ;;
          Ok [("loss"%string, loss);
              ("simclr_loss"%string, ssl_loss');
              ("im_byol_loss"%string, im_byol_loss);
              ("contra_loss_1"%string, contra_loss_1);
              ("contra_loss_2"%string, contra_loss_2);
              ("clip_acc"%string, acc)]
      | None => Err TorchError
      end
  | _ => Err TorchError
  end.

(** [forward(outputs)].  [ps_ssl] is what the other workers hand to the
    gather inside the SimCLR module, [ps_clip] what they hand to the
    gather of the image and text embeddings. *)
Definition forward (e : Utils.env) (ps_ssl ps_clip : Utils.peers) (self : t)
           (outputs : inputs) : t * result dict :=
  let bs := length (text_embed outputs) in
  let simclr_inputs :=
    SIMCLRLoss.mk_inputs (firstn bs (image_ssl_embed outputs))
                         (skipn bs (image_ssl_embed outputs)) in
  match SIMCLRLoss.forward e ps_ssl (simclr_loss self) simclr_inputs with
  | (simclr', Err er) =>
      (mk (labels self) (last_local_batch_size self) simclr', Err er)
  | (simclr', Ok simclr_loss_dict) =>
      let self := mk (labels self) (last_local_batch_size self) simclr' in
      let im_features := byol_feats outputs in
      let im_features_e := byol_feats_e outputs in
      let im_features_e := (im_features_e ++ im_features_e)%list in
      match loss_fn im_features im_features_e with
      | Err er => (self, Err er)
      | Ok per_row =>
          let im_byol_loss := Torch.mean per_row in
          let local_batch_size := length (text_embed outputs) in
          let self := update_cache e self local_batch_size in
          (self, losses e ps_clip self outputs simclr_loss_dict im_byol_loss)
      end
  end.

End ACLIPLoss.

(** * Vocabulary of the statements *)

(** [has_shape m n d]: [m] has [n] rows of [d] entries each. *)
Definition has_shape (m : tensor2) (n d : nat) : Prop :=
  length m = n /\ Forall (fun r => length r = d) m.

(** The cosine of the angle between two rows, the mathematical quantity
    that both versions of [cal_simsiam_loss] approximate. *)
Definition cosine (u v : tensor1) : R :=
  Torch.dot u v / (Torch.norm2 u * Torch.norm2 v).

(** Row-wise pairing of two tensors of the same shape. *)
Definition rows2 {A : Type} (f : tensor1 -> tensor1 -> A) (a b : tensor2) : list A :=
  map (fun rr => f (fst rr) (snd rr)) (combine a b).


(** The mask that a worker with local batch size [n] caches: row [i] holds
    [1e9] at the global index of sample [i] and [0] elsewhere. *)
Definition make_masks (e : Utils.env) (n : nat) : tensor2 :=
  map (fun y => map (fun j => if (j =? y)%nat then 1e9 else 0)
                    (seq 0 (n * Utils.get_world_size e)))
      (make_labels e n).

(** The unchecked counterparts of the tensor operations: what they return
    when the shapes fit. *)
Definition outer (q k : tensor2) : tensor2 :=
  map (fun u => map (fun v => Torch.dot u v) k) q.

Definition minus_rows (a b : tensor2) : tensor2 :=
  rows2 (fun u v => map (fun xy => fst xy - snd xy) (combine u v)) a b.

Definition append_rows (a b : tensor2) : tensor2 :=
  rows2 (fun u v => u ++ v)%list a b.

Definition logsumexp (row : tensor1) : R := ln (Torch.sum (map exp row)).

(** The cross-entropy of one row of logits against class [y]. *)
Definition nll_row (row : tensor1) (y : nat) : R := logsumexp row - nth y row 0.

Definition mean_nll (logits : tensor2) (target : list nat) : R :=
  Torch.mean (map (fun ry => nll_row (fst ry) (snd ry)) (combine logits target)).

Definition first_argmax (row : tensor1) : nat :=
  match row with
  | [] => 0%nat
  | x :: t => Torch.argmax_from 0 x 1 t
  end.

(** The number of rows whose first maximal entry stands at the row's label. *)
Definition hits (logits : tensor2) (target : list nat) : nat :=
  length (filter (fun pl => (fst pl =? snd pl)%nat)
                 (combine (map first_argmax logits) target)).

Definition accuracy (logits : tensor2) (target : list nat) (n : nat) : R :=
  100 * INR (hits logits target) / INR n.

(** The other workers hand in tensors of the local shape. *)
Definition valid_peers (e : Utils.env) (contrib : nat -> tensor2) (n d : nat) : Prop :=
  forall r, (r < Utils.get_world_size e)%nat -> r <> Utils.get_rank e ->
            has_shape (contrib r) n d.

(** The rank is one of the workers. *)
Definition valid_env (e : Utils.env) : Prop :=
  (Utils.get_rank e < Utils.get_world_size e)%nat.

(** The single-process environment. *)
Definition single_process : Utils.env := Utils.mk_env 0 1.

(** The cache of a SimCLR module agrees with the batch size it records. *)
Definition simclr_cache_valid (e : Utils.env) (self : SIMCLRLoss.t) : Prop :=
  match SIMCLRLoss.last_local_batch_size self with
  | None => True
  | Some n => SIMCLRLoss.labels self = Some (make_labels e n)
              /\ SIMCLRLoss.masks self = Some (make_masks e n)
  end.

(** The state of a SimCLR module right after a call with batch size [n]. *)
Definition simclr_cached (e : Utils.env) (temperature : R) (n : nat) : SIMCLRLoss.t :=
  SIMCLRLoss.mk temperature (Some (make_labels e n)) (Some (make_masks e n)) (Some n).

(** The logits that one SimCLR loss term classifies: the cross-view block
    followed by the masked same-view block, both divided by [temperature]. *)
Definition simclr_cat (temperature : R) (mask q k_cross k_same : tensor2) : tensor2 :=
  append_rows (Torch.div_scalar (outer q k_cross) temperature)
              (minus_rows (Torch.div_scalar (outer q k_same) temperature) mask).

(** What [SIMCLRLoss.forward] returns on operands of fitting shapes. *)
Definition simclr_loss_value (e : Utils.env) (ps : Utils.peers) (temperature : R)
           (aug1 aug2 : tensor2) : R :=
  let n := length aug1 in
  let q_a := Torch.normalize aug1 in
  let q_b := Torch.normalize aug2 in
  let k_a := Utils.gather_one e (ps 0%nat) q_a in
  let k_b := Utils.gather_one e (ps 1%nat) q_b in
  let cat_a := simclr_cat temperature (make_masks e n) q_a k_b k_a in
  let cat_b := simclr_cat temperature (make_masks e n) q_b k_a k_b in
  (mean_nll cat_a (make_labels e n) + mean_nll cat_b (make_labels e n)) / 2.

Definition simclr_acc_value (e : Utils.env) (ps : Utils.peers) (temperature : R)
           (aug1 aug2 : tensor2) : R :=
  let n := length aug1 in
  let q_a := Torch.normalize aug1 in
  let q_b := Torch.normalize aug2 in
  let k_a := Utils.gather_one e (ps 0%nat) q_a in
  let k_b := Utils.gather_one e (ps 1%nat) q_b in
  accuracy (simclr_cat temperature (make_masks e n) q_a k_b k_a) (make_labels e n) n.

Definition simclr_record (e : Utils.env) (ps : Utils.peers) (temperature : R)
           (aug1 aug2 : tensor2) : dict :=
  [("loss"%string, simclr_loss_value e ps temperature aug1 aug2);
   ("ssl_loss"%string, simclr_loss_value e ps temperature aug1 aug2);
   ("ssl_acc"%string, simclr_acc_value e ps temperature aug1 aug2)].

(** Indexed notation for the statements: [row m i] is row [i] of [m], and
    [big_sum n f] is the sum of [f 0], ..., [f (n - 1)]. *)
Definition row (m : tensor2) (i : nat) : tensor1 := nth i m [].

Definition big_sum (n : nat) (f : nat -> R) : R := Torch.sum (map f (seq 0 n)).

(** The global index of local sample [i] on a worker with batch size [n]. *)
Definition global_index (e : Utils.env) (n i : nat) : nat :=
  (n * Utils.get_rank e + i)%nat.

(** One summand of a SimCLR loss term, written out: sample [i] of the
    local batch [q] is classified among the [t] rows of the cross-view
    global batch and the [t] rows of the same-view global batch, its own
    same-view entry lowered by [1e9], with its cross-view entry as target. *)
Definition simclr_term (e : Utils.env) (temperature : R) (n t : nat)
           (q k_cross k_same : tensor2) (i : nat) : R :=
  ln (big_sum t (fun j => exp (Torch.dot (row q i) (row k_cross j) / temperature))
      + big_sum t (fun j =>
                     exp (Torch.dot (row q i) (row k_same j) / temperature
                          - (if (j =? global_index e n i)%nat then 1e9 else 0))))
  - Torch.dot (row q i) (row k_cross (global_index e n i)) / temperature.

(** The cache of a combined module agrees with the batch sizes it records. *)
Definition aclip_cache_valid (e : Utils.env) (self : ACLIPLoss.t) : Prop :=
  match ACLIPLoss.last_local_batch_size self with
  | None => True
  | Some n => ACLIPLoss.labels self = Some (make_labels e n)
  end
  /\ simclr_cache_valid e (ACLIPLoss.simclr_loss self).

(** The state of a combined module right after a call with batch size [n]. *)
Definition aclip_cached (e : Utils.env) (temperature : R) (n : nat) : ACLIPLoss.t :=
  ACLIPLoss.mk (Some (make_labels e n)) (Some n) (simclr_cached e temperature n).

(** The input record is shaped as the combined module expects: [n] text
    rows, [2n] rows in each of the three image tensors, image and text
    embeddings of one width. *)
Definition valid_inputs (outputs : ACLIPLoss.inputs) (n d d_ssl d_byol : nat) : Prop :=
  (0 < n)%nat
  /\ has_shape (ACLIPLoss.text_embed outputs) n d
  /\ has_shape (ACLIPLoss.image_embed outputs) (n + n) d
  /\ has_shape (ACLIPLoss.image_ssl_embed outputs) (n + n) d_ssl
  /\ has_shape (ACLIPLoss.byol_feats outputs) (n + n) d_byol
  /\ has_shape (ACLIPLoss.byol_feats_e outputs) n d_byol.

Definition valid_ssl_peers (e : Utils.env) (ps : Utils.peers) (n d_ssl : nat) : Prop :=
  valid_peers e (ps 0%nat) n d_ssl /\ valid_peers e (ps 1%nat) n d_ssl.

Definition valid_clip_peers (e : Utils.env) (ps : Utils.peers) (n d : nat) : Prop :=
  valid_peers e (ps 0%nat) n d /\ valid_peers e (ps 1%nat) n d
  /\ valid_peers e (ps 2%nat) n d.

(** The consistency loss: the mean over the rows of [x] of
    [2 - 2 * (x_i . y_i)] on normalized rows, [y] being [target] twice. *)
Definition byol_value (feats target : tensor2) : R :=
  Torch.mean
    (rows2 (fun u v => 2 - 2 * Torch.dot (Torch.normalize_row u) (Torch.normalize_row v))
           feats (target ++ target)%list).

(** The image-to-text and text-to-image logits of one image view. *)
Definition image_logits (e : Utils.env) (ps : Utils.peers)
           (outputs : ACLIPLoss.inputs) (view : tensor2) : tensor2 :=
  outer (Torch.scale (ACLIPLoss.logit_scale outputs) view)
        (Utils.gather_one e (ps 2%nat)
                          (Torch.normalize (ACLIPLoss.text_embed outputs))).

Definition text_logits (e : Utils.env) (ps : Utils.peers)
           (outputs : ACLIPLoss.inputs) (slot : nat) (view : tensor2) : tensor2 :=
  outer (Torch.scale (ACLIPLoss.logit_scale outputs)
                     (Torch.normalize (ACLIPLoss.text_embed outputs)))
        (Utils.gather_one e (ps slot) view).

Definition view1 (outputs : ACLIPLoss.inputs) : tensor2 :=
  firstn (length (ACLIPLoss.text_embed outputs))
         (Torch.normalize (ACLIPLoss.image_embed outputs)).

Definition view2 (outputs : ACLIPLoss.inputs) : tensor2 :=
  skipn (length (ACLIPLoss.text_embed outputs))
        (Torch.normalize (ACLIPLoss.image_embed outputs)).

Definition contra_value (e : Utils.env) (ps : Utils.peers)
           (outputs : ACLIPLoss.inputs) (slot : nat) (view : tensor2) : R :=
  let target := make_labels e (length (ACLIPLoss.text_embed outputs)) in
  (mean_nll (image_logits e ps outputs view) target
   + mean_nll (text_logits e ps outputs slot view) target) / 2.

(** What [ACLIPLoss.forward] returns on operands of fitting shapes. *)
Definition aclip_record (e : Utils.env) (ps_ssl ps_clip : Utils.peers)
           (temperature : R) (outputs : ACLIPLoss.inputs) : dict :=
  let n := length (ACLIPLoss.text_embed outputs) in
  let simclr := simclr_loss_value e ps_ssl temperature
                  (firstn n (ACLIPLoss.image_ssl_embed outputs))
                  (skipn n (ACLIPLoss.image_ssl_embed outputs)) in
  let byol := byol_value (ACLIPLoss.byol_feats outputs)
                         (ACLIPLoss.byol_feats_e outputs) in
  let contra_1 := contra_value e ps_clip outputs 0 (view1 outputs) in
  let contra_2 := contra_value e ps_clip outputs 1 (view2 outputs) in
  [("loss"%string, 0.5 * contra_1 + 0.5 * contra_2 + simclr + 2 * byol);
   ("simclr_loss"%string, simclr);
   ("im_byol_loss"%string, byol);
   ("contra_loss_1"%string, contra_1);
   ("contra_loss_2"%string, contra_2);
   ("clip_acc"%string,
    accuracy (image_logits e ps_clip outputs (view2 outputs)) (make_labels e n) n)].

(** A small input record of fitting shapes: one sample, two image views. *)
Definition sample_inputs : ACLIPLoss.inputs :=
  ACLIPLoss.mk_inputs [[1; 0]; [0; 1]] [[1; 0]] 1 [[1]; [2]] [[1]; [1]] [[1]].

(** [is_first_max row k]: entry [k] of [row] is maximal and no earlier
    entry equals it. *)
Definition is_first_max (row : tensor1) (k : nat) : Prop :=
  (k < length row)%nat
  /\ (forall j, (j < length row)%nat -> nth j row 0 <= nth k row 0)
  /\ (forall j, (j < k)%nat -> nth j row 0 < nth k row 0).

(** The number of samples [i < n] whose prediction is the sample's global
    index. *)
Definition count_correct (e : Utils.env) (n : nat) (pred : list nat) : nat :=
  length (filter (fun i => (nth i pred 0 =? global_index e n i)%nat) (seq 0 n)).

(** An input record on which the two image views disagree: view 1 matches
    the texts sample by sample, view 2 matches them crosswise. *)
Definition crossed_inputs : ACLIPLoss.inputs :=
  ACLIPLoss.mk_inputs [[1; 0]; [0; 1]; [0; 1]; [1; 0]] [[1; 0]; [0; 1]] 1
                      [[1]; [1]; [1]; [1]] [[1]; [1]; [1]; [1]] [[1]; [1]].

(** The states a module can be in: freshly constructed, or left behind by
    a call of [forward] (returning or raising) on a state it could be in.
    The environment is the one of the process and does not change. *)
Inductive simclr_reachable (e : Utils.env) : SIMCLRLoss.t -> Prop :=
| simclr_reach_init (temperature : R) :
    simclr_reachable e (SIMCLRLoss.init temperature)
| simclr_reach_forward (self : SIMCLRLoss.t) (ps : Utils.peers)
                       (outputs : SIMCLRLoss.inputs) :
    simclr_reachable e self ->
    simclr_reachable e (fst (SIMCLRLoss.forward e ps self outputs)).

Inductive aclip_reachable (e : Utils.env) : ACLIPLoss.t -> Prop :=
| aclip_reach_init (temperature : R) :
    aclip_reachable e (ACLIPLoss.init temperature)
| aclip_reach_forward (self : ACLIPLoss.t) (ps_ssl ps_clip : Utils.peers)
                      (outputs : ACLIPLoss.inputs) :
    aclip_reachable e self ->
    aclip_reachable e (fst (ACLIPLoss.forward e ps_ssl ps_clip self outputs)).

(** A call of [SIMCLRLoss.forward] on operands of fitting shapes: two
    batches of [n] rows of [d] entries, and peers that hand in the same. *)
Definition simclr_valid_call (e : Utils.env) (ps : Utils.peers)
           (outputs : SIMCLRLoss.inputs) (n d : nat) : Prop :=
  has_shape (SIMCLRLoss.aug1_embed outputs) n d
  /\ has_shape (SIMCLRLoss.aug2_embed outputs) n d
  /\ valid_peers e (ps 0%nat) n d /\ valid_peers e (ps 1%nat) n d.

(** A call of [ACLIPLoss.forward] on operands of fitting shapes. *)
Definition aclip_valid_call (e : Utils.env) (ps_ssl ps_clip : Utils.peers)
           (outputs : ACLIPLoss.inputs) (n : nat) : Prop :=
  exists d d_ssl d_byol,
    valid_inputs outputs n d d_ssl d_byol
    /\ valid_ssl_peers e ps_ssl n d_ssl /\ valid_clip_peers e ps_clip n d.

(** Batches of four and of eight one-entry rows. *)
Definition batch_of_4 : SIMCLRLoss.inputs :=
  SIMCLRLoss.mk_inputs (repeat [1] 4) (repeat [1] 4).

Definition batch_of_8 : SIMCLRLoss.inputs :=
  SIMCLRLoss.mk_inputs (repeat [1] 8) (repeat [1] 8).

(** Exchanging the two views of a tensor that stacks them: the last rows
    come first. *)
Definition swap_views (n : nat) (m : tensor2) : tensor2 :=
  (skipn n m ++ firstn n m)%list.

Definition swap_aug (outputs : SIMCLRLoss.inputs) : SIMCLRLoss.inputs :=
  SIMCLRLoss.mk_inputs (SIMCLRLoss.aug2_embed outputs) (SIMCLRLoss.aug1_embed outputs).

(** The input record with the two views of [image_embed] exchanged. *)
Definition swap_image_views (outputs : ACLIPLoss.inputs) : ACLIPLoss.inputs :=
  let n := length (ACLIPLoss.text_embed outputs) in
  ACLIPLoss.mk_inputs (swap_views n (ACLIPLoss.image_embed outputs))
                      (ACLIPLoss.text_embed outputs)
                      (ACLIPLoss.logit_scale outputs)
                      (ACLIPLoss.image_ssl_embed outputs)
                      (ACLIPLoss.byol_feats outputs)
                      (ACLIPLoss.byol_feats_e outputs).

(** The input record with the two views exchanged in every tensor that
    stacks them. *)
Definition swap_all_views (outputs : ACLIPLoss.inputs) : ACLIPLoss.inputs :=
  let n := length (ACLIPLoss.text_embed outputs) in
  ACLIPLoss.mk_inputs (swap_views n (ACLIPLoss.image_embed outputs))
                      (ACLIPLoss.text_embed outputs)
                      (ACLIPLoss.logit_scale outputs)
                      (swap_views n (ACLIPLoss.image_ssl_embed outputs))
                      (swap_views n (ACLIPLoss.byol_feats outputs))
                      (ACLIPLoss.byol_feats_e outputs).

(** The other workers exchange their two views as well: what they hand in
    at positions 0 and 1 of the gathered list trades places; a third
    position, if any, stays.  With a single worker this says nothing. *)
Definition peers_swapped (e : Utils.env) (ps ps' : Utils.peers) : Prop :=
  forall r, (r < Utils.get_world_size e)%nat -> r <> Utils.get_rank e ->
            ps' 0%nat r = ps 1%nat r /\ ps' 1%nat r = ps 0%nat r
            /\ ps' 2%nat r = ps 2%nat r.

(** Every row of [m] multiplied by its own factor from [cs]. *)
Definition scale_rows (cs : list R) (m : tensor2) : tensor2 :=
  map (fun cr => map (Rmult (fst cr)) (snd cr)) (combine cs m).

(** Row [r] and its multiple by [c] both have a norm that
    [F.normalize] does not clamp. *)
Definition stays_unclamped (c : R) (r : tensor1) : Prop :=
  0 < c /\ Torch.normalize_eps <= Torch.norm2 r
  /\ Torch.normalize_eps <= c * Torch.norm2 r.

(** Two batches of two non-zero rows; the first row of [tiny_aug1] has
    norm [1e-13], below the constant at which [F.normalize] clamps. *)
Definition tiny_aug1 : tensor2 := [[1e-13; 0]; [1; 0]].
Definition tiny_aug2 : tensor2 := [[0; 1]; [3; 4]].

(** Two sizes broadcast together: they are equal, or one of them is 1. *)
Definition broadcasts (a b : nat) : Prop := a = b \/ a = 1%nat \/ b = 1%nat.

(** An input record of two samples whose [byol_feats] has three rows
    against the one row of [byol_feats_e]: the SimCLR part is well
    shaped, [loss_fn] is not. *)
Definition odd_byol_inputs : ACLIPLoss.inputs :=
  ACLIPLoss.mk_inputs [[1; 0]; [0; 1]; [0; 1]; [1; 0]] [[1; 0]; [0; 1]] 1
                      [[1]; [1]; [1]; [1]] [[1]; [1]; [1]] [[1]].

(** * Vocabulary of the further properties *)

(** Two batches of two rows each, for the single-process runs below. *)
Definition pair_inputs : SIMCLRLoss.inputs :=
  SIMCLRLoss.mk_inputs [[1; 0]; [0; 1]] [[0; 1]; [1; 0]].

(** The two batches that [ACLIPLoss.forward] hands to its SimCLR module:
    the first [bs] rows of [image_ssl_embed] and the rest, [bs] being the
    number of text rows. *)
Definition ssl_inputs (outputs : ACLIPLoss.inputs) : SIMCLRLoss.inputs :=
  SIMCLRLoss.mk_inputs
    (firstn (length (ACLIPLoss.text_embed outputs)) (ACLIPLoss.image_ssl_embed outputs))
    (skipn (length (ACLIPLoss.text_embed outputs)) (ACLIPLoss.image_ssl_embed outputs)).

(** Every row of [m] has a sum of squares of at most one, as the rows
    that [F.normalize] returns have. *)
Definition bounded_rows (m : tensor2) : Prop :=
  Forall (fun r => Torch.sum (map (fun x => x * x) r) <= 1) m.

(** The other workers hand in rows of norm at most one. *)
Definition bounded_peers (e : Utils.env) (contrib : nat -> tensor2) : Prop :=
  forall r, (r < Utils.get_world_size e)%nat -> r <> Utils.get_rank e ->
            bounded_rows (contrib r).

(** The similarity of local sample [i] to candidate [j] of the [2 * t]
    candidates that [SIMCLRLoss.forward] classifies it among: the [t] rows
    of the cross-view global batch, then the [t] rows of the same-view
    global batch; the dot product divided by the temperature, before any
    mask is subtracted. *)
Definition simclr_similarity (temperature : R) (t : nat)
           (q k_cross k_same : tensor2) (i j : nat) : R :=
  if (j <? t)%nat then Torch.dot (row q i) (row k_cross j) / temperature
  else Torch.dot (row q i) (row k_same (j - t)) / temperature.

(** [sample_inputs] with a logit scale of zero. *)
Definition zero_scale_inputs : ACLIPLoss.inputs :=
  ACLIPLoss.mk_inputs [[1; 0]; [0; 1]] [[1; 0]] 0 [[1]; [2]] [[1]; [1]] [[1]].

(** The input record with each of its five tensors multiplied by a factor
    of its own; the logit scale is kept. *)
Definition scale_inputs (c_image c_text c_ssl c_byol c_byol_e : R)
           (outputs : ACLIPLoss.inputs) : ACLIPLoss.inputs :=
  ACLIPLoss.mk_inputs (Torch.scale c_image (ACLIPLoss.image_embed outputs))
                      (Torch.scale c_text (ACLIPLoss.text_embed outputs))
                      (ACLIPLoss.logit_scale outputs)
                      (Torch.scale c_ssl (ACLIPLoss.image_ssl_embed outputs))
                      (Torch.scale c_byol (ACLIPLoss.byol_feats outputs))
                      (Torch.scale c_byol_e (ACLIPLoss.byol_feats_e outputs)).

(** A computation that, when it fails, fails with an error of a tensor
    operation. *)
Definition torch_only {A : Type} (c : result A) : Prop :=
  forall er, c = Err er -> er = TorchError.

(** An input record of empty tensors. *)
Definition empty_inputs : ACLIPLoss.inputs :=
  ACLIPLoss.mk_inputs [] [] 1 [] [] [].
(** * Properties *)

Section MonadLemmas.

Context {A B : Type}.

Lemma mapM_ok (f : A -> result B) (g : A -> B) (l : list A) :
  Forall (fun x => f x = Ok (g x)) l -> mapM f l = Ok (map g l).
Proof.
  induction 1 as [|x t Hx _ IH]; simpl; [reflexivity|].
  rewrite Hx; simpl. rewrite IH; reflexivity.
Qed.

Lemma mapM_length (f : A -> result B) (l : list A) (r : list B) :
  mapM f l = Ok r -> length r = length l.
Proof.
  revert r; induction l as [|x t IH]; simpl; intros r H.
  - inversion H; reflexivity.
  - destruct (f x) as [y|]; simpl in H; [|discriminate].
    destruct (mapM f t) as [ys|]; simpl in H; [|discriminate].
    inversion H; subst; simpl. rewrite (IH ys eq_refl); reflexivity.
Qed.


End MonadLemmas.

(** A tensor given by its rows has the shape one reads off. *)
Ltac concrete_shape := split; [reflexivity | repeat constructor].

Lemma bzip_same {A : Type} (xs ys : list A) :
  length xs = length ys -> Torch.bzip xs ys = Ok (combine xs ys).
Proof.
  intros H; unfold Torch.bzip. rewrite H, Nat.eqb_refl; reflexivity.
Qed.

Lemma Forall_combine_shape (a b : tensor2) (n d : nat) (P : tensor1 * tensor1 -> Prop) :
  has_shape a n d -> has_shape b n d ->
  (forall u v, length u = d -> length v = d -> In u a -> In v b -> P (u, v)) ->
  Forall P (combine a b).
Proof.
  intros [Hn Ha] [Hm Hb] HP. apply Forall_forall; intros [u v] Hin.
  rewrite Forall_forall in Ha, Hb.
  pose proof (in_combine_l _ _ _ _ Hin) as Hu.
  pose proof (in_combine_r _ _ _ _ Hin) as Hv.
  apply HP; auto.
Qed.

Lemma broadcast2_same (a b : tensor2) (n d : nat) :
  has_shape a n d -> has_shape b n d ->
  Torch.broadcast2 a b = Ok (rows2 (@combine R R) a b).
Proof.
  intros Ha Hb. unfold Torch.broadcast2.
  rewrite bzip_same by (destruct Ha, Hb; congruence). simpl.
  apply mapM_ok. eapply Forall_combine_shape; eauto.
  intros u v Hu Hv _ _; simpl. apply bzip_same; congruence.
Qed.

Lemma elementwise_same (f : R -> R -> R) (a b : tensor2) (n d : nat) :
  has_shape a n d -> has_shape b n d ->
  Torch.elementwise f a b =
  Ok (rows2 (fun u v => map (fun xy => f (fst xy) (snd xy)) (combine u v)) a b).
Proof.
  intros Ha Hb. unfold Torch.elementwise.
  rewrite (broadcast2_same a b n d Ha Hb); simpl.
  unfold rows2. rewrite map_map. reflexivity.
Qed.

Lemma normalize_row_length (v : tensor1) :
  length (Torch.normalize_row v) = length v.
Proof. unfold Torch.normalize_row. apply length_map. Qed.

Lemma normalize_shape (m : tensor2) (n d : nat) :
  has_shape m n d -> has_shape (Torch.normalize m) n d.
Proof.
  intros [Hn Hd]; split.
  - unfold Torch.normalize; rewrite length_map; exact Hn.
  - unfold Torch.normalize. apply Forall_map.
    eapply Forall_impl; [|exact Hd]. intros r Hr; simpl.
    rewrite normalize_row_length; exact Hr.
Qed.

Lemma normalize_length (m : tensor2) : length (Torch.normalize m) = length m.
Proof. apply length_map. Qed.

(** ** Arithmetic of rows *)

Lemma dot_scaled (a b : R) (u v : tensor1) :
  Torch.dot (map (fun x => x / a) u) (map (fun x => x / b) v)
  = Torch.dot u v * (/ a * / b).
Proof.
  unfold Torch.dot. revert v; induction u as [|x u IH]; intros [|y v]; simpl;
    try (unfold Rdiv; ring).
  rewrite IH. unfold Rdiv. ring.
Qed.

Lemma sum_squares_nonneg (v : tensor1) : 0 <= Torch.sum (map (fun x => x * x) v).
Proof.
  induction v as [|x v IH]; simpl; [lra|]. pose proof (Rle_0_sqr x) as H.
  unfold Rsqr in H. lra.
Qed.

Lemma norm2_nonneg (v : tensor1) : 0 <= Torch.norm2 v.
Proof. unfold Torch.norm2. apply sqrt_pos. Qed.

Lemma normalize_row_large (v : tensor1) :
  Torch.normalize_eps <= Torch.norm2 v ->
  Torch.normalize_row v = map (fun x => x / Torch.norm2 v) v.
Proof.
  intros H. unfold Torch.normalize_row. rewrite Rmax_left by exact H. reflexivity.
Qed.

Lemma eps_order : Torch.normalize_eps < Torch.cosine_eps.
Proof. unfold Torch.normalize_eps, Torch.cosine_eps. lra. Qed.

Lemma cosine_row_large (u v : tensor1) :
  Torch.cosine_eps <= Torch.norm2 u -> Torch.cosine_eps <= Torch.norm2 v ->
  Torch.cosine_row u v = cosine u v.
Proof.
  intros Hu Hv. unfold Torch.cosine_row, cosine.
  rewrite !Rmax_left by assumption. rewrite dot_scaled.
  assert (0 < Torch.cosine_eps) by (unfold Torch.cosine_eps; lra).
  unfold Rdiv. rewrite Rinv_mult. reflexivity.
Qed.

Lemma normalized_dot_large (u v : tensor1) :
  Torch.cosine_eps <= Torch.norm2 u -> Torch.cosine_eps <= Torch.norm2 v ->
  Torch.dot (Torch.normalize_row u) (Torch.normalize_row v) = cosine u v.
Proof.
  intros Hu Hv. pose proof eps_order as He.
  rewrite !normalize_row_large by lra.
  rewrite dot_scaled. unfold cosine, Rdiv. rewrite Rinv_mult. reflexivity.
Qed.

(** ** Row-wise maps *)

Lemma combine_map_both {A B C D : Type} (f : A -> C) (g : B -> D)
      (a : list A) (b : list B) :
  combine (map f a) (map g b) = map (fun xy => (f (fst xy), g (snd xy))) (combine a b).
Proof.
  revert b; induction a as [|x a IH]; intros [|y b]; simpl; try reflexivity.
  rewrite IH; reflexivity.
Qed.

Lemma fst_combine_same {A B : Type} (a : list A) (b : list B) :
  length a = length b -> map fst (combine a b) = a.
Proof.
  revert b; induction a as [|x a IH]; intros [|y b]; simpl; intros H;
    try reflexivity; try discriminate.
  rewrite IH by lia; reflexivity.
Qed.

Lemma snd_combine_same {A B : Type} (a : list A) (b : list B) :
  length a = length b -> map snd (combine a b) = b.
Proof.
  revert b; induction a as [|x a IH]; intros [|y b]; simpl; intros H;
    try reflexivity; try discriminate.
  rewrite IH by lia; reflexivity.
Qed.

Lemma rows2_map {A B : Type} (g : A -> B) (f : tensor1 -> tensor1 -> A)
      (a b : tensor2) :
  map g (rows2 f a b) = rows2 (fun u v => g (f u v)) a b.
Proof. unfold rows2. rewrite map_map. reflexivity. Qed.

Lemma rows2_pre {A : Type} (h k : tensor1 -> tensor1) (f : tensor1 -> tensor1 -> A)
      (a b : tensor2) :
  rows2 f (map h a) (map k b) = rows2 (fun u v => f (h u) (k v)) a b.
Proof. unfold rows2. rewrite combine_map_both, map_map. reflexivity. Qed.

Lemma rows2_ext {A : Type} (f g : tensor1 -> tensor1 -> A) (a b : tensor2) :
  (forall u v, In u a -> In v b -> f u v = g u v) ->
  rows2 f a b = rows2 g a b.
Proof.
  intros H. unfold rows2. apply map_ext_in. intros [u v] Hin; simpl.
  apply H; [eapply in_combine_l | eapply in_combine_r]; eassumption.
Qed.

Lemma rows2_length {A : Type} (f : tensor1 -> tensor1 -> A) (a b : tensor2) :
  length a = length b -> length (rows2 f a b) = length a.
Proof.
  intros H. unfold rows2. rewrite length_map, length_combine. lia.
Qed.


(** ** [cal_simsiam_loss] *)

Lemma cal_simsiam_loss_original (p z : tensor2) :
  cal_simsiam_loss p z "original"
  = (pz <- Torch.mul (Torch.normalize p) (Torch.normalize z) ;;
     Ok (- Torch.mean (Torch.sum_dim1 pz))).
Proof. reflexivity. Qed.

Lemma cal_simsiam_loss_simplified (p z : tensor2) :
  cal_simsiam_loss p z "simplified"
  = (c <- Torch.cosine_similarity p z ;; Ok (- Torch.mean c)).
Proof. reflexivity. Qed.

Lemma original_same_shape (p z : tensor2) (n d : nat) :
  has_shape p n d -> has_shape z n d ->
  cal_simsiam_loss p z "original"
  = Ok (- Torch.mean
            (rows2 (fun u v => Torch.dot (Torch.normalize_row u)
                                         (Torch.normalize_row v)) p z)).
Proof.
  intros Hp Hz. rewrite cal_simsiam_loss_original. unfold Torch.mul.
  rewrite (elementwise_same Rmult _ _ n d)
    by (apply normalize_shape; assumption).
  simpl. unfold Torch.sum_dim1, Torch.normalize.
  rewrite rows2_map, rows2_pre. reflexivity.
Qed.

Lemma simplified_same_shape (p z : tensor2) (n d : nat) :
  has_shape p n d -> has_shape z n d ->
  cal_simsiam_loss p z "simplified" = Ok (- Torch.mean (rows2 Torch.cosine_row p z)).
Proof.
  intros Hp Hz. rewrite cal_simsiam_loss_simplified. unfold Torch.cosine_similarity.
  rewrite (broadcast2_same p z n d Hp Hz). simpl.
  rewrite rows2_map. do 3 f_equal. apply rows2_ext. intros u v Hu Hv.
  destruct Hp as [_ Hp], Hz as [_ Hz]. rewrite Forall_forall in Hp, Hz.
  rewrite fst_combine_same, snd_combine_same
    by (rewrite (Hp u Hu), (Hz v Hv); reflexivity).
  reflexivity.
Qed.

(** Where the two versions do agree: on two batches of the same shape
    whose rows all have an L2 norm of at least [1e-8] (the larger of the
    two stabilising constants), version ["original"] and version
    ["simplified"] return the same value, the negated mean over the rows
    of the cosine between the prediction row and the target row. *)
Theorem cal_simsiam_loss_versions_agree (p z : tensor2) (n d : nat) :
  has_shape p n d -> has_shape z n d ->
  Forall (fun r => Torch.cosine_eps <= Torch.norm2 r) p ->
  Forall (fun r => Torch.cosine_eps <= Torch.norm2 r) z ->
  cal_simsiam_loss p z "original" = Ok (- Torch.mean (rows2 cosine p z))
  /\ cal_simsiam_loss p z "simplified" = Ok (- Torch.mean (rows2 cosine p z)).
Proof.
  intros Hp Hz Lp Lz. rewrite Forall_forall in Lp, Lz. split.
  - rewrite (original_same_shape p z n d Hp Hz). do 3 f_equal.
    apply rows2_ext. intros u v Hu Hv. apply normalized_dot_large; auto.
  - rewrite (simplified_same_shape p z n d Hp Hz). do 3 f_equal.
    apply rows2_ext. intros u v Hu Hv. apply cosine_row_large; auto.
Qed.

Lemma norm2_lower (c : R) (v : tensor1) :
  0 <= c -> c * c <= Torch.sum (map (fun x => x * x) v) -> c <= Torch.norm2 v.
Proof.
  intros Hc H. unfold Torch.norm2.
  rewrite <- (sqrt_square c Hc). apply sqrt_le_1_alt. exact H.
Qed.

Lemma norm2_single (x : R) : 0 <= x -> Torch.norm2 [x] = x.
Proof.
  intros Hx. unfold Torch.norm2; simpl. rewrite Rplus_0_r. apply sqrt_square, Hx.
Qed.

Lemma mean_single (x : R) : Torch.mean [x] = x.
Proof. unfold Torch.mean; simpl. field. Qed.

Lemma dot_single (x y : R) : Torch.dot [x] [y] = x * y.
Proof. unfold Torch.dot; simpl. ring. Qed.

Lemma cal_simsiam_loss_versions_agree_witness :
  cal_simsiam_loss [[3; 4]] [[1; 0]] "original"
  = cal_simsiam_loss [[3; 4]] [[1; 0]] "simplified".
Proof.
  destruct (cal_simsiam_loss_versions_agree [[3; 4]] [[1; 0]] 1 2) as [Ho Hs].
  - concrete_shape.
  - concrete_shape.
  - apply Forall_cons; [|apply Forall_nil].
    apply norm2_lower; unfold Torch.cosine_eps; simpl; lra.
  - apply Forall_cons; [|apply Forall_nil].
    apply norm2_lower; unfold Torch.cosine_eps; simpl; lra.
  - rewrite Ho, Hs. reflexivity.
Defined.

(** C5: the two versions are not interchangeable on every batch of
    non-zero rows.  On a non-zero row whose norm lies below the
    stabilising constant of [F.cosine_similarity] they part: with
    [p = [[1e-10]]] and [z = [[1]]] the ["original"] version returns [-1],
    the negated cosine, and the ["simplified"] version, which the source
    calls the same thing, returns [-0.01]. *)
Lemma cal_simsiam_loss_versions_differ_on_tiny_row :
  let p := [[1e-10]] in
  let z := [[1]] in
  has_shape p 1 1 /\ has_shape z 1 1
  /\ Forall (Exists (fun x => x <> 0)) p /\ Forall (Exists (fun x => x <> 0)) z
  /\ cal_simsiam_loss p z "original" = Ok (-1)
  /\ cal_simsiam_loss p z "simplified" = Ok (- 0.01)
  /\ cal_simsiam_loss p z "original" <> cal_simsiam_loss p z "simplified".
Proof.
  intros p z.
  assert (Hp : has_shape p 1 1) by (concrete_shape).
  assert (Hz : has_shape z 1 1) by (concrete_shape).
  assert (Ho : cal_simsiam_loss p z "original" = Ok (-1)).
  { rewrite (original_same_shape p z 1 1 Hp Hz). unfold rows2; simpl.
    rewrite mean_single. unfold Torch.normalize_row.
    rewrite !norm2_single by lra. simpl. rewrite dot_single.
    unfold Torch.normalize_eps. rewrite !Rmax_left by lra.
    apply f_equal. lra. }
  assert (Hs : cal_simsiam_loss p z "simplified" = Ok (- 0.01)).
  { rewrite (simplified_same_shape p z 1 1 Hp Hz). unfold rows2; simpl.
    rewrite mean_single. unfold Torch.cosine_row.
    rewrite !norm2_single by lra. simpl. rewrite dot_single.
    unfold Torch.cosine_eps. rewrite Rmax_right by lra. rewrite Rmax_left by lra.
    apply f_equal. lra. }
  split; [exact Hp|]. split; [exact Hz|].
  split; [repeat constructor; lra|]. split; [repeat constructor; lra|].
  split; [exact Ho|]. split; [exact Hs|].
  rewrite Ho, Hs. intros H. inversion H. lra.
Qed.

Lemma bzip_not_raised {A : Type} (xs ys : list A) :
  Torch.bzip xs ys <> Err RaisedException.
Proof.
  unfold Torch.bzip. destruct (length xs =? length ys)%nat; [discriminate|].
  destruct xs as [|x [|x' xs]]; destruct ys as [|y [|y' ys]]; discriminate.
Qed.

Lemma mapM_not_raised {A B : Type} (f : A -> result B) (l : list A) :
  (forall x, f x <> Err RaisedException) -> mapM f l <> Err RaisedException.
Proof.
  intros Hf. induction l as [|x t IH]; simpl; [discriminate|].
  destruct (f x) as [y|er] eqn:Ey; simpl.
  - destruct (mapM f t) as [ys|er] eqn:Et; simpl; [discriminate|].
    intros H; inversion H; subst er. apply IH; reflexivity.
  - intros H; inversion H; subst er. exact (Hf x Ey).
Qed.

Lemma broadcast2_not_raised (a b : tensor2) :
  Torch.broadcast2 a b <> Err RaisedException.
Proof.
  unfold Torch.broadcast2. destruct (Torch.bzip a b) as [rows|er] eqn:E; simpl.
  - apply mapM_not_raised. intros rr. apply bzip_not_raised.
  - intros H; inversion H; subst er. exact (bzip_not_raised _ _ E).
Qed.

Lemma mapM_returns {A B : Type} (f : A -> result B) (l : list A) :
  Forall (fun x => exists y, f x = Ok y) l -> exists r, mapM f l = Ok r.
Proof.
  induction 1 as [|x t [y Hy] _ [ys IH]]; simpl.
  - eexists; reflexivity.
  - rewrite Hy; simpl. rewrite IH; simpl. eexists; reflexivity.
Qed.

Lemma bzip_broadcasts {A : Type} (xs ys : list A) :
  broadcasts (length xs) (length ys) ->
  exists prs, Torch.bzip xs ys = Ok prs
              /\ Forall (fun xy => In (fst xy) xs /\ In (snd xy) ys) prs.
Proof.
  intros H. unfold Torch.bzip.
  destruct (Nat.eqb_spec (length xs) (length ys)) as [E | E].
  - eexists; split; [reflexivity|]. apply Forall_forall. intros [x y] Hin.
    split; [exact (in_combine_l _ _ _ _ Hin) | exact (in_combine_r _ _ _ _ Hin)].
  - destruct H as [H | [H | H]]; [contradiction| |].
    + destruct xs as [|x [|x' xs]]; simpl in H; try discriminate.
      eexists; split; [reflexivity|]. apply Forall_map, Forall_forall.
      intros y Hy; simpl. split; [left; reflexivity | exact Hy].
    + destruct ys as [|y [|y' ys]]; simpl in H; try discriminate.
      destruct xs as [|x [|x' xs]].
      * eexists; split; [reflexivity | constructor].
      * simpl in E. contradiction.
      * eexists; split; [reflexivity|]. apply Forall_map, Forall_forall.
        intros x0 Hx0; simpl. split; [exact Hx0 | left; reflexivity].
Qed.

Lemma broadcast2_broadcasts (a b : tensor2) (n m d k : nat) :
  has_shape a n d -> has_shape b m k -> broadcasts n m -> broadcasts d k ->
  exists prs, Torch.broadcast2 a b = Ok prs.
Proof.
  intros [Hn Ha] [Hm Hb] Hrows Hcols. unfold Torch.broadcast2.
  destruct (bzip_broadcasts a b) as (rows & E & Hin); [congruence|].
  rewrite E; simpl. apply mapM_returns.
  eapply Forall_impl; [|exact Hin]. intros [u v] [Hu Hv]; simpl in *.
  rewrite Forall_forall in Ha, Hb.
  destruct (bzip_broadcasts u v) as (prs & Eprs & _).
  - rewrite (Ha u Hu), (Hb v Hv). exact Hcols.
  - eexists; exact Eprs.
Qed.

(** C6 (as amended): every version string other than ["original"] and
    ["simplified"] (["bogus"] among them) makes [cal_simsiam_loss] raise
    its exception and return nothing, whatever the tensors are; with
    either supported string that exception is never raised, and the call
    returns a value whenever the shapes of the two batches broadcast
    together, on two batches of the same shape in particular. *)
Theorem cal_simsiam_loss_version_dispatch :
  (forall p z version,
      version <> "original"%string -> version <> "simplified"%string ->
      cal_simsiam_loss p z version = Err RaisedException)
  /\ (forall p z, cal_simsiam_loss p z "bogus" = Err RaisedException)
  /\ (forall p z version,
         version = "original"%string \/ version = "simplified"%string ->
         cal_simsiam_loss p z version <> Err RaisedException)
  /\ (forall p z version n d,
         version = "original"%string \/ version = "simplified"%string ->
         has_shape p n d -> has_shape z n d ->
         exists v, cal_simsiam_loss p z version = Ok v)
  /\ (forall p z version n m d k,
         version = "original"%string \/ version = "simplified"%string ->
         has_shape p n d -> has_shape z m k ->
         broadcasts n m -> broadcasts d k ->
         exists v, cal_simsiam_loss p z version = Ok v).
Proof.
  split; [|split; [|split; [|split]]].
  - intros p z version Ho Hs. unfold cal_simsiam_loss.
    destruct (String.eqb_spec version "original"); [contradiction|].
    destruct (String.eqb_spec version "simplified"); [contradiction|].
    reflexivity.
  - intros p z. reflexivity.
  - intros p z version [-> | ->].
    + rewrite cal_simsiam_loss_original.
      unfold Torch.mul, Torch.elementwise.
      pose proof (broadcast2_not_raised (Torch.normalize p) (Torch.normalize z)) as Hb.
      destruct (Torch.broadcast2 _ _) as [prs|er]; simpl; congruence.
    + rewrite cal_simsiam_loss_simplified. unfold Torch.cosine_similarity.
      pose proof (broadcast2_not_raised p z) as Hb.
      destruct (Torch.broadcast2 _ _) as [prs|er]; simpl; congruence.
  - intros p z version n d [-> | ->] Hp Hz.
    + rewrite (original_same_shape p z n d Hp Hz). eexists; reflexivity.
    + rewrite (simplified_same_shape p z n d Hp Hz). eexists; reflexivity.
  - intros p z version n m d k [-> | ->] Hp Hz Hrows Hcols.
    + rewrite cal_simsiam_loss_original. unfold Torch.mul, Torch.elementwise.
      destruct (broadcast2_broadcasts (Torch.normalize p) (Torch.normalize z) n m d k)
        as [prs E]; try assumption; try (apply normalize_shape; assumption).
      rewrite E; simpl. eexists; reflexivity.
    + rewrite cal_simsiam_loss_simplified. unfold Torch.cosine_similarity.
      destruct (broadcast2_broadcasts p z n m d k) as [prs E]; try assumption.
      rewrite E; simpl. eexists; reflexivity.
Qed.

Lemma cal_simsiam_loss_version_dispatch_witness :
  cal_simsiam_loss [[1; 2]] [[3; 4]] "bogus" = Err RaisedException
  /\ cal_simsiam_loss [[1; 2]] [[3; 4]] "original" <> Err RaisedException
  /\ exists v, cal_simsiam_loss [[1; 2]] [[3; 4]] "simplified" = Ok v.
Proof.
  destruct cal_simsiam_loss_version_dispatch as (Hbad & _ & Hno & Hok & _).
  split; [|split].
  - apply Hbad; discriminate.
  - apply Hno. left; reflexivity.
  - apply (Hok _ _ _ 1%nat 2%nat).
    + right; reflexivity.
    + concrete_shape.
    + concrete_shape.
Defined.

(** C6 (as stated) fails in its last part: with a supported version
    string the call still raises when the shapes of the two batches do
    not broadcast together.  On two rows against three, both versions
    raise the shape error of the tensor operation. *)
Lemma cal_simsiam_loss_raises_on_mismatched_rows :
  let p := [[1; 0]; [0; 1]] in
  let z := [[1; 0]; [0; 1]; [1; 1]] in
  has_shape p 2 2 /\ has_shape z 3 2
  /\ cal_simsiam_loss p z "original" = Err TorchError
  /\ cal_simsiam_loss p z "simplified" = Err TorchError
  /\ ~ (exists v, cal_simsiam_loss p z "original" = Ok v)
  /\ ~ (exists v, cal_simsiam_loss p z "simplified" = Ok v).
Proof.
  intros p z.
  assert (Ho : cal_simsiam_loss p z "original" = Err TorchError) by reflexivity.
  assert (Hs : cal_simsiam_loss p z "simplified" = Err TorchError) by reflexivity.
  split; [concrete_shape|]. split; [concrete_shape|].
  split; [exact Ho|]. split; [exact Hs|].
  split; intros [v Hv]; [rewrite Ho in Hv | rewrite Hs in Hv]; discriminate.
Qed.

(** ** The tensor operations on operands of fitting shapes *)

Lemma matmul_t_ok (a b : tensor2) (d : nat) :
  Forall (fun r => length r = d) a -> Forall (fun r => length r = d) b ->
  Torch.matmul_t a b = Ok (outer a b).
Proof.
  intros Ha Hb. unfold Torch.matmul_t, outer. apply mapM_ok.
  eapply Forall_impl; [|exact Ha]. intros ra Hra; simpl.
  apply mapM_ok. eapply Forall_impl; [|exact Hb]. intros rb Hrb; simpl.
  rewrite Hra, Hrb, Nat.eqb_refl. reflexivity.
Qed.

Lemma outer_shape (a b : tensor2) : has_shape (outer a b) (length a) (length b).
Proof.
  split; unfold outer.
  - apply length_map.
  - apply Forall_map, Forall_forall. intros u _. apply length_map.
Qed.

Lemma div_scalar_shape (m : tensor2) (s : R) (n d : nat) :
  has_shape m n d -> has_shape (Torch.div_scalar m s) n d.
Proof.
  intros [Hn Hd]; split; unfold Torch.div_scalar.
  - rewrite length_map; exact Hn.
  - apply Forall_map. eapply Forall_impl; [|exact Hd].
    intros r Hr; simpl. rewrite length_map; exact Hr.
Qed.

Lemma scale_shape (s : R) (m : tensor2) (n d : nat) :
  has_shape m n d -> has_shape (Torch.scale s m) n d.
Proof.
  intros [Hn Hd]; split; unfold Torch.scale.
  - rewrite length_map; exact Hn.
  - apply Forall_map. eapply Forall_impl; [|exact Hd].
    intros r Hr; simpl. rewrite length_map; exact Hr.
Qed.

Lemma sub_ok (a b : tensor2) (n d : nat) :
  has_shape a n d -> has_shape b n d -> Torch.sub a b = Ok (minus_rows a b).
Proof. intros Ha Hb. apply (elementwise_same Rminus a b n d Ha Hb). Qed.

Lemma minus_rows_shape (a b : tensor2) (n d : nat) :
  has_shape a n d -> has_shape b n d -> has_shape (minus_rows a b) n d.
Proof.
  intros Ha Hb. split.
  - unfold minus_rows. rewrite rows2_length; destruct Ha, Hb; congruence.
  - unfold minus_rows, rows2. apply Forall_map.
    eapply Forall_combine_shape; eauto. intros u v Hu Hv _ _; simpl.
    rewrite length_map, length_combine. lia.
Qed.

Lemma cat1_ok (a b : tensor2) :
  length a = length b -> Torch.cat1 a b = Ok (append_rows a b).
Proof.
  intros H. unfold Torch.cat1. rewrite H, Nat.eqb_refl. reflexivity.
Qed.

Lemma append_rows_shape (a b : tensor2) (n d1 d2 : nat) :
  has_shape a n d1 -> has_shape b n d2 -> has_shape (append_rows a b) n (d1 + d2).
Proof.
  intros [Hn Ha] [Hm Hb]. split.
  - unfold append_rows. rewrite rows2_length; congruence.
  - unfold append_rows, rows2. apply Forall_map, Forall_forall.
    intros [u v] Hin; simpl. rewrite Forall_forall in Ha, Hb.
    rewrite length_app, (Ha u), (Hb v);
      [reflexivity | eapply in_combine_r | eapply in_combine_l]; eassumption.
Qed.

Lemma nth_log_softmax_row (row : tensor1) (y : nat) :
  (y < length row)%nat ->
  nth_error (Torch.log_softmax_row row) y = Some (nth y row 0 - logsumexp row).
Proof.
  intros Hy. unfold Torch.log_softmax_row, logsumexp.
  rewrite nth_error_map, (nth_error_nth' row 0 Hy). reflexivity.
Qed.

Lemma cross_entropy_ok (logits : tensor2) (target : list nat) (n c : nat) :
  has_shape logits n c -> length target = n ->
  Forall (fun y => (y < c)%nat) target ->
  Torch.cross_entropy logits target = Ok (mean_nll logits target).
Proof.
  intros [Hn Hc] Ht Hy. unfold Torch.cross_entropy, mean_nll.
  rewrite Hn, Ht, Nat.eqb_refl.
  rewrite (mapM_ok _ (fun ry => nll_row (fst ry) (snd ry))); [reflexivity|].
  apply Forall_forall. intros [r y] Hin; simpl.
  rewrite Forall_forall in Hc, Hy.
  rewrite nth_log_softmax_row.
  - unfold nll_row. f_equal. ring.
  - rewrite (Hc r (in_combine_l _ _ _ _ Hin)). apply Hy.
    exact (in_combine_r _ _ _ _ Hin).
Qed.

Lemma argmax_ok (m : tensor2) (n c : nat) :
  has_shape m n c -> (0 < c)%nat -> Torch.argmax m = Ok (map first_argmax m).
Proof.
  intros [_ Hc] Hpos. unfold Torch.argmax. apply mapM_ok.
  eapply Forall_impl; [|exact Hc]. intros r Hr; simpl.
  destruct r as [|x t]; [simpl in Hr; lia | reflexivity].
Qed.

Lemma eq_count_ok (pred target : list nat) :
  length pred = length target ->
  Torch.eq_count pred target
  = Ok (length (filter (fun pl => (fst pl =? snd pl)%nat) (combine pred target))).
Proof.
  intros H. unfold Torch.eq_count. rewrite bzip_same by exact H. reflexivity.
Qed.

(** ** Gathering *)

Lemma concat_map_shape {A : Type} (f : A -> tensor2) (l : list A) (n d : nat) :
  (forall r, In r l -> has_shape (f r) n d) ->
  has_shape (concat (map f l)) (n * length l) d.
Proof.
  induction l as [|r l IH]; intros H; simpl.
  - split; [simpl; lia | constructor].
  - destruct (H r (or_introl eq_refl)) as [Hn Hd].
    destruct IH as [Hn' Hd']; [intros; apply H; right; assumption|].
    split.
    + rewrite length_app, Hn, Hn'. lia.
    + apply Forall_app; split; assumption.
Qed.

Lemma gather_one_shape (e : Utils.env) (contrib : nat -> tensor2)
      (local : tensor2) (n d : nat) :
  has_shape local n d -> valid_peers e contrib n d ->
  has_shape (Utils.gather_one e contrib local) (n * Utils.get_world_size e) d.
Proof.
  intros Hl Hp. unfold Utils.gather_one.
  replace (n * Utils.get_world_size e)%nat
    with (n * length (seq 0 (Utils.get_world_size e)))%nat
    by (rewrite length_seq; reflexivity).
  apply concat_map_shape. intros r Hr. apply in_seq in Hr.
  destruct (Nat.eqb_spec r (Utils.get_rank e)); [exact Hl|].
  apply Hp; [lia | assumption].
Qed.

Lemma gather_one_single (contrib : nat -> tensor2) (local : tensor2) :
  Utils.gather_one single_process contrib local = local.
Proof. unfold Utils.gather_one; simpl. apply app_nil_r. Qed.

Lemma valid_peers_single (contrib : nat -> tensor2) (n d : nat) :
  valid_peers single_process contrib n d.
Proof. intros r Hr Hne; simpl in *. lia. Qed.

(** ** Labels and masks *)

Lemma make_labels_length (e : Utils.env) (n : nat) : length (make_labels e n) = n.
Proof. unfold make_labels, Torch.arange. rewrite length_map, length_seq. reflexivity. Qed.

Lemma make_labels_nth (e : Utils.env) (n i : nat) :
  (i < n)%nat -> nth i (make_labels e n) 0%nat = (n * Utils.get_rank e + i)%nat.
Proof.
  intros Hi. unfold make_labels, Torch.arange.
  rewrite (nth_indep _ 0%nat ((fun i => n * Utils.get_rank e + i) 0))%nat
    by (rewrite length_map, length_seq; exact Hi).
  rewrite (map_nth (fun i => (n * Utils.get_rank e + i)%nat)), seq_nth by exact Hi.
  reflexivity.
Qed.

Lemma make_labels_single (n : nat) : make_labels single_process n = seq 0 n.
Proof.
  unfold make_labels, Torch.arange; simpl.
  rewrite Nat.mul_0_r. simpl. apply map_id.
Qed.

Lemma make_labels_bound (e : Utils.env) (n : nat) :
  valid_env e ->
  Forall (fun y => (y < n * Utils.get_world_size e)%nat) (make_labels e n).
Proof.
  unfold valid_env. intros He. unfold make_labels, Torch.arange.
  apply Forall_map, Forall_forall. intros i Hi. apply in_seq in Hi. nia.
Qed.

Lemma make_masks_shape (e : Utils.env) (n : nat) :
  has_shape (make_masks e n) n (n * Utils.get_world_size e).
Proof.
  split; unfold make_masks.
  - rewrite length_map. apply make_labels_length.
  - apply Forall_map, Forall_forall. intros y _.
    rewrite length_map, length_seq. reflexivity.
Qed.

Lemma one_hot_ok (target : list nat) (c : nat) :
  target <> [] -> Forall (fun y => (y < c)%nat) target ->
  Torch.one_hot target c
  = Ok (map (fun y => map (fun j => if (j =? y)%nat then 1%nat else 0%nat) (seq 0 c))
            target).
Proof.
  intros Hne Hlt. apply (list_max_lt c Hne), Nat.ltb_lt in Hlt.
  unfold Torch.one_hot. rewrite Hlt.
  destruct target; [congruence | reflexivity].
Qed.

Lemma one_hot_inv (target : list nat) (c : nat) (oh : list (list nat)) :
  Torch.one_hot target c = Ok oh ->
  oh = map (fun y => map (fun j => if (j =? y)%nat then 1%nat else 0%nat) (seq 0 c))
           target.
Proof.
  unfold Torch.one_hot. destruct target as [|y l].
  - destruct (c =? 0)%nat; [discriminate|]. intros H; inversion H. reflexivity.
  - destruct (_ <? _)%nat; [|discriminate]. intros H; inversion H. reflexivity.
Qed.

Lemma one_hot_make_labels (e : Utils.env) (n : nat) :
  valid_env e -> (0 < n)%nat ->
  Torch.one_hot (make_labels e n) (n * Utils.get_world_size e)
  = Ok (map (fun y => map (fun j => if (j =? y)%nat then 1%nat else 0%nat)
                          (seq 0 (n * Utils.get_world_size e)))
            (make_labels e n)).
Proof.
  intros He Hn. apply one_hot_ok; [|apply make_labels_bound, He].
  intros H. apply (f_equal (@length nat)) in H.
  rewrite make_labels_length in H. simpl in H. lia.
Qed.

Lemma scaled_one_hot_is_mask (e : Utils.env) (n : nat) :
  map (map (fun x => INR x * 1e9))
      (map (fun y => map (fun j => if (j =? y)%nat then 1%nat else 0%nat)
                         (seq 0 (n * Utils.get_world_size e)))
           (make_labels e n))
  = make_masks e n.
Proof.
  unfold make_masks. rewrite map_map. apply map_ext. intros y.
  rewrite map_map. apply map_ext. intros j.
  destruct (j =? y)%nat; simpl; lra.
Qed.

Lemma size_changed_same (n : nat) : size_changed n (Some n) = false.
Proof. simpl. rewrite Nat.eqb_refl. reflexivity. Qed.

Lemma size_changed_false (n : nat) (last : option nat) :
  size_changed n last = false -> last = Some n.
Proof.
  destruct last as [m|]; simpl; [|discriminate].
  intros H. apply negb_false_iff, Nat.eqb_eq in H. congruence.
Qed.

Lemma simclr_update_cache_ok (e : Utils.env) (self : SIMCLRLoss.t) (n : nat) :
  valid_env e -> (0 < n)%nat -> simclr_cache_valid e self ->
  SIMCLRLoss.update_cache e self n
  = (simclr_cached e (SIMCLRLoss.tau self) n, Ok tt).
Proof.
  intros He Hn Hc. unfold SIMCLRLoss.update_cache.
  destruct (size_changed n (SIMCLRLoss.last_local_batch_size self)) eqn:E.
  - rewrite (one_hot_make_labels e n He Hn), scaled_one_hot_is_mask. reflexivity.
  - apply size_changed_false in E. unfold simclr_cache_valid in Hc.
    rewrite E in Hc. destruct Hc as [Hl Hm].
    destruct self as [t l m s]; simpl in *. subst. reflexivity.
Qed.

(** ** [SIMCLRLoss.forward] on operands of fitting shapes *)

Lemma bind_ok {A B : Type} (a : A) (k : A -> result B) : bind (Ok a) k = k a.
Proof. reflexivity. Qed.

Lemma has_shape_rows (m : tensor2) (n d : nat) :
  has_shape m n d -> Forall (fun r => length r = d) m.
Proof. intros [_ H]; exact H. Qed.

Lemma has_shape_length (m : tensor2) (n d : nat) : has_shape m n d -> length m = n.
Proof. intros [H _]; exact H. Qed.

Lemma logits_shape (q k : tensor2) (s : R) (n t d : nat) :
  has_shape q n d -> has_shape k t d ->
  has_shape (Torch.div_scalar (outer q k) s) n t.
Proof.
  intros [Hq _] [Hk _]. apply div_scalar_shape.
  rewrite <- Hq, <- Hk. apply outer_shape.
Qed.

Lemma simclr_cat_shape (s : R) (mask q k1 k2 : tensor2) (n t d : nat) :
  has_shape q n d -> has_shape k1 t d -> has_shape k2 t d -> has_shape mask n t ->
  has_shape (simclr_cat s mask q k1 k2) n (t + t).
Proof.
  intros Hq H1 H2 Hm. unfold simclr_cat. apply append_rows_shape.
  - eapply logits_shape; eassumption.
  - apply minus_rows_shape; [eapply logits_shape; eassumption | exact Hm].
Qed.

Create HintDb shapes.

#[local] Hint Resolve normalize_shape div_scalar_shape scale_shape
  minus_rows_shape append_rows_shape gather_one_shape make_masks_shape
  logits_shape simclr_cat_shape : shapes.

Lemma simclr_losses_ok (e : Utils.env) (s : R) (q_a q_b k_a k_b : tensor2)
      (n d : nat) :
  valid_env e -> (0 < n)%nat ->
  has_shape q_a n d -> has_shape q_b n d ->
  has_shape k_a (n * Utils.get_world_size e) d ->
  has_shape k_b (n * Utils.get_world_size e) d ->
  let cat_a := simclr_cat s (make_masks e n) q_a k_b k_a in
  let cat_b := simclr_cat s (make_masks e n) q_b k_a k_b in
  let loss := (mean_nll cat_a (make_labels e n)
               + mean_nll cat_b (make_labels e n)) / 2 in
  SIMCLRLoss.losses (simclr_cached e s n) n q_a q_b k_a k_b
  = Ok [("loss"%string, loss); ("ssl_loss"%string, loss);
        ("ssl_acc"%string, accuracy cat_a (make_labels e n) n)].
Proof.
  intros He Hn Hqa Hqb Hka Hkb cat_a cat_b loss.
  set (t := (n * Utils.get_world_size e)%nat) in *.
  pose proof (make_masks_shape e n) as Hm. fold t in Hm.
  assert (Ht : (0 < t)%nat) by (unfold t, valid_env in *; nia).
  assert (Hca : has_shape cat_a n (t + t)) by (unfold cat_a; eauto with shapes).
  assert (Hcb : has_shape cat_b n (t + t)) by (unfold cat_b; eauto with shapes).
  assert (Hy : Forall (fun y => (y < t + t)%nat) (make_labels e n)).
  { eapply Forall_impl; [|apply make_labels_bound, He].
    intros y Hlt; simpl in Hlt. fold t in Hlt. lia. }
  unfold SIMCLRLoss.losses, simclr_cached; simpl SIMCLRLoss.labels;
    simpl SIMCLRLoss.masks; simpl SIMCLRLoss.tau.
  rewrite (matmul_t_ok q_a k_a d) by (eapply has_shape_rows; eassumption).
  rewrite bind_ok.
  rewrite (sub_ok _ (make_masks e n) n t)
    by (try eapply logits_shape; eassumption).
  rewrite bind_ok.
  rewrite (matmul_t_ok q_b k_b d) by (eapply has_shape_rows; eassumption).
  rewrite bind_ok.
  rewrite (sub_ok _ (make_masks e n) n t)
    by (try eapply logits_shape; eassumption).
  rewrite bind_ok.
  rewrite (matmul_t_ok q_a k_b d) by (eapply has_shape_rows; eassumption).
  rewrite bind_ok.
  rewrite (matmul_t_ok q_b k_a d) by (eapply has_shape_rows; eassumption).
  rewrite bind_ok.
  assert (Hcat : forall q k1 k2, has_shape q n d -> has_shape k1 t d ->
                                 has_shape k2 t d ->
            Torch.cat1 (Torch.div_scalar (outer q k1) s)
              (minus_rows (Torch.div_scalar (outer q k2) s) (make_masks e n))
            = Ok (simclr_cat s (make_masks e n) q k1 k2)).
  { intros q k1 k2 Hq H1 H2. apply cat1_ok.
    rewrite (has_shape_length _ n t) by (eapply logits_shape; eassumption).
    symmetry. eapply has_shape_length, minus_rows_shape;
      [eapply logits_shape|]; eassumption. }
  rewrite (Hcat q_a k_b k_a) by assumption. rewrite bind_ok. fold cat_a.
  rewrite (cross_entropy_ok cat_a _ n (t + t) Hca (make_labels_length e n) Hy).
  rewrite bind_ok.
  rewrite (Hcat q_b k_a k_b) by assumption. rewrite bind_ok. fold cat_b.
  rewrite (cross_entropy_ok cat_b _ n (t + t) Hcb (make_labels_length e n) Hy).
  rewrite bind_ok.
  rewrite bind_ok.
  rewrite (argmax_ok cat_a n (t + t) Hca) by lia. rewrite bind_ok.
  rewrite eq_count_ok
    by (rewrite length_map, make_labels_length; apply (has_shape_length _ _ _ Hca)).
  rewrite bind_ok. reflexivity.
Qed.

Lemma simclr_forward_ok (e : Utils.env) (ps : Utils.peers) (self : SIMCLRLoss.t)
      (aug1 aug2 : tensor2) (n d : nat) :
  valid_env e -> (0 < n)%nat ->
  has_shape aug1 n d -> has_shape aug2 n d ->
  valid_peers e (ps 0%nat) n d -> valid_peers e (ps 1%nat) n d ->
  simclr_cache_valid e self ->
  SIMCLRLoss.forward e ps self (SIMCLRLoss.mk_inputs aug1 aug2)
  = (simclr_cached e (SIMCLRLoss.tau self) n,
     Ok (simclr_record e ps (SIMCLRLoss.tau self) aug1 aug2)).
Proof.
  intros He Hn H1 H2 Hp0 Hp1 Hc.
  unfold SIMCLRLoss.forward. simpl SIMCLRLoss.aug1_embed. simpl SIMCLRLoss.aug2_embed.
  change (Utils.all_gather_batch_with_grad e ps
            [Torch.normalize aug1; Torch.normalize aug2])
    with [Utils.gather_one e (ps 0%nat) (Torch.normalize aug1);
          Utils.gather_one e (ps 1%nat) (Torch.normalize aug2)].
  rewrite normalize_length, (has_shape_length _ _ _ H1).
  rewrite (simclr_update_cache_ok e self n He Hn Hc).
  f_equal. unfold simclr_record, simclr_loss_value, simclr_acc_value.
  rewrite (has_shape_length _ _ _ H1).
  apply (simclr_losses_ok e _ _ _ _ _ n d He Hn); auto with shapes.
Qed.

(** ** From lists to indices *)

Lemma map_as_seq {A B : Type} (f : A -> B) (l : list A) (d : A) :
  map f l = map (fun i => f (nth i l d)) (seq 0 (length l)).
Proof.
  apply (nth_ext _ _ (f d) (f d)).
  - rewrite !length_map, length_seq. reflexivity.
  - intros i Hi. rewrite length_map in Hi.
    rewrite (map_nth f l d i).
    rewrite (nth_indep _ (f d) ((fun i => f (nth i l d)) 0%nat))
      by (rewrite length_map, length_seq; exact Hi).
    rewrite (map_nth (fun i => f (nth i l d)) (seq 0 (length l)) 0%nat i).
    rewrite seq_nth by exact Hi. reflexivity.
Qed.

Lemma combine_as_seq {A B : Type} (a : list A) (b : list B) (da : A) (db : B) (n : nat) :
  length a = n -> length b = n ->
  combine a b = map (fun i => (nth i a da, nth i b db)) (seq 0 n).
Proof.
  revert b n; induction a as [|x a IH]; intros [|y b] n Ha Hb; simpl in *;
    subst n; try reflexivity; try discriminate.
  simpl. f_equal. rewrite <- seq_shift, map_map. apply IH; [reflexivity | lia].
Qed.

Lemma sum_app (u v : tensor1) : Torch.sum (u ++ v) = Torch.sum u + Torch.sum v.
Proof. induction u as [|x u IH]; simpl; [ring | rewrite IH; ring]. Qed.

Lemma sum_exp_as_big_sum (f : tensor1 -> R) (k : tensor2) (t : nat) :
  length k = t ->
  Torch.sum (map exp (map f k)) = big_sum t (fun j => exp (f (row k j))).
Proof.
  intros <-. unfold big_sum, row. rewrite map_map. f_equal.
  apply (map_as_seq (fun x => exp (f x)) k []).
Qed.

Lemma row_outer (q k : tensor2) (i : nat) :
  (i < length q)%nat -> row (outer q k) i = map (Torch.dot (row q i)) k.
Proof.
  intros Hi. unfold row, outer.
  rewrite (nth_indep _ [] ((fun u => map (fun v => Torch.dot u v) k) []))
    by (rewrite length_map; exact Hi).
  rewrite (map_nth (fun u => map (fun v => Torch.dot u v) k)). reflexivity.
Qed.

Lemma row_div_scalar (m : tensor2) (s : R) (i : nat) :
  row (Torch.div_scalar m s) i = map (fun x => x / s) (row m i).
Proof.
  unfold row, Torch.div_scalar.
  apply (map_nth (map (fun x => x / s)) m [] i).
Qed.

Lemma row_rows2 (f : tensor1 -> tensor1 -> tensor1) (a b : tensor2) (i : nat) :
  (i < length a)%nat -> length a = length b ->
  row (rows2 f a b) i = f (row a i) (row b i).
Proof.
  intros Hi Hab. unfold row, rows2.
  rewrite (combine_as_seq a b [] [] (length a)) by congruence.
  rewrite map_map.
  rewrite (nth_indep _ [] ((fun i => f (nth i a []) (nth i b [])) 0%nat))
    by (rewrite length_map, length_seq; exact Hi).
  rewrite (map_nth (fun i => f (nth i a []) (nth i b []))), seq_nth by exact Hi.
  reflexivity.
Qed.

Lemma row_make_masks (e : Utils.env) (n i : nat) :
  (i < n)%nat ->
  row (make_masks e n) i
  = map (fun j => if (j =? global_index e n i)%nat then 1e9 else 0)
        (seq 0 (n * Utils.get_world_size e)).
Proof.
  intros Hi. unfold row, make_masks.
  set (f := fun y => map (fun j => if (j =? y)%nat then 1e9 else 0)
                         (seq 0 (n * Utils.get_world_size e))).
  rewrite (nth_indep _ [] (f 0%nat))
    by (rewrite length_map, make_labels_length; exact Hi).
  rewrite (map_nth f), make_labels_nth by exact Hi. reflexivity.
Qed.

Lemma row_logits (q k : tensor2) (s : R) (i : nat) :
  (i < length q)%nat ->
  row (Torch.div_scalar (outer q k) s) i
  = map (fun v => Torch.dot (row q i) v / s) k.
Proof.
  intros Hi. rewrite row_div_scalar, row_outer by exact Hi.
  rewrite map_map. reflexivity.
Qed.

Lemma sum_exp_masked (f : tensor1 -> R) (g : nat -> R) (k : tensor2) (t : nat) :
  length k = t ->
  Torch.sum (map exp (map (fun xy => fst xy - snd xy)
                          (combine (map f k) (map g (seq 0 t)))))
  = big_sum t (fun j => exp (f (row k j) - g j)).
Proof.
  intros Hk. unfold big_sum, row.
  rewrite (combine_as_seq (map f k) (map g (seq 0 t)) (f []) (g 0%nat) t)
    by (rewrite length_map; auto using length_seq).
  rewrite !map_map. f_equal. apply map_ext_in. intros j Hj. apply in_seq in Hj.
  simpl. rewrite (map_nth f k [] j), (map_nth g (seq 0 t) 0%nat j), seq_nth by lia.
  reflexivity.
Qed.

Lemma mean_as_big_sum (f : tensor1 -> nat -> R) (m : tensor2) (target : list nat) (n : nat) :
  length m = n -> length target = n ->
  Torch.mean (map (fun ry => f (fst ry) (snd ry)) (combine m target))
  = big_sum n (fun i => f (row m i) (nth i target 0%nat)) / INR n.
Proof.
  intros Hm Ht. unfold Torch.mean, big_sum, row.
  rewrite length_map, length_combine, Hm, Ht, Nat.min_id.
  rewrite (combine_as_seq m target [] 0%nat n Hm Ht), map_map. reflexivity.
Qed.

Lemma nll_row_simclr_cat (e : Utils.env) (s : R) (q k1 k2 : tensor2) (n d i : nat) :
  valid_env e -> (i < n)%nat ->
  has_shape q n d ->
  has_shape k1 (n * Utils.get_world_size e) d ->
  has_shape k2 (n * Utils.get_world_size e) d ->
  nll_row (row (simclr_cat s (make_masks e n) q k1 k2) i) (global_index e n i)
  = simclr_term e s n (n * Utils.get_world_size e) q k1 k2 i.
Proof.
  intros He Hi Hq H1 H2. set (t := (n * Utils.get_world_size e)%nat) in *.
  pose proof (make_masks_shape e n) as Hm. fold t in Hm.
  assert (Hy : (global_index e n i < t)%nat)
    by (unfold global_index, t, valid_env in *; nia).
  assert (Hqi : (i < length q)%nat) by (rewrite (has_shape_length _ _ _ Hq); exact Hi).
  assert (Hl : forall k, has_shape k t d ->
                         length (Torch.div_scalar (outer q k) s) = n).
  { intros k Hk. eapply has_shape_length, logits_shape; eassumption. }
  unfold simclr_cat, append_rows.
  rewrite row_rows2; cycle 1.
  { rewrite (Hl k1 H1); exact Hi. }
  { rewrite (Hl k1 H1). symmetry.
    eapply has_shape_length, minus_rows_shape; [eapply logits_shape|]; eassumption. }
  unfold minus_rows. rewrite row_rows2; cycle 1.
  { rewrite (Hl k2 H2); exact Hi. }
  { rewrite (Hl k2 H2). symmetry. apply (has_shape_length _ _ _ Hm). }
  rewrite !row_logits, row_make_masks by assumption. fold t.
  unfold nll_row, logsumexp, simclr_term.
  rewrite map_app, sum_app.
  rewrite (sum_exp_as_big_sum (fun v => Torch.dot (row q i) v / s) k1 t
             (has_shape_length _ _ _ H1)).
  rewrite (sum_exp_masked (fun v => Torch.dot (row q i) v / s) _ k2 t
             (has_shape_length _ _ _ H2)).
  f_equal.
  assert (Hlm : (global_index e n i
                 < length (map (fun v => (Torch.dot (row q i) v / s)%R) k1))%nat).
  { rewrite length_map.
    exact (eq_ind_r (fun x => (global_index e n i < x)%nat) Hy
                    (has_shape_length _ _ _ H1)). }
  rewrite app_nth1 by exact Hlm.
  rewrite (nth_indep _ 0 ((fun v => Torch.dot (row q i) v / s) [])) by exact Hlm.
  rewrite (map_nth (fun v => Torch.dot (row q i) v / s)). reflexivity.
Qed.

Lemma mean_nll_simclr_cat (e : Utils.env) (s : R) (q k1 k2 : tensor2) (n d : nat) :
  valid_env e ->
  has_shape q n d ->
  has_shape k1 (n * Utils.get_world_size e) d ->
  has_shape k2 (n * Utils.get_world_size e) d ->
  mean_nll (simclr_cat s (make_masks e n) q k1 k2) (make_labels e n)
  = big_sum n (simclr_term e s n (n * Utils.get_world_size e) q k1 k2) / INR n.
Proof.
  intros He Hq H1 H2. unfold mean_nll.
  rewrite (mean_as_big_sum nll_row _ _ n); cycle 1.
  { eapply has_shape_length, simclr_cat_shape; try eassumption.
    apply make_masks_shape. }
  { apply make_labels_length. }
  f_equal. unfold big_sum. f_equal. apply map_ext_in. intros i Hi.
  apply in_seq in Hi. rewrite make_labels_nth by lia.
  apply (nll_row_simclr_cat e s q k1 k2 n d i); try assumption. lia.
Qed.

Lemma simclr_record_loss (e : Utils.env) (ps : Utils.peers) (s : R)
      (aug1 aug2 : tensor2) :
  dict_get (simclr_record e ps s aug1 aug2) "loss"
  = Some (simclr_loss_value e ps s aug1 aug2).
Proof. reflexivity. Qed.

Lemma simclr_record_ssl_loss (e : Utils.env) (ps : Utils.peers) (s : R)
      (aug1 aug2 : tensor2) :
  dict_get (simclr_record e ps s aug1 aug2) "ssl_loss"
  = dict_get (simclr_record e ps s aug1 aug2) "loss".
Proof. reflexivity. Qed.

(** C1: on two batches of [n] rows of [d] entries, [SIMCLRLoss.forward]
    returns under ["loss"] the half sum of two terms.  Each term is the
    mean over the local samples of a cross-entropy whose logits are the
    cross-view similarities followed by the same-view similarities, all
    divided by the temperature, computed between the normalized local
    batch and a gathered batch; [1e9] is subtracted from the same-view
    entry at the sample's own global index and from no cross-view entry;
    the target is the cross-view entry at the cached label. *)
Theorem simclr_forward_loss (e : Utils.env) (ps : Utils.peers)
        (self : SIMCLRLoss.t) (aug1 aug2 : tensor2) (n d : nat) :
  valid_env e -> (0 < n)%nat ->
  has_shape aug1 n d -> has_shape aug2 n d ->
  valid_peers e (ps 0%nat) n d -> valid_peers e (ps 1%nat) n d ->
  simclr_cache_valid e self ->
  let temperature := SIMCLRLoss.tau self in
  let t := (n * Utils.get_world_size e)%nat in
  let q_a := Torch.normalize aug1 in
  let q_b := Torch.normalize aug2 in
  let k_a := Utils.gather_one e (ps 0%nat) q_a in
  let k_b := Utils.gather_one e (ps 1%nat) q_b in
  let loss_a := big_sum n (simclr_term e temperature n t q_a k_b k_a) / INR n in
  let loss_b := big_sum n (simclr_term e temperature n t q_b k_a k_b) / INR n in
  exists self' out,
    SIMCLRLoss.forward e ps self (SIMCLRLoss.mk_inputs aug1 aug2) = (self', Ok out)
    /\ SIMCLRLoss.labels self' = Some (map (global_index e n) (seq 0 n))
    /\ dict_get out "loss" = Some ((loss_a + loss_b) / 2)
    /\ dict_get out "ssl_loss" = Some ((loss_a + loss_b) / 2).
Proof.
  intros He Hn H1 H2 Hp0 Hp1 Hc temperature t q_a q_b k_a k_b loss_a loss_b.
  exists (simclr_cached e temperature n), (simclr_record e ps temperature aug1 aug2).
  split; [apply (simclr_forward_ok e ps self aug1 aug2 n d); assumption|].
  split; [reflexivity|].
  assert (Hqa : has_shape q_a n d) by (unfold q_a; auto with shapes).
  assert (Hqb : has_shape q_b n d) by (unfold q_b; auto with shapes).
  assert (Hka : has_shape k_a t d) by (unfold k_a, t; auto with shapes).
  assert (Hkb : has_shape k_b t d) by (unfold k_b, t; auto with shapes).
  rewrite simclr_record_ssl_loss.
  assert (Hloss : dict_get (simclr_record e ps temperature aug1 aug2) "loss"
                  = Some ((loss_a + loss_b) / 2)).
  { rewrite simclr_record_loss. unfold simclr_loss_value.
    rewrite (has_shape_length _ _ _ H1). fold q_a q_b. fold k_a k_b.
    rewrite (mean_nll_simclr_cat e temperature q_a k_b k_a n d) by assumption.
    rewrite (mean_nll_simclr_cat e temperature q_b k_a k_b n d) by assumption.
    reflexivity. }
  split; exact Hloss.
Qed.

Lemma simclr_forward_loss_witness :
  exists self' out loss,
    SIMCLRLoss.forward single_process (fun _ _ => []) (SIMCLRLoss.init 0.1)
      (SIMCLRLoss.mk_inputs [[1; 0]; [0; 1]] [[0; 1]; [1; 0]]) = (self', Ok out)
    /\ SIMCLRLoss.labels self' = Some [0%nat; 1%nat]
    /\ dict_get out "loss" = Some loss.
Proof.
  destruct (simclr_forward_loss single_process (fun _ _ => []) (SIMCLRLoss.init 0.1)
              [[1; 0]; [0; 1]] [[0; 1]; [1; 0]] 2 2)
    as (self' & out & Hf & Hl & Hloss & _).
  - unfold valid_env; simpl; lia.
  - lia.
  - concrete_shape.
  - concrete_shape.
  - apply valid_peers_single.
  - apply valid_peers_single.
  - exact I.
  - exists self', out. eexists. split; [exact Hf|]. split; [exact Hl | exact Hloss].
Defined.

(** ** [ACLIPLoss.forward] on operands of fitting shapes *)

Lemma Forall_split_at {A : Type} (P : A -> Prop) (n : nat) (l : list A) :
  Forall P l -> Forall P (firstn n l) /\ Forall P (skipn n l).
Proof.
  intros H. apply Forall_app. rewrite firstn_skipn. exact H.
Qed.

Lemma firstn_shape (m : tensor2) (n d : nat) :
  has_shape m (n + n) d -> has_shape (firstn n m) n d.
Proof.
  intros [Hn Hd]; split.
  - rewrite length_firstn. lia.
  - apply Forall_split_at, Hd.
Qed.

Lemma skipn_shape (m : tensor2) (n d : nat) :
  has_shape m (n + n) d -> has_shape (skipn n m) n d.
Proof.
  intros [Hn Hd]; split.
  - rewrite length_skipn. lia.
  - apply Forall_split_at, Hd.
Qed.

Lemma app_shape (a b : tensor2) (n m d : nat) :
  has_shape a n d -> has_shape b m d -> has_shape (a ++ b) (n + m) d.
Proof.
  intros [Hn Ha] [Hm Hb]; split.
  - rewrite length_app; congruence.
  - apply Forall_app; split; assumption.
Qed.

Lemma loss_fn_ok (x y : tensor2) (n d : nat) :
  has_shape x n d -> has_shape y n d ->
  ACLIPLoss.loss_fn x y
  = Ok (rows2 (fun u v => 2 - 2 * Torch.dot (Torch.normalize_row u)
                                            (Torch.normalize_row v)) x y).
Proof.
  intros Hx Hy. unfold ACLIPLoss.loss_fn, Torch.mul.
  rewrite (elementwise_same Rmult _ _ n d) by (apply normalize_shape; assumption).
  rewrite bind_ok. unfold Torch.sum_dim1, Torch.normalize.
  rewrite !rows2_map, rows2_pre. reflexivity.
Qed.

Lemma aclip_update_cache_ok (e : Utils.env) (self : ACLIPLoss.t) (n : nat) :
  match ACLIPLoss.last_local_batch_size self with
  | None => True
  | Some m => ACLIPLoss.labels self = Some (make_labels e m)
  end ->
  ACLIPLoss.update_cache e self n
  = ACLIPLoss.mk (Some (make_labels e n)) (Some n) (ACLIPLoss.simclr_loss self).
Proof.
  intros Hc. unfold ACLIPLoss.update_cache.
  destruct (size_changed n (ACLIPLoss.last_local_batch_size self)) eqn:E;
    [reflexivity|].
  apply size_changed_false in E. rewrite E in Hc.
  destruct self as [l s m]; simpl in *. subst. reflexivity.
Qed.

Lemma outer_has_shape (a b : tensor2) (n t d d' : nat) :
  has_shape a n d -> has_shape b t d' -> has_shape (outer a b) n t.
Proof.
  intros [Ha _] [Hb _]. rewrite <- Ha, <- Hb. apply outer_shape.
Qed.

Lemma contra_ok (target : list nat) (image text image_all text_all : tensor2)
      (s : R) (n t d : nat) :
  has_shape image n d -> has_shape text n d ->
  has_shape image_all t d -> has_shape text_all t d ->
  length target = n -> Forall (fun y => (y < t)%nat) target ->
  forall (k : tensor2 -> R -> R -> result dict),
  (logits_per_image <- Torch.matmul_t (Torch.scale s image) text_all ;;
   logits_per_text <- Torch.matmul_t (Torch.scale s text) image_all ;;
   ce_image <- Torch.cross_entropy logits_per_image target ;;
   ce_text <- Torch.cross_entropy logits_per_text target ;;
   k logits_per_image ce_image ce_text)
  = k (outer (Torch.scale s image) text_all)
      (mean_nll (outer (Torch.scale s image) text_all) target)
      (mean_nll (outer (Torch.scale s text) image_all) target).
Proof.
  intros Hi Ht Hia Hta Hl Hy k.
  pose proof (scale_shape s image n d Hi) as Hsi.
  pose proof (scale_shape s text n d Ht) as Hst.
  rewrite (matmul_t_ok _ text_all d) by (eapply has_shape_rows; eassumption).
  rewrite bind_ok.
  rewrite (matmul_t_ok _ image_all d) by (eapply has_shape_rows; eassumption).
  rewrite bind_ok.
  rewrite (cross_entropy_ok _ target n t)
    by (try eapply outer_has_shape; eassumption).
  rewrite bind_ok.
  rewrite (cross_entropy_ok _ target n t)
    by (try eapply outer_has_shape; eassumption).
  rewrite bind_ok. reflexivity.
Qed.

Lemma aclip_losses_ok (e : Utils.env) (ps : Utils.peers) (s : R)
      (outputs : ACLIPLoss.inputs) (ssl : dict) (ssl_loss byol : R)
      (n d d_ssl d_byol : nat) :
  valid_env e -> valid_inputs outputs n d d_ssl d_byol ->
  valid_clip_peers e ps n d ->
  dict_get ssl "ssl_loss" = Some ssl_loss ->
  let contra_1 := contra_value e ps outputs 0 (view1 outputs) in
  let contra_2 := contra_value e ps outputs 1 (view2 outputs) in
  ACLIPLoss.losses e ps (aclip_cached e s n) outputs ssl byol
  = Ok [("loss"%string, 0.5 * contra_1 + 0.5 * contra_2 + ssl_loss + 2 * byol);
        ("simclr_loss"%string, ssl_loss);
        ("im_byol_loss"%string, byol);
        ("contra_loss_1"%string, contra_1);
        ("contra_loss_2"%string, contra_2);
        ("clip_acc"%string,
         accuracy (image_logits e ps outputs (view2 outputs)) (make_labels e n) n)].
Proof.
  intros He (Hn & Ht & Hi & _ & _ & _) (Hp0 & Hp1 & Hp2) Hssl contra_1 contra_2.
  pose proof (has_shape_length _ _ _ Ht) as Hlen.
  set (t := (n * Utils.get_world_size e)%nat).
  assert (Hpos : (0 < t)%nat) by (unfold t, valid_env in *; nia).
  pose proof (normalize_shape _ _ _ Ht) as Hnt.
  pose proof (normalize_shape _ _ _ Hi) as Hni.
  assert (Hv1 : has_shape (view1 outputs) n d)
    by (unfold view1; rewrite Hlen; apply firstn_shape, Hni).
  assert (Hv2 : has_shape (view2 outputs) n d)
    by (unfold view2; rewrite Hlen; apply skipn_shape, Hni).
  pose proof (gather_one_shape e _ _ n d Hv1 Hp0) as Ha1.
  pose proof (gather_one_shape e _ _ n d Hv2 Hp1) as Ha2.
  pose proof (gather_one_shape e _ _ n d Hnt Hp2) as Hta.
  fold t in Ha1, Ha2, Hta.
  pose proof (make_labels_bound e n He) as Hy. fold t in Hy.
  unfold ACLIPLoss.losses.
  change (Utils.all_gather_batch_with_grad e ps ?l)
    with [Utils.gather_one e (ps 0%nat) (view1 outputs);
          Utils.gather_one e (ps 1%nat) (view2 outputs);
          Utils.gather_one e (ps 2%nat)
            (Torch.normalize (ACLIPLoss.text_embed outputs))].
  unfold aclip_cached. simpl ACLIPLoss.labels. cbv iota beta.
  fold (view1 outputs). fold (view2 outputs).
  rewrite (contra_ok _ _ _ _ _ _ n t d Hv1 Hnt Ha1 Hta (make_labels_length e n) Hy).
  rewrite (contra_ok _ _ _ _ _ _ n t d Hv2 Hnt Ha2 Hta (make_labels_length e n) Hy).
  unfold dict_item. rewrite Hssl, !bind_ok.
  rewrite (argmax_ok _ n t) by (try eapply outer_has_shape;
                                try apply scale_shape; eassumption).
  rewrite bind_ok.
  rewrite eq_count_ok; cycle 1.
  { rewrite length_map, make_labels_length.
    eapply has_shape_length, outer_has_shape; [apply scale_shape|]; eassumption. }
  rewrite bind_ok. rewrite Hlen.
  unfold contra_1, contra_2, contra_value, image_logits, text_logits, accuracy, hits.
  rewrite Hlen. reflexivity.
Qed.

Lemma aclip_forward_ok (e : Utils.env) (ps_ssl ps_clip : Utils.peers)
      (self : ACLIPLoss.t) (outputs : ACLIPLoss.inputs) (n d d_ssl d_byol : nat) :
  valid_env e -> valid_inputs outputs n d d_ssl d_byol ->
  valid_ssl_peers e ps_ssl n d_ssl -> valid_clip_peers e ps_clip n d ->
  aclip_cache_valid e self ->
  ACLIPLoss.forward e ps_ssl ps_clip self outputs
  = (aclip_cached e (SIMCLRLoss.tau (ACLIPLoss.simclr_loss self)) n,
     Ok (aclip_record e ps_ssl ps_clip
                      (SIMCLRLoss.tau (ACLIPLoss.simclr_loss self)) outputs)).
Proof.
  intros He Hv [Hs0 Hs1] Hc Hcache.
  pose proof Hv as (Hn & Ht & Hi & Hssl & Hb & Hbe).
  pose proof (has_shape_length _ _ _ Ht) as Hlen.
  unfold ACLIPLoss.forward. rewrite Hlen.
  rewrite (simclr_forward_ok e ps_ssl _ _ _ n d_ssl He Hn
             (firstn_shape _ _ _ Hssl) (skipn_shape _ _ _ Hssl) Hs0 Hs1
             (proj2 Hcache)).
  rewrite (loss_fn_ok _ _ (n + n) d_byol Hb (app_shape _ _ _ _ _ Hbe Hbe)).
  rewrite aclip_update_cache_ok by exact (proj1 Hcache).
  simpl ACLIPLoss.simclr_loss.
  fold (aclip_cached e (SIMCLRLoss.tau (ACLIPLoss.simclr_loss self)) n).
  f_equal.
  rewrite (aclip_losses_ok e ps_clip _ outputs _ _ _ n d d_ssl d_byol He Hv Hc
             (simclr_record_ssl_loss _ _ _ _ _)).
  unfold aclip_record. rewrite Hlen. reflexivity.
Qed.

(** ** The combined loss *)

Lemma aclip_losses_weights (e : Utils.env) (ps : Utils.peers) (self : ACLIPLoss.t)
      (outputs : ACLIPLoss.inputs) (ssl : dict) (byol : R) (out : dict) :
  ACLIPLoss.losses e ps self outputs ssl byol = Ok out ->
  exists c1 c2 s,
    dict_get out "contra_loss_1" = Some c1
    /\ dict_get out "contra_loss_2" = Some c2
    /\ dict_get out "simclr_loss" = Some s
    /\ dict_get out "im_byol_loss" = Some byol
    /\ dict_get out "loss" = Some (0.5 * c1 + 0.5 * c2 + s + 2 * byol).
Proof.
  unfold ACLIPLoss.losses.
  change (Utils.all_gather_batch_with_grad e ps ?l)
    with [Utils.gather_one e (ps 0%nat) (view1 outputs);
          Utils.gather_one e (ps 1%nat) (view2 outputs);
          Utils.gather_one e (ps 2%nat)
            (Torch.normalize (ACLIPLoss.text_embed outputs))].
  cbv iota beta.
  destruct (ACLIPLoss.labels self) as [target|]; [|discriminate].
  repeat match goal with
         | |- bind ?c _ = Ok _ -> _ =>
             destruct c; cbn [bind]; [|discriminate]
         end.
  intros H. inversion H; subst out. do 3 eexists.
  repeat split; reflexivity.
Qed.

(** C2: whenever [ACLIPLoss.forward] returns a record, the value under
    ["loss"] is [0.5 * contra_loss_1 + 0.5 * contra_loss_2 + simclr_loss
    + 2 * im_byol_loss] of the values under those keys, whatever the
    module's state and temperature; and on an input record of fitting
    shapes it does return a record. *)
Theorem aclip_forward_total_loss :
  (forall e ps_ssl ps_clip self outputs self' out,
      ACLIPLoss.forward e ps_ssl ps_clip self outputs = (self', Ok out) ->
      exists c1 c2 s b,
        dict_get out "contra_loss_1" = Some c1
        /\ dict_get out "contra_loss_2" = Some c2
        /\ dict_get out "simclr_loss" = Some s
        /\ dict_get out "im_byol_loss" = Some b
        /\ dict_get out "loss" = Some (0.5 * c1 + 0.5 * c2 + s + 2 * b))
  /\ (forall e ps_ssl ps_clip self outputs n d d_ssl d_byol,
         valid_env e -> valid_inputs outputs n d d_ssl d_byol ->
         valid_ssl_peers e ps_ssl n d_ssl -> valid_clip_peers e ps_clip n d ->
         aclip_cache_valid e self ->
         exists self' out,
           ACLIPLoss.forward e ps_ssl ps_clip self outputs = (self', Ok out)).
Proof.
  split.
  - intros e ps_ssl ps_clip self outputs self' out. unfold ACLIPLoss.forward.
    destruct (SIMCLRLoss.forward _ _ _ _) as [simclr' [ssl|er]]; [|discriminate].
    destruct (ACLIPLoss.loss_fn _ _) as [per_row|er]; [|discriminate].
    intros H. inversion H as [[Hs Ho]].
    destruct (aclip_losses_weights _ _ _ _ _ _ _ Ho) as (c1 & c2 & s & H1).
    exists c1, c2, s, (Torch.mean per_row). exact H1.
  - intros e ps_ssl ps_clip self outputs n d d_ssl d_byol He Hv Hs Hc Hcache.
    do 2 eexists. eapply aclip_forward_ok; eassumption.
Qed.

Lemma single_process_valid : valid_env single_process.
Proof. unfold valid_env; simpl; lia. Qed.

Lemma valid_ssl_peers_single (ps : Utils.peers) (n d : nat) :
  valid_ssl_peers single_process ps n d.
Proof. split; apply valid_peers_single. Qed.

Lemma valid_clip_peers_single (ps : Utils.peers) (n d : nat) :
  valid_clip_peers single_process ps n d.
Proof. split; [|split]; apply valid_peers_single. Qed.

Lemma aclip_init_cache_valid (e : Utils.env) (temperature : R) :
  aclip_cache_valid e (ACLIPLoss.init temperature).
Proof. split; exact I. Qed.

Lemma sample_inputs_valid : valid_inputs sample_inputs 1 2 1 1.
Proof.
  unfold valid_inputs, has_shape, sample_inputs; simpl.
  repeat (split; [first [lia | reflexivity | solve [repeat constructor]]|]).
  repeat constructor.
Qed.

Lemma aclip_forward_total_loss_witness :
  exists self' out c1 c2 s b,
    ACLIPLoss.forward single_process (fun _ _ => []) (fun _ _ => [])
                      (ACLIPLoss.init 0.1) sample_inputs = (self', Ok out)
    /\ dict_get out "contra_loss_1" = Some c1
    /\ dict_get out "contra_loss_2" = Some c2
    /\ dict_get out "simclr_loss" = Some s
    /\ dict_get out "im_byol_loss" = Some b
    /\ dict_get out "loss" = Some (0.5 * c1 + 0.5 * c2 + s + 2 * b).
Proof.
  destruct aclip_forward_total_loss as [Hweights Hreturns].
  destruct (Hreturns single_process (fun _ _ => []) (fun _ _ => [])
                     (ACLIPLoss.init 0.1) sample_inputs 1%nat 2%nat 1%nat 1%nat)
    as (self' & out & Hf).
  - exact single_process_valid.
  - exact sample_inputs_valid.
  - apply valid_ssl_peers_single.
  - apply valid_clip_peers_single.
  - apply aclip_init_cache_valid.
  - destruct (Hweights _ _ _ _ _ _ _ Hf) as (c1 & c2 & s & b & H).
    exists self', out, c1, c2, s, b. split; [exact Hf | exact H].
Defined.

(** ** The consistency loss *)

Lemma mean_rows2_as_big_sum (f : tensor1 -> tensor1 -> R) (a b : tensor2) (m : nat) :
  length a = m -> length b = m ->
  Torch.mean (rows2 f a b) = big_sum m (fun i => f (row a i) (row b i)) / INR m.
Proof.
  intros Ha Hb. unfold Torch.mean, big_sum, row, rows2.
  rewrite length_map, length_combine, Ha, Hb, Nat.min_id.
  rewrite (combine_as_seq a b [] [] m Ha Hb), map_map. reflexivity.
Qed.

Lemma big_sum_ext (n : nat) (f g : nat -> R) :
  (forall i, (i < n)%nat -> f i = g i) -> big_sum n f = big_sum n g.
Proof.
  intros H. unfold big_sum. f_equal. apply map_ext_in.
  intros i Hi. apply in_seq in Hi. apply H. lia.
Qed.

Lemma row_duplicated (m : tensor2) (n i : nat) :
  length m = n ->
  row (m ++ m) i = row m (if (i <? n)%nat then i else (i - n)%nat).
Proof.
  intros Hn. unfold row. destruct (Nat.ltb_spec i n).
  - apply app_nth1. lia.
  - rewrite app_nth2 by lia. rewrite Hn. reflexivity.
Qed.

Lemma aclip_record_byol (e : Utils.env) (ps_ssl ps_clip : Utils.peers) (s : R)
      (outputs : ACLIPLoss.inputs) :
  dict_get (aclip_record e ps_ssl ps_clip s outputs) "im_byol_loss"
  = Some (byol_value (ACLIPLoss.byol_feats outputs) (ACLIPLoss.byol_feats_e outputs)).
Proof. reflexivity. Qed.

(** C7: on an input record of fitting shapes, with [2n] rows in
    [byol_feats] and [n] rows in [byol_feats_e], the value returned under
    ["im_byol_loss"] is the mean over the [2n] rows of [2 - 2 * (x . y)],
    [x] being the normalized row of [byol_feats] and [y] the normalized
    row of [byol_feats_e] at the same position once [byol_feats_e] is
    laid out twice in a row. *)
Theorem aclip_forward_byol_loss (e : Utils.env) (ps_ssl ps_clip : Utils.peers)
        (self : ACLIPLoss.t) (outputs : ACLIPLoss.inputs) (n d d_ssl d_byol : nat) :
  valid_env e -> valid_inputs outputs n d d_ssl d_byol ->
  valid_ssl_peers e ps_ssl n d_ssl -> valid_clip_peers e ps_clip n d ->
  aclip_cache_valid e self ->
  exists self' out,
    ACLIPLoss.forward e ps_ssl ps_clip self outputs = (self', Ok out)
    /\ dict_get out "im_byol_loss"
       = Some (big_sum (n + n)
                 (fun i =>
                    2 - 2 * Torch.dot
                              (Torch.normalize_row (row (ACLIPLoss.byol_feats outputs) i))
                              (Torch.normalize_row
                                 (row (ACLIPLoss.byol_feats_e outputs)
                                      (if (i <? n)%nat then i else (i - n)%nat))))
               / INR (n + n)).
Proof.
  intros He Hv Hs Hc Hcache.
  do 2 eexists. split; [eapply aclip_forward_ok; eassumption|].
  destruct Hv as (_ & _ & _ & _ & Hb & Hbe).
  rewrite aclip_record_byol. unfold byol_value. f_equal.
  rewrite (mean_rows2_as_big_sum _ _ _ (n + n) (has_shape_length _ _ _ Hb))
    by (rewrite length_app, (has_shape_length _ _ _ Hbe); reflexivity).
  f_equal. apply big_sum_ext. intros i Hi.
  rewrite (row_duplicated _ n i (has_shape_length _ _ _ Hbe)). reflexivity.
Qed.

Lemma aclip_forward_byol_loss_witness :
  exists self' out v,
    ACLIPLoss.forward single_process (fun _ _ => []) (fun _ _ => [])
                      (ACLIPLoss.init 0.1) sample_inputs = (self', Ok out)
    /\ dict_get out "im_byol_loss" = Some v.
Proof.
  destruct (aclip_forward_byol_loss single_process (fun _ _ => []) (fun _ _ => [])
              (ACLIPLoss.init 0.1) sample_inputs 1 2 1 1)
    as (self' & out & Hf & Hb).
  - exact single_process_valid.
  - exact sample_inputs_valid.
  - apply valid_ssl_peers_single.
  - apply valid_clip_peers_single.
  - apply aclip_init_cache_valid.
  - exists self', out. eexists. split; [exact Hf | exact Hb].
Defined.

(** ** Accuracy *)

Lemma argmax_from_spec (l pre : tensor1) (best_i : nat) :
  is_first_max pre best_i ->
  is_first_max (pre ++ l)
               (Torch.argmax_from best_i (nth best_i pre 0) (length pre) l).
Proof.
  revert pre best_i. induction l as [|x t IH]; intros pre best_i Hb; simpl.
  - rewrite app_nil_r. exact Hb.
  - destruct Hb as (Hlt & Hmax & Hfirst).
    assert (Hlast : nth (length pre) (pre ++ [x]) 0 = x)
      by (rewrite app_nth2, Nat.sub_diag by lia; reflexivity).
    assert (Hlen : length (pre ++ [x]) = S (length pre))
      by (rewrite length_app; simpl; lia).
    assert (Happ : (pre ++ [x]) ++ t = pre ++ x :: t)
      by (rewrite <- app_assoc; reflexivity).
    destruct (Rlt_dec (nth best_i pre 0) x) as [Hx|Hx].
    + specialize (IH (pre ++ [x]) (length pre)).
      rewrite Hlast, Hlen, Happ in IH. apply IH. split; [|split].
      * lia.
      * intros j Hj. rewrite Hlast.
        destruct (Nat.eq_dec j (length pre)) as [->|Hne].
        -- rewrite Hlast. lra.
        -- rewrite app_nth1 by lia.
           assert (Hjp : (j < length pre)%nat) by lia.
           specialize (Hmax j Hjp). lra.
      * intros j Hj. rewrite Hlast, app_nth1 by lia.
        specialize (Hmax j Hj). lra.
    + specialize (IH (pre ++ [x]) best_i).
      rewrite (app_nth1 pre [x] 0 Hlt), Hlen, Happ in IH. apply IH.
      split; [|split].
      * lia.
      * intros j Hj. rewrite (app_nth1 pre [x] 0 Hlt).
        destruct (Nat.eq_dec j (length pre)) as [->|Hne].
        -- rewrite Hlast. lra.
        -- rewrite app_nth1 by lia. apply Hmax. lia.
      * intros j Hj. rewrite !app_nth1 by lia. apply Hfirst, Hj.
Qed.

Lemma first_argmax_spec (row : tensor1) :
  row <> [] -> is_first_max row (first_argmax row).
Proof.
  destruct row as [|x t]; [congruence|]. intros _. unfold first_argmax.
  apply (argmax_from_spec t [x] 0).
  split; [simpl; lia|]. split.
  - intros j Hj. simpl in Hj. assert (j = 0%nat) by lia. subst. simpl. lra.
  - intros j Hj. lia.
Qed.

Lemma is_first_max_unique (row : tensor1) (k k' : nat) :
  is_first_max row k -> is_first_max row k' -> k = k'.
Proof.
  intros (Hk & Hm & Hf) (Hk' & Hm' & Hf').
  destruct (Nat.lt_trichotomy k k') as [H|[H|H]]; [|exact H|].
  - specialize (Hf' k H). specialize (Hm k' Hk'). lra.
  - specialize (Hf k' H). specialize (Hm' k Hk). lra.
Qed.

Lemma dot_scale_l (s : R) (u v : tensor1) :
  Torch.dot (map (Rmult s) u) v = s * Torch.dot u v.
Proof.
  unfold Torch.dot. revert v. induction u as [|x u IH]; intros [|y v]; simpl;
    try ring.
  rewrite IH. ring.
Qed.

Lemma row_scale (s : R) (m : tensor2) (i : nat) :
  row (Torch.scale s m) i = map (Rmult s) (row m i).
Proof. unfold row, Torch.scale. apply (map_nth (map (Rmult s)) m [] i). Qed.

Lemma filter_map_length {A B : Type} (p : B -> bool) (g : A -> B) (l : list A) :
  length (filter p (map g l)) = length (filter (fun x => p (g x)) l).
Proof.
  induction l as [|x l IH]; simpl; [reflexivity|].
  destruct (p (g x)); simpl; rewrite IH; reflexivity.
Qed.

Lemma hits_as_count (e : Utils.env) (logits : tensor2) (n : nat) :
  length logits = n ->
  hits logits (make_labels e n) = count_correct e n (map first_argmax logits).
Proof.
  intros Hn. unfold hits, count_correct.
  rewrite (combine_as_seq _ _ 0%nat 0%nat n)
    by (rewrite ?length_map; auto using make_labels_length).
  rewrite filter_map_length. f_equal. apply filter_ext_in.
  intros i Hi. apply in_seq in Hi. simpl.
  rewrite make_labels_nth by lia. reflexivity.
Qed.

Lemma normalize_row_unit (v : tensor1) :
  Torch.sum (map (fun x => x * x) v) = 1 ->
  Torch.normalize_row v = map (fun x => x / 1) v.
Proof.
  intros H. unfold Torch.normalize_row, Torch.norm2. rewrite H, sqrt_1.
  unfold Torch.normalize_eps. rewrite Rmax_left by lra. reflexivity.
Qed.

Lemma first_argmax_pair (a b : R) :
  first_argmax [a; b] = if Rlt_dec a b then 1%nat else 0%nat.
Proof. simpl. destruct (Rlt_dec a b); reflexivity. Qed.

Lemma crossed_inputs_valid : valid_inputs crossed_inputs 2 2 1 1.
Proof.
  unfold valid_inputs, has_shape, crossed_inputs; simpl.
  repeat (split; [first [lia | reflexivity | solve [repeat constructor]]|]).
  repeat constructor.
Qed.

Lemma crossed_views :
  view1 crossed_inputs = [[1 / 1; 0 / 1]; [0 / 1; 1 / 1]]
  /\ view2 crossed_inputs = [[0 / 1; 1 / 1]; [1 / 1; 0 / 1]]
  /\ Torch.normalize (ACLIPLoss.text_embed crossed_inputs)
     = [[1 / 1; 0 / 1]; [0 / 1; 1 / 1]].
Proof.
  assert (H10 : Torch.normalize_row [1; 0] = [1 / 1; 0 / 1])
    by (rewrite normalize_row_unit; [reflexivity | simpl; lra]).
  assert (H01 : Torch.normalize_row [0; 1] = [0 / 1; 1 / 1])
    by (rewrite normalize_row_unit; [reflexivity | simpl; lra]).
  unfold view1, view2, crossed_inputs, Torch.normalize.
  cbn [ACLIPLoss.text_embed ACLIPLoss.image_embed length map firstn skipn].
  rewrite H10, H01. repeat split; reflexivity.
Qed.

Lemma crossed_accuracies :
  accuracy (image_logits single_process (fun _ _ => []) crossed_inputs
                         (view2 crossed_inputs))
           (make_labels single_process 2) 2 = 0
  /\ accuracy (image_logits single_process (fun _ _ => []) crossed_inputs
                            (view1 crossed_inputs))
              (make_labels single_process 2) 2 = 100.
Proof.
  destruct crossed_views as (H1 & H2 & Ht).
  unfold accuracy, hits, image_logits. rewrite gather_one_single, H1, H2, Ht.
  rewrite make_labels_single.
  unfold outer, Torch.scale, crossed_inputs.
  cbn [ACLIPLoss.logit_scale map seq combine].
  rewrite !first_argmax_pair. unfold Torch.dot.
  cbn [map combine fst snd Torch.sum fold_right].
  repeat match goal with
         | |- context [Rlt_dec ?a ?b] => destruct (Rlt_dec a b); try lra
         end.
  cbn [filter fst snd Nat.eqb length INR]. split; lra.
Qed.

Lemma aclip_record_clip_acc (e : Utils.env) (ps_ssl ps_clip : Utils.peers) (s : R)
      (outputs : ACLIPLoss.inputs) :
  dict_get (aclip_record e ps_ssl ps_clip s outputs) "clip_acc"
  = Some (accuracy (image_logits e ps_clip outputs (view2 outputs))
                   (make_labels e (length (ACLIPLoss.text_embed outputs)))
                   (length (ACLIPLoss.text_embed outputs))).
Proof. reflexivity. Qed.

Lemma row_image_logits (e : Utils.env) (ps : Utils.peers)
      (outputs : ACLIPLoss.inputs) (view : tensor2) (i t : nat) :
  (i < length view)%nat ->
  length (Utils.gather_one e (ps 2%nat)
            (Torch.normalize (ACLIPLoss.text_embed outputs))) = t ->
  row (image_logits e ps outputs view) i
  = map (fun j =>
           ACLIPLoss.logit_scale outputs
           * Torch.dot (row view i)
                       (row (Utils.gather_one e (ps 2%nat)
                               (Torch.normalize (ACLIPLoss.text_embed outputs))) j))
        (seq 0 t).
Proof.
  intros Hi Ht. unfold image_logits.
  rewrite row_outer by (unfold Torch.scale; rewrite length_map; exact Hi).
  rewrite row_scale.
  etransitivity; [apply (map_as_seq _ _ ([] : tensor1))|].
  rewrite Ht. apply map_ext. intros j. apply dot_scale_l.
Qed.

(** C8: on an input record of fitting shapes, the value returned under
    ["clip_acc"] is 100 times the fraction of the [n] local samples whose
    first maximal entry, in the row of
    [logit_scale * image_embed_2 @ text_embed_all^T] (the second image
    view against the gathered texts), stands at the sample's label.  It is
    not the accuracy of the first view: on [crossed_inputs] the call
    returns 0 while view 1 scores 100. *)
Theorem aclip_forward_clip_acc :
  (forall e ps_ssl ps_clip self outputs n d d_ssl d_byol,
      valid_env e -> valid_inputs outputs n d d_ssl d_byol ->
      valid_ssl_peers e ps_ssl n d_ssl -> valid_clip_peers e ps_clip n d ->
      aclip_cache_valid e self ->
      let image_embed_2 :=
        skipn n (Torch.normalize (ACLIPLoss.image_embed outputs)) in
      let text_embed_all :=
        Utils.gather_one e (ps_clip 2%nat)
                         (Torch.normalize (ACLIPLoss.text_embed outputs)) in
      let t := (n * Utils.get_world_size e)%nat in
      exists self' out pred,
        ACLIPLoss.forward e ps_ssl ps_clip self outputs = (self', Ok out)
        /\ length pred = n
        /\ (forall i, (i < n)%nat ->
                      is_first_max
                        (map (fun j => ACLIPLoss.logit_scale outputs
                                       * Torch.dot (row image_embed_2 i)
                                                   (row text_embed_all j))
                             (seq 0 t))
                        (nth i pred 0%nat))
        /\ dict_get out "clip_acc"
           = Some (100 * INR (count_correct e n pred) / INR n))
  /\ (exists self' out,
         ACLIPLoss.forward single_process (fun _ _ => []) (fun _ _ => [])
                           (ACLIPLoss.init 0.1) crossed_inputs = (self', Ok out)
         /\ dict_get out "clip_acc" = Some 0
         /\ accuracy (image_logits single_process (fun _ _ => []) crossed_inputs
                                   (view1 crossed_inputs))
                     (make_labels single_process 2) 2 = 100).
Proof.
  split.
  - intros e ps_ssl ps_clip self outputs n d d_ssl d_byol He Hv Hs Hc Hcache
           image_embed_2 text_embed_all t.
    pose proof Hv as (Hn & Ht & Hi & _).
    pose proof (has_shape_length _ _ _ Ht) as Hlen.
    assert (Hv2 : has_shape (view2 outputs) n d).
    { unfold view2. rewrite Hlen. apply skipn_shape, normalize_shape, Hi. }
    assert (Hta : has_shape text_embed_all t d).
    { apply gather_one_shape; [apply normalize_shape, Ht | apply Hc]. }
    assert (Hl : has_shape (image_logits e ps_clip outputs (view2 outputs)) n t).
    { unfold image_logits. eapply outer_has_shape; [apply scale_shape|]; eassumption. }
    exists (aclip_cached e (SIMCLRLoss.tau (ACLIPLoss.simclr_loss self)) n),
      (aclip_record e ps_ssl ps_clip (SIMCLRLoss.tau (ACLIPLoss.simclr_loss self))
                    outputs),
      (map first_argmax (image_logits e ps_clip outputs (view2 outputs))).
    split; [eapply aclip_forward_ok; eassumption|].
    split; [rewrite length_map; apply (has_shape_length _ _ _ Hl)|].
    split.
    + intros i Hi'.
      rewrite (nth_indep _ 0%nat (first_argmax []))
        by (rewrite length_map, (has_shape_length _ _ _ Hl); exact Hi').
      rewrite (map_nth first_argmax). fold (row (image_logits e ps_clip outputs (view2 outputs)) i).
      assert (Hrow : row (image_logits e ps_clip outputs (view2 outputs)) i
                     = map (fun j => ACLIPLoss.logit_scale outputs
                                     * Torch.dot (row image_embed_2 i)
                                                 (row text_embed_all j))
                           (seq 0 t)).
      { rewrite (row_image_logits e ps_clip outputs _ i t).
        - unfold view2. rewrite Hlen. reflexivity.
        - rewrite (has_shape_length _ _ _ Hv2). exact Hi'.
        - apply (has_shape_length _ _ _ Hta). }
      rewrite <- Hrow. apply first_argmax_spec.
      rewrite Hrow. intros Hnil. apply (f_equal (@length R)) in Hnil.
      rewrite length_map, length_seq in Hnil. simpl in Hnil.
      unfold t, valid_env in *. nia.
    + rewrite aclip_record_clip_acc, Hlen. unfold accuracy.
      rewrite (hits_as_count e _ n (has_shape_length _ _ _ Hl)). reflexivity.
  - destruct crossed_accuracies as [H2 H1].
    do 2 eexists. split; [|split; [|exact H1]].
    + apply (aclip_forward_ok single_process _ _ _ crossed_inputs 2 2 1 1).
      * exact single_process_valid.
      * exact crossed_inputs_valid.
      * apply valid_ssl_peers_single.
      * apply valid_clip_peers_single.
      * apply aclip_init_cache_valid.
    + rewrite aclip_record_clip_acc. f_equal. exact H2.
Qed.

Lemma aclip_forward_clip_acc_witness :
  exists self' out acc,
    ACLIPLoss.forward single_process (fun _ _ => []) (fun _ _ => [])
                      (ACLIPLoss.init 0.1) sample_inputs = (self', Ok out)
    /\ dict_get out "clip_acc" = Some acc.
Proof.
  destruct aclip_forward_clip_acc as [Hacc _].
  destruct (Hacc single_process (fun _ _ => []) (fun _ _ => [])
                 (ACLIPLoss.init 0.1) sample_inputs 1%nat 2%nat 1%nat 1%nat)
    as (self' & out & pred & Hf & _ & _ & Ha).
  - exact single_process_valid.
  - exact sample_inputs_valid.
  - apply valid_ssl_peers_single.
  - apply valid_clip_peers_single.
  - apply aclip_init_cache_valid.
  - exists self', out. eexists. split; [exact Hf | exact Ha].
Defined.

(** ** The cached labels *)

Lemma simclr_forward_unfold (e : Utils.env) (ps : Utils.peers)
      (self : SIMCLRLoss.t) (outputs : SIMCLRLoss.inputs) :
  SIMCLRLoss.forward e ps self outputs
  = let q_a := Torch.normalize (SIMCLRLoss.aug1_embed outputs) in
    let q_b := Torch.normalize (SIMCLRLoss.aug2_embed outputs) in
    let n := length (SIMCLRLoss.aug1_embed outputs) in
    match SIMCLRLoss.update_cache e self n with
    | (self', Err er) => (self', Err er)
    | (self', Ok _) =>
        (self', SIMCLRLoss.losses self' n q_a q_b
                  (Utils.gather_one e (ps 0%nat) q_a)
                  (Utils.gather_one e (ps 1%nat) q_b))
    end.
Proof.
  unfold SIMCLRLoss.forward. cbv zeta. rewrite normalize_length. reflexivity.
Qed.

Lemma simclr_forward_state (e : Utils.env) (ps : Utils.peers)
      (self : SIMCLRLoss.t) (outputs : SIMCLRLoss.inputs) :
  fst (SIMCLRLoss.forward e ps self outputs)
  = fst (SIMCLRLoss.update_cache e self (length (SIMCLRLoss.aug1_embed outputs))).
Proof.
  rewrite simclr_forward_unfold. cbv zeta.
  destruct (SIMCLRLoss.update_cache _ _ _) as [self' [u|er]]; reflexivity.
Qed.

Lemma simclr_update_cache_cases (e : Utils.env) (self : SIMCLRLoss.t) (n : nat) :
  (SIMCLRLoss.last_local_batch_size self = Some n
   /\ SIMCLRLoss.update_cache e self n = (self, Ok tt))
  \/ (SIMCLRLoss.last_local_batch_size self <> Some n
      /\ SIMCLRLoss.update_cache e self n
         = (simclr_cached e (SIMCLRLoss.tau self) n, Ok tt))
  \/ (SIMCLRLoss.last_local_batch_size self <> Some n
      /\ exists er,
          SIMCLRLoss.update_cache e self n
          = (SIMCLRLoss.mk (SIMCLRLoss.tau self) (Some (make_labels e n))
                           (SIMCLRLoss.masks self)
                           (SIMCLRLoss.last_local_batch_size self), Err er)).
Proof.
  unfold SIMCLRLoss.update_cache.
  destruct (size_changed n (SIMCLRLoss.last_local_batch_size self)) eqn:E.
  - assert (Hne : SIMCLRLoss.last_local_batch_size self <> Some n).
    { intros H. rewrite H, size_changed_same in E. discriminate. }
    destruct (Torch.one_hot _ _) as [oh|er] eqn:Eo.
    + right; left. split; [exact Hne|]. unfold simclr_cached. do 3 f_equal.
      rewrite (one_hot_inv _ _ _ Eo). apply scaled_one_hot_is_mask.
    + right; right. split; [exact Hne|]. exists er. reflexivity.
  - left. split; [apply size_changed_false, E | reflexivity].
Qed.

Lemma simclr_labels_form (e : Utils.env) (self : SIMCLRLoss.t) :
  simclr_reachable e self ->
  forall l, SIMCLRLoss.labels self = Some l -> exists m, l = make_labels e m.
Proof.
  induction 1 as [temperature | self ps outputs _ IH]; intros l Hl.
  - discriminate.
  - rewrite simclr_forward_state in Hl.
    destruct (simclr_update_cache_cases e self
                (length (SIMCLRLoss.aug1_embed outputs)))
      as [[_ Hu] | [[_ Hu] | [_ [er Hu]]]];
      rewrite Hu in Hl; simpl in Hl.
    + apply IH, Hl.
    + inversion Hl. eexists; reflexivity.
    + inversion Hl. eexists; reflexivity.
Qed.

Lemma matmul_t_length (a b m : list (list R)) :
  Torch.matmul_t a b = Ok m -> length m = length a.
Proof. apply mapM_length. Qed.

Lemma cat1_length (a b c : list (list R)) :
  Torch.cat1 a b = Ok c -> length c = length a.
Proof.
  unfold Torch.cat1. destruct (Nat.eqb_spec (length a) (length b)); [|discriminate].
  intros H; inversion H. rewrite length_map, length_combine. lia.
Qed.

Lemma cross_entropy_length (logits : list (list R)) (target : list nat) (v : R) :
  Torch.cross_entropy logits target = Ok v -> length target = length logits.
Proof.
  unfold Torch.cross_entropy.
  destruct (Nat.eqb_spec (length logits) (length target)); [|discriminate].
  intros _. congruence.
Qed.









(** ** The cache across calls *)

Lemma option_eq_dec_nat (a b : option nat) : {a = b} + {a <> b}.
Proof. decide equality. apply Nat.eq_dec. Qed.

Lemma simclr_cached_valid (e : Utils.env) (s : R) (n : nat) :
  simclr_cache_valid e (simclr_cached e s n).
Proof. split; reflexivity. Qed.

Lemma aclip_cached_valid (e : Utils.env) (s : R) (n : nat) :
  aclip_cache_valid e (aclip_cached e s n).
Proof. split; [reflexivity | apply simclr_cached_valid]. Qed.

Lemma simclr_valid_call_ok (e : Utils.env) (ps : Utils.peers) (self : SIMCLRLoss.t)
      (outputs : SIMCLRLoss.inputs) (n d : nat) :
  valid_env e -> (0 < n)%nat -> simclr_valid_call e ps outputs n d ->
  simclr_cache_valid e self ->
  exists out,
    SIMCLRLoss.forward e ps self outputs
    = (simclr_cached e (SIMCLRLoss.tau self) n, Ok out).
Proof.
  intros He Hn (H1 & H2 & Hp0 & Hp1) Hc. destruct outputs as [aug1 aug2].
  eexists. apply (simclr_forward_ok e ps self aug1 aug2 n d); assumption.
Qed.

Lemma aclip_valid_call_ok (e : Utils.env) (ps_ssl ps_clip : Utils.peers)
      (self : ACLIPLoss.t) (outputs : ACLIPLoss.inputs) (n : nat) :
  valid_env e -> aclip_valid_call e ps_ssl ps_clip outputs n ->
  aclip_cache_valid e self ->
  exists out,
    ACLIPLoss.forward e ps_ssl ps_clip self outputs
    = (aclip_cached e (SIMCLRLoss.tau (ACLIPLoss.simclr_loss self)) n, Ok out).
Proof.
  intros He (d & d_ssl & d_byol & Hv & Hs & Hc) Hcache.
  eexists. eapply aclip_forward_ok; eassumption.
Qed.

Lemma simclr_reuse (e : Utils.env) (ps : Utils.peers) (self : SIMCLRLoss.t)
      (outputs : SIMCLRLoss.inputs) :
  SIMCLRLoss.last_local_batch_size self
  = Some (length (SIMCLRLoss.aug1_embed outputs)) ->
  SIMCLRLoss.forward e ps self outputs
  = (self,
     SIMCLRLoss.losses self (length (SIMCLRLoss.aug1_embed outputs))
       (Torch.normalize (SIMCLRLoss.aug1_embed outputs))
       (Torch.normalize (SIMCLRLoss.aug2_embed outputs))
       (Utils.gather_one e (ps 0%nat)
                         (Torch.normalize (SIMCLRLoss.aug1_embed outputs)))
       (Utils.gather_one e (ps 1%nat)
                         (Torch.normalize (SIMCLRLoss.aug2_embed outputs)))).
Proof.
  intros Hlast. rewrite simclr_forward_unfold. cbv zeta.
  unfold SIMCLRLoss.update_cache. rewrite Hlast, size_changed_same. reflexivity.
Qed.

Lemma simclr_refresh (e : Utils.env) (ps : Utils.peers) (self self' : SIMCLRLoss.t)
      (outputs : SIMCLRLoss.inputs) (out : dict) :
  SIMCLRLoss.last_local_batch_size self
  <> Some (length (SIMCLRLoss.aug1_embed outputs)) ->
  SIMCLRLoss.forward e ps self outputs = (self', Ok out) ->
  self' = simclr_cached e (SIMCLRLoss.tau self)
                        (length (SIMCLRLoss.aug1_embed outputs)).
Proof.
  intros Hne Hf. rewrite simclr_forward_unfold in Hf. cbv zeta in Hf.
  destruct (simclr_update_cache_cases e self
              (length (SIMCLRLoss.aug1_embed outputs)))
    as [[Hl _] | [[_ Hu] | [_ [er Hu]]]].
  - contradiction.
  - rewrite Hu in Hf. inversion Hf. reflexivity.
  - rewrite Hu in Hf. discriminate.
Qed.

Lemma simclr_records_size (e : Utils.env) (ps : Utils.peers)
      (self self' : SIMCLRLoss.t) (outputs : SIMCLRLoss.inputs) (out : dict) :
  SIMCLRLoss.forward e ps self outputs = (self', Ok out) ->
  SIMCLRLoss.last_local_batch_size self'
  = Some (length (SIMCLRLoss.aug1_embed outputs)).
Proof.
  intros Hf.
  destruct (option_eq_dec_nat (SIMCLRLoss.last_local_batch_size self)
              (Some (length (SIMCLRLoss.aug1_embed outputs)))) as [Heq|Hne].
  - rewrite (simclr_reuse e ps self outputs Heq) in Hf. inversion Hf; subst.
    exact Heq.
  - rewrite (simclr_refresh e ps self self' outputs out Hne Hf). reflexivity.
Qed.

Lemma aclip_reuse (e : Utils.env) (ps_ssl ps_clip : Utils.peers)
      (self : ACLIPLoss.t) (outputs : ACLIPLoss.inputs) :
  ACLIPLoss.last_local_batch_size self
  = Some (length (ACLIPLoss.text_embed outputs)) ->
  let self' := fst (ACLIPLoss.forward e ps_ssl ps_clip self outputs) in
  ACLIPLoss.labels self' = ACLIPLoss.labels self
  /\ ACLIPLoss.last_local_batch_size self' = ACLIPLoss.last_local_batch_size self.
Proof.
  intros Hlast. unfold ACLIPLoss.forward.
  destruct (SIMCLRLoss.forward _ _ _ _) as [simclr' [ssl|er]];
    [|split; reflexivity].
  destruct (ACLIPLoss.loss_fn _ _) as [per_row|er]; [|split; reflexivity].
  cbv zeta. cbn [fst]. unfold ACLIPLoss.update_cache.
  cbn [ACLIPLoss.last_local_batch_size ACLIPLoss.labels ACLIPLoss.simclr_loss].
  rewrite Hlast, size_changed_same. split; reflexivity.
Qed.

Lemma aclip_refresh (e : Utils.env) (ps_ssl ps_clip : Utils.peers)
      (self self' : ACLIPLoss.t) (outputs : ACLIPLoss.inputs) (out : dict) :
  ACLIPLoss.forward e ps_ssl ps_clip self outputs = (self', Ok out) ->
  ACLIPLoss.last_local_batch_size self'
  = Some (length (ACLIPLoss.text_embed outputs))
  /\ (ACLIPLoss.last_local_batch_size self
      <> Some (length (ACLIPLoss.text_embed outputs)) ->
      ACLIPLoss.labels self'
      = Some (make_labels e (length (ACLIPLoss.text_embed outputs)))).
Proof.
  unfold ACLIPLoss.forward.
  destruct (SIMCLRLoss.forward _ _ _ _) as [simclr' [ssl|er]]; [|discriminate].
  destruct (ACLIPLoss.loss_fn _ _) as [per_row|er]; [|discriminate].
  cbv zeta. intros Hf. inversion Hf as [[Hs Ho]]. clear Hf Ho Hs.
  unfold ACLIPLoss.update_cache.
  cbn [ACLIPLoss.last_local_batch_size ACLIPLoss.labels ACLIPLoss.simclr_loss].
  destruct (size_changed _ _) eqn:E.
  - split; [reflexivity | intros _; reflexivity].
  - apply size_changed_false in E.
    cbn [ACLIPLoss.last_local_batch_size]. split; [exact E | contradiction].
Qed.

(** C4 (as amended): in both modules the labels (and, in the SimCLR
    module, the mask) are recomputed exactly when the batch size of the
    call differs from the one the module has recorded, and every
    returning call records its own batch size.  So of two consecutive
    calls of which the first returns, the second one keeps the labels and
    the mask of the first when the batch sizes are equal (the SimCLR
    module is left in the very same state), and, when it returns, holds
    the labels and the mask of its own batch size when they differ.  A call of the recorded size computes from the cached
    labels and mask, whatever they hold.  Starting from a fresh module,
    two calls with batch size 4 and one with batch size 8 end with a
    label vector of length 8. *)
Theorem cache_follows_batch_size :
  (forall e ps self outputs,
      SIMCLRLoss.last_local_batch_size self
      = Some (length (SIMCLRLoss.aug1_embed outputs)) ->
      SIMCLRLoss.forward e ps self outputs
      = (self,
         SIMCLRLoss.losses self (length (SIMCLRLoss.aug1_embed outputs))
           (Torch.normalize (SIMCLRLoss.aug1_embed outputs))
           (Torch.normalize (SIMCLRLoss.aug2_embed outputs))
           (Utils.gather_one e (ps 0%nat)
                             (Torch.normalize (SIMCLRLoss.aug1_embed outputs)))
           (Utils.gather_one e (ps 1%nat)
                             (Torch.normalize (SIMCLRLoss.aug2_embed outputs)))))
  /\ (forall e ps self outputs self' out,
         SIMCLRLoss.forward e ps self outputs = (self', Ok out) ->
         let n := length (SIMCLRLoss.aug1_embed outputs) in
         SIMCLRLoss.last_local_batch_size self' = Some n
         /\ (SIMCLRLoss.last_local_batch_size self <> Some n ->
             SIMCLRLoss.labels self' = Some (make_labels e n)
             /\ SIMCLRLoss.masks self' = Some (make_masks e n)))
  /\ (forall e ps_ssl ps_clip self outputs,
         ACLIPLoss.last_local_batch_size self
         = Some (length (ACLIPLoss.text_embed outputs)) ->
         let self' := fst (ACLIPLoss.forward e ps_ssl ps_clip self outputs) in
         ACLIPLoss.labels self' = ACLIPLoss.labels self
         /\ ACLIPLoss.last_local_batch_size self'
            = ACLIPLoss.last_local_batch_size self)
  /\ (forall e ps_ssl ps_clip self outputs self' out,
         ACLIPLoss.forward e ps_ssl ps_clip self outputs = (self', Ok out) ->
         let n := length (ACLIPLoss.text_embed outputs) in
         ACLIPLoss.last_local_batch_size self' = Some n
         /\ (ACLIPLoss.last_local_batch_size self <> Some n ->
             ACLIPLoss.labels self' = Some (make_labels e n)))
  /\ (forall e ps1 ps2 self o1 o2 s1 r1 s2 r2,
         SIMCLRLoss.forward e ps1 self o1 = (s1, Ok r1) ->
         SIMCLRLoss.forward e ps2 s1 o2 = (s2, r2) ->
         let n1 := length (SIMCLRLoss.aug1_embed o1) in
         let n2 := length (SIMCLRLoss.aug1_embed o2) in
         (n2 = n1 -> s2 = s1)
         /\ (n2 <> n1 -> forall out, r2 = Ok out ->
                          SIMCLRLoss.labels s2 = Some (make_labels e n2)
                          /\ SIMCLRLoss.masks s2 = Some (make_masks e n2)))
  /\ (forall e pa1 pb1 pa2 pb2 self o1 o2 s1 r1 s2 r2,
         ACLIPLoss.forward e pa1 pb1 self o1 = (s1, Ok r1) ->
         ACLIPLoss.forward e pa2 pb2 s1 o2 = (s2, r2) ->
         let n1 := length (ACLIPLoss.text_embed o1) in
         let n2 := length (ACLIPLoss.text_embed o2) in
         (n2 = n1 -> ACLIPLoss.labels s2 = ACLIPLoss.labels s1)
         /\ (n2 <> n1 -> forall out, r2 = Ok out ->
                          ACLIPLoss.labels s2 = Some (make_labels e n2)))
  /\ (forall e temperature ps1 ps2 ps3 o1 o2 o3 d1 d2 d3,
         valid_env e ->
         simclr_valid_call e ps1 o1 4 d1 -> simclr_valid_call e ps2 o2 4 d2 ->
         simclr_valid_call e ps3 o3 8 d3 ->
         exists s1 r1 s2 r2 s3 r3 l,
           SIMCLRLoss.forward e ps1 (SIMCLRLoss.init temperature) o1 = (s1, Ok r1)
           /\ SIMCLRLoss.forward e ps2 s1 o2 = (s2, Ok r2)
           /\ SIMCLRLoss.forward e ps3 s2 o3 = (s3, Ok r3)
           /\ s2 = s1
           /\ SIMCLRLoss.labels s3 = Some l /\ length l = 8%nat
           /\ l = make_labels e 8
           /\ SIMCLRLoss.masks s3 = Some (make_masks e 8))
  /\ (forall e temperature pa1 pb1 pa2 pb2 pa3 pb3 o1 o2 o3,
         valid_env e ->
         aclip_valid_call e pa1 pb1 o1 4 -> aclip_valid_call e pa2 pb2 o2 4 ->
         aclip_valid_call e pa3 pb3 o3 8 ->
         exists s1 r1 s2 r2 s3 r3 l,
           ACLIPLoss.forward e pa1 pb1 (ACLIPLoss.init temperature) o1 = (s1, Ok r1)
           /\ ACLIPLoss.forward e pa2 pb2 s1 o2 = (s2, Ok r2)
           /\ ACLIPLoss.forward e pa3 pb3 s2 o3 = (s3, Ok r3)
           /\ s2 = s1
           /\ ACLIPLoss.labels s3 = Some l /\ length l = 8%nat
           /\ l = make_labels e 8).
Proof.
  split; [|split; [|split; [|split; [|split; [|split; [|split]]]]]].
  - intros e ps self outputs Hlast. apply simclr_reuse, Hlast.
  - intros e ps self outputs self' out Hf n. split.
    + apply (simclr_records_size e ps self self' outputs out Hf).
    + intros Hne. rewrite (simclr_refresh e ps self self' outputs out Hne Hf).
      split; reflexivity.
  - intros e ps_ssl ps_clip self outputs Hlast. apply aclip_reuse, Hlast.
  - intros e ps_ssl ps_clip self outputs self' out Hf n.
    apply (aclip_refresh e ps_ssl ps_clip self self' outputs out Hf).
  - intros e ps1 ps2 self o1 o2 s1 r1 s2 r2 H1 H2 n1 n2.
    pose proof (simclr_records_size e ps1 self s1 o1 r1 H1) as Hlast. split.
    + intros Heq. fold n1 in Hlast. rewrite <- Heq in Hlast.
      rewrite (simclr_reuse e ps2 s1 o2 Hlast) in H2. inversion H2. reflexivity.
    + intros Hne out ->.
      assert (Hd : SIMCLRLoss.last_local_batch_size s1 <> Some n2)
        by (rewrite Hlast; intros H; inversion H; apply Hne; symmetry; assumption).
      rewrite (simclr_refresh e ps2 s1 s2 o2 out Hd H2). split; reflexivity.
  - intros e pa1 pb1 pa2 pb2 self o1 o2 s1 r1 s2 r2 H1 H2 n1 n2.
    destruct (aclip_refresh e pa1 pb1 self s1 o1 r1 H1) as [Hlast _]. split.
    + intros Heq. fold n1 in Hlast. rewrite <- Heq in Hlast.
      destruct (aclip_reuse e pa2 pb2 s1 o2 Hlast) as [Hl _].
      rewrite H2 in Hl. exact Hl.
    + intros Hne out ->.
      apply (aclip_refresh e pa2 pb2 s1 s2 o2 out H2).
      rewrite Hlast. intros H; inversion H. apply Hne. symmetry. assumption.
  - intros e temperature ps1 ps2 ps3 o1 o2 o3 d1 d2 d3 He H1 H2 H3.
    destruct (simclr_valid_call_ok e ps1 (SIMCLRLoss.init temperature) o1 4 d1)
      as [r1 E1]; [assumption | lia | assumption | exact I |].
    destruct (simclr_valid_call_ok e ps2 (simclr_cached e temperature 4) o2 4 d2)
      as [r2 E2]; [assumption | lia | assumption | apply simclr_cached_valid |].
    destruct (simclr_valid_call_ok e ps3 (simclr_cached e temperature 4) o3 8 d3)
      as [r3 E3]; [assumption | lia | assumption | apply simclr_cached_valid |].
    cbn [SIMCLRLoss.tau SIMCLRLoss.init simclr_cached] in E1, E2, E3.
    exists (simclr_cached e temperature 4), r1, (simclr_cached e temperature 4), r2,
      (simclr_cached e temperature 8), r3, (make_labels e 8).
    repeat (split; [first [assumption | reflexivity | apply make_labels_length]|]).
    reflexivity.
  - intros e temperature pa1 pb1 pa2 pb2 pa3 pb3 o1 o2 o3 He H1 H2 H3.
    destruct (aclip_valid_call_ok e pa1 pb1 (ACLIPLoss.init temperature) o1 4)
      as [r1 E1]; [assumption | assumption | apply aclip_init_cache_valid |].
    destruct (aclip_valid_call_ok e pa2 pb2 (aclip_cached e temperature 4) o2 4)
      as [r2 E2]; [assumption | assumption | apply aclip_cached_valid |].
    destruct (aclip_valid_call_ok e pa3 pb3 (aclip_cached e temperature 4) o3 8)
      as [r3 E3]; [assumption | assumption | apply aclip_cached_valid |].
    cbn [SIMCLRLoss.tau SIMCLRLoss.init simclr_cached aclip_cached
         ACLIPLoss.simclr_loss ACLIPLoss.init] in E1, E2, E3.
    exists (aclip_cached e temperature 4), r1, (aclip_cached e temperature 4), r2,
      (aclip_cached e temperature 8), r3, (make_labels e 8).
    repeat (split; [first [assumption | reflexivity | apply make_labels_length]|]).
    reflexivity.
Qed.

Lemma batch_of_4_valid (ps : Utils.peers) :
  simclr_valid_call single_process ps batch_of_4 4 1.
Proof.
  unfold simclr_valid_call, batch_of_4; simpl.
  split; [concrete_shape|].
  split; [concrete_shape|].
  split; apply valid_peers_single.
Qed.

Lemma batch_of_8_valid (ps : Utils.peers) :
  simclr_valid_call single_process ps batch_of_8 8 1.
Proof.
  unfold simclr_valid_call, batch_of_8; simpl.
  split; [concrete_shape|].
  split; [concrete_shape|].
  split; apply valid_peers_single.
Qed.

Lemma cache_follows_batch_size_witness :
  exists s1 r1 s2 r2 s3 r3,
    SIMCLRLoss.forward single_process (fun _ _ => []) (SIMCLRLoss.init 0.1)
                       batch_of_4 = (s1, Ok r1)
    /\ SIMCLRLoss.forward single_process (fun _ _ => []) s1 batch_of_4 = (s2, Ok r2)
    /\ SIMCLRLoss.forward single_process (fun _ _ => []) s2 batch_of_8 = (s3, Ok r3)
    /\ SIMCLRLoss.labels s1 = Some (seq 0 4)
    /\ SIMCLRLoss.labels s2 = Some (seq 0 4)
    /\ SIMCLRLoss.labels s3 = Some (seq 0 8).
Proof.
  destruct cache_follows_batch_size as (Hreuse & Hrefresh & _ & _ & _ & _ & Hscenario & _).
  destruct (Hscenario single_process 0.1 (fun _ _ => []) (fun _ _ => [])
                      (fun _ _ => []) batch_of_4 batch_of_4 batch_of_8
                      1%nat 1%nat 1%nat)
    as (s1 & r1 & s2 & r2 & s3 & r3 & l & E1 & E2 & E3 & Hs & Hl & _ & Hl8 & _).
  - exact single_process_valid.
  - apply batch_of_4_valid.
  - apply batch_of_4_valid.
  - apply batch_of_8_valid.
  - exists s1, r1, s2, r2, s3, r3.
    split; [exact E1|]. split; [exact E2|]. split; [exact E3|].
    assert (H1 : SIMCLRLoss.labels s1 = Some (seq 0 4)).
    { destruct (Hrefresh _ _ _ _ _ _ E1) as [_ Hfresh].
      destruct Hfresh as [Hlab _]; [discriminate|].
      rewrite Hlab, make_labels_single. reflexivity. }
    split; [exact H1|]. split; [rewrite Hs; exact H1|].
    rewrite Hl, Hl8, make_labels_single. reflexivity.
Defined.

Lemma odd_byol_inputs_run :
  ACLIPLoss.forward single_process (fun _ _ => []) (fun _ _ => [])
                    (aclip_cached single_process 0.1 1) odd_byol_inputs
  = (ACLIPLoss.mk (Some (make_labels single_process 1)) (Some 1%nat)
                  (simclr_cached single_process 0.1 2),
     Err TorchError).
Proof.
  assert (Hinner :
            SIMCLRLoss.forward single_process (fun _ _ => [])
                               (simclr_cached single_process 0.1 1)
                               (SIMCLRLoss.mk_inputs [[1]; [1]] [[1]; [1]])
            = (simclr_cached single_process 0.1 2,
               Ok (simclr_record single_process (fun _ _ => []) 0.1
                                 [[1]; [1]] [[1]; [1]]))).
  { apply (simclr_forward_ok single_process (fun _ _ => [])
             (simclr_cached single_process 0.1 1) [[1]; [1]] [[1]; [1]] 2 1).
    - exact single_process_valid.
    - lia.
    - concrete_shape.
    - concrete_shape.
    - apply valid_peers_single.
    - apply valid_peers_single.
    - apply simclr_cached_valid. }
  unfold ACLIPLoss.forward, odd_byol_inputs, aclip_cached.
  cbn [ACLIPLoss.text_embed ACLIPLoss.image_ssl_embed ACLIPLoss.simclr_loss
       ACLIPLoss.byol_feats ACLIPLoss.byol_feats_e ACLIPLoss.labels
       ACLIPLoss.last_local_batch_size length firstn skipn].
  rewrite Hinner. reflexivity.
Qed.

(** C4 (as stated) fails after a call that raises before its cache block.
    On the combined module, a call with one sample returns; a call with
    two samples raises in [loss_fn], ahead of the cache block, and leaves
    the labels of size 1 in place; the next call, again with two samples,
    returns and recomputes the labels, although its batch size is the
    batch size of the call before it. *)
Lemma cache_recomputed_at_unchanged_batch_size :
  exists s1 r1 s2 s3 r3,
    ACLIPLoss.forward single_process (fun _ _ => []) (fun _ _ => [])
                      (ACLIPLoss.init 0.1) sample_inputs = (s1, Ok r1)
    /\ ACLIPLoss.forward single_process (fun _ _ => []) (fun _ _ => [])
                         s1 odd_byol_inputs = (s2, Err TorchError)
    /\ ACLIPLoss.forward single_process (fun _ _ => []) (fun _ _ => [])
                         s2 crossed_inputs = (s3, Ok r3)
    /\ length (ACLIPLoss.text_embed sample_inputs) = 1%nat
    /\ length (ACLIPLoss.text_embed odd_byol_inputs) = 2%nat
    /\ length (ACLIPLoss.text_embed crossed_inputs) = 2%nat
    /\ ACLIPLoss.labels s1 = Some [0%nat]
    /\ ACLIPLoss.labels s2 = Some [0%nat]
    /\ ACLIPLoss.labels s3 = Some [0%nat; 1%nat]
    /\ ACLIPLoss.labels s3 <> ACLIPLoss.labels s2.
Proof.
  exists (aclip_cached single_process 0.1 1),
    (aclip_record single_process (fun _ _ => []) (fun _ _ => []) 0.1 sample_inputs),
    (ACLIPLoss.mk (Some (make_labels single_process 1)) (Some 1%nat)
                  (simclr_cached single_process 0.1 2)),
    (aclip_cached single_process 0.1 2),
    (aclip_record single_process (fun _ _ => []) (fun _ _ => []) 0.1 crossed_inputs).
  split.
  { apply (aclip_forward_ok single_process _ _ (ACLIPLoss.init 0.1) sample_inputs
                            1 2 1 1).
    - exact single_process_valid.
    - exact sample_inputs_valid.
    - apply valid_ssl_peers_single.
    - apply valid_clip_peers_single.
    - apply aclip_init_cache_valid. }
  split; [exact odd_byol_inputs_run|].
  split.
  { apply (aclip_forward_ok single_process _ _
             (ACLIPLoss.mk (Some (make_labels single_process 1)) (Some 1%nat)
                           (simclr_cached single_process 0.1 2))
             crossed_inputs 2 2 1 1).
    - exact single_process_valid.
    - exact crossed_inputs_valid.
    - apply valid_ssl_peers_single.
    - apply valid_clip_peers_single.
    - split; [reflexivity | apply simclr_cached_valid]. }
  repeat (split; [reflexivity|]). discriminate.
Qed.

(** ** Exchanging the two views *)

Lemma gather_one_ext (e : Utils.env) (c c' : nat -> list (list R))
      (local : list (list R)) :
  (forall r, (r < Utils.get_world_size e)%nat -> r <> Utils.get_rank e ->
             c r = c' r) ->
  Utils.gather_one e c local = Utils.gather_one e c' local.
Proof.
  intros H. unfold Utils.gather_one. f_equal. apply map_ext_in.
  intros r Hr. apply in_seq in Hr.
  destruct (Nat.eqb_spec r (Utils.get_rank e)); [reflexivity|].
  apply H; [lia | assumption].
Qed.

Lemma peers_swapped_single (ps ps' : Utils.peers) :
  peers_swapped single_process ps ps'.
Proof. intros r Hr Hne; simpl in *. lia. Qed.

Lemma peers_swapped_valid (e : Utils.env) (ps ps' : Utils.peers) (n d : nat) :
  peers_swapped e ps ps' ->
  valid_peers e (ps 0%nat) n d -> valid_peers e (ps 1%nat) n d ->
  valid_peers e (ps' 0%nat) n d /\ valid_peers e (ps' 1%nat) n d.
Proof.
  intros Hs H0 H1. split; intros r Hr Hne;
    destruct (Hs r Hr Hne) as (E0 & E1 & _).
  - rewrite E0. apply H1; assumption.
  - rewrite E1. apply H0; assumption.
Qed.

Lemma simclr_loss_value_swap (e : Utils.env) (ps ps' : Utils.peers) (s : R)
      (aug1 aug2 : list (list R)) :
  length aug1 = length aug2 -> peers_swapped e ps ps' ->
  simclr_loss_value e ps' s aug2 aug1 = simclr_loss_value e ps s aug1 aug2.
Proof.
  intros Hlen Hs. unfold simclr_loss_value. cbv zeta. rewrite <- Hlen.
  rewrite (gather_one_ext e (ps' 0%nat) (ps 1%nat))
    by (intros r Hr Hne; apply (Hs r Hr Hne)).
  rewrite (gather_one_ext e (ps' 1%nat) (ps 0%nat))
    by (intros r Hr Hne; apply (Hs r Hr Hne)).
  apply (f_equal (fun x => x / 2)). apply Rplus_comm.
Qed.

Lemma swap_views_shape (m : list (list R)) (n d : nat) :
  has_shape m (n + n) d -> has_shape (swap_views n m) (n + n) d.
Proof.
  intros H. unfold swap_views.
  apply app_shape; [apply skipn_shape | apply firstn_shape]; exact H.
Qed.

Lemma firstn_swap_views (m : list (list R)) (n : nat) :
  length m = (n + n)%nat -> firstn n (swap_views n m) = skipn n m.
Proof.
  intros H. unfold swap_views.
  rewrite firstn_app, length_skipn, H.
  replace (n - (n + n - n))%nat with 0%nat by lia. simpl. rewrite app_nil_r.
  apply firstn_all2. rewrite length_skipn. lia.
Qed.

Lemma skipn_swap_views (m : list (list R)) (n : nat) :
  length m = (n + n)%nat -> skipn n (swap_views n m) = firstn n m.
Proof.
  intros H. unfold swap_views.
  rewrite skipn_app, length_skipn, H.
  replace (n - (n + n - n))%nat with 0%nat by lia. simpl.
  rewrite skipn_all2 by (rewrite length_skipn; lia). reflexivity.
Qed.

Lemma normalize_swap_views (m : list (list R)) (n : nat) :
  Torch.normalize (swap_views n m) = swap_views n (Torch.normalize m).
Proof.
  unfold swap_views, Torch.normalize. rewrite map_app, skipn_map, firstn_map.
  reflexivity.
Qed.

Lemma combine_app_same {A B : Type} (a b : list A) (c d : list B) :
  length a = length c ->
  combine (a ++ b) (c ++ d) = (combine a c ++ combine b d)%list.
Proof.
  revert c; induction a as [|x a IH]; intros [|y c] H; simpl in *;
    try discriminate; [reflexivity|].
  rewrite IH by lia. reflexivity.
Qed.

Lemma rows2_app {A : Type} (f : list R -> list R -> A) (a b c d : list (list R)) :
  length a = length c ->
  rows2 f (a ++ b) (c ++ d) = (rows2 f a c ++ rows2 f b d)%list.
Proof.
  intros H. unfold rows2. rewrite combine_app_same by exact H. apply map_app.
Qed.

Lemma byol_value_swap (feats target : list (list R)) (n d : nat) :
  has_shape feats (n + n) d -> has_shape target n d ->
  byol_value (swap_views n feats) target = byol_value feats target.
Proof.
  intros Hf Ht. unfold byol_value.
  pose proof (has_shape_length _ _ _ (firstn_shape _ _ _ Hf)) as H1.
  pose proof (has_shape_length _ _ _ (skipn_shape _ _ _ Hf)) as H2.
  pose proof (has_shape_length _ _ _ Ht) as H3.
  rewrite <- (firstn_skipn n feats) at 2. unfold swap_views.
  rewrite !rows2_app by congruence.
  unfold Torch.mean. rewrite !sum_app, !length_app.
  f_equal; [apply Rplus_comm | f_equal; apply Nat.add_comm].
Qed.

Lemma peers_swapped_valid_clip (e : Utils.env) (ps ps' : Utils.peers) (n d : nat) :
  peers_swapped e ps ps' -> valid_clip_peers e ps n d -> valid_clip_peers e ps' n d.
Proof.
  intros Hs (H0 & H1 & H2).
  destruct (peers_swapped_valid e ps ps' n d Hs H0 H1) as [H0' H1'].
  split; [exact H0' | split; [exact H1'|]].
  intros r Hr Hne. destruct (Hs r Hr Hne) as (_ & _ & E2). rewrite E2.
  apply H2; assumption.
Qed.

Lemma peers_swapped_valid_ssl (e : Utils.env) (ps ps' : Utils.peers) (n d : nat) :
  peers_swapped e ps ps' -> valid_ssl_peers e ps n d -> valid_ssl_peers e ps' n d.
Proof. intros Hs [H0 H1]. apply (peers_swapped_valid e ps ps' n d Hs H0 H1). Qed.

Lemma swap_image_views_valid (outputs : ACLIPLoss.inputs) (n d d_ssl d_byol : nat) :
  valid_inputs outputs n d d_ssl d_byol ->
  valid_inputs (swap_image_views outputs) n d d_ssl d_byol.
Proof.
  intros (Hn & Ht & Hi & Hs & Hb & He).
  unfold valid_inputs, swap_image_views; simpl.
  rewrite (has_shape_length _ _ _ Ht).
  repeat (split; [first [assumption | apply swap_views_shape; assumption]|]).
  assumption.
Qed.

Lemma swap_all_views_valid (outputs : ACLIPLoss.inputs) (n d d_ssl d_byol : nat) :
  valid_inputs outputs n d d_ssl d_byol ->
  valid_inputs (swap_all_views outputs) n d d_ssl d_byol.
Proof.
  intros (Hn & Ht & Hi & Hs & Hb & He).
  unfold valid_inputs, swap_all_views; simpl.
  rewrite (has_shape_length _ _ _ Ht).
  repeat (split; [first [assumption | apply swap_views_shape; assumption]|]).
  assumption.
Qed.

Lemma swapped_views (outputs outputs' : ACLIPLoss.inputs) (n d : nat) :
  has_shape (ACLIPLoss.text_embed outputs) n d ->
  has_shape (ACLIPLoss.image_embed outputs) (n + n) d ->
  ACLIPLoss.text_embed outputs' = ACLIPLoss.text_embed outputs ->
  ACLIPLoss.image_embed outputs' = swap_views n (ACLIPLoss.image_embed outputs) ->
  view1 outputs' = view2 outputs /\ view2 outputs' = view1 outputs.
Proof.
  intros Ht Hi Et Ei. unfold view1, view2.
  rewrite Et, Ei, (has_shape_length _ _ _ Ht), normalize_swap_views.
  pose proof (has_shape_length _ _ _ (normalize_shape _ _ _ Hi)) as Hl.
  split; [apply firstn_swap_views | apply skipn_swap_views]; exact Hl.
Qed.

Lemma contra_value_swap (e : Utils.env) (ps ps' : Utils.peers)
      (outputs outputs' : ACLIPLoss.inputs) (view : list (list R)) :
  peers_swapped e ps ps' ->
  ACLIPLoss.text_embed outputs' = ACLIPLoss.text_embed outputs ->
  ACLIPLoss.logit_scale outputs' = ACLIPLoss.logit_scale outputs ->
  contra_value e ps' outputs' 0 view = contra_value e ps outputs 1 view
  /\ contra_value e ps' outputs' 1 view = contra_value e ps outputs 0 view.
Proof.
  intros Hs Et El. unfold contra_value, image_logits, text_logits.
  rewrite Et, El.
  rewrite (gather_one_ext e (ps' 0%nat) (ps 1%nat))
    by (intros r Hr Hne; apply (Hs r Hr Hne)).
  rewrite (gather_one_ext e (ps' 1%nat) (ps 0%nat))
    by (intros r Hr Hne; apply (Hs r Hr Hne)).
  rewrite (gather_one_ext e (ps' 2%nat) (ps 2%nat))
    by (intros r Hr Hne; apply (Hs r Hr Hne)).
  split; reflexivity.
Qed.

Lemma aclip_record_loss (e : Utils.env) (ps_ssl ps_clip : Utils.peers) (s : R)
      (outputs : ACLIPLoss.inputs) :
  dict_get (aclip_record e ps_ssl ps_clip s outputs) "loss"
  = Some (0.5 * contra_value e ps_clip outputs 0 (view1 outputs)
          + 0.5 * contra_value e ps_clip outputs 1 (view2 outputs)
          + simclr_loss_value e ps_ssl s
              (firstn (length (ACLIPLoss.text_embed outputs))
                      (ACLIPLoss.image_ssl_embed outputs))
              (skipn (length (ACLIPLoss.text_embed outputs))
                     (ACLIPLoss.image_ssl_embed outputs))
          + 2 * byol_value (ACLIPLoss.byol_feats outputs)
                           (ACLIPLoss.byol_feats_e outputs)).
Proof. reflexivity. Qed.

Lemma aclip_record_contra (e : Utils.env) (ps_ssl ps_clip : Utils.peers) (s : R)
      (outputs : ACLIPLoss.inputs) :
  dict_get (aclip_record e ps_ssl ps_clip s outputs) "contra_loss_1"
  = Some (contra_value e ps_clip outputs 0 (view1 outputs))
  /\ dict_get (aclip_record e ps_ssl ps_clip s outputs) "contra_loss_2"
     = Some (contra_value e ps_clip outputs 1 (view2 outputs)).
Proof. split; reflexivity. Qed.

(** C9: the SimCLR loss is unchanged when [aug1_embed] and [aug2_embed]
    trade places, and the combined loss is unchanged when the two image
    views trade places, in [image_embed] alone (which exchanges
    [contra_loss_1] and [contra_loss_2]) or in every tensor that stacks
    the views.  The other workers, if any, exchange their views too. *)
Theorem loss_symmetric_in_views :
  (forall e ps ps' self outputs n d,
      valid_env e -> (0 < n)%nat -> simclr_valid_call e ps outputs n d ->
      peers_swapped e ps ps' -> simclr_cache_valid e self ->
      exists s1 r1 s2 r2 v,
        SIMCLRLoss.forward e ps self outputs = (s1, Ok r1)
        /\ SIMCLRLoss.forward e ps' self (swap_aug outputs) = (s2, Ok r2)
        /\ dict_get r1 "loss" = Some v /\ dict_get r2 "loss" = Some v)
  /\ (forall e ps_ssl ps_clip ps_clip' self outputs n,
         valid_env e -> aclip_valid_call e ps_ssl ps_clip outputs n ->
         peers_swapped e ps_clip ps_clip' -> aclip_cache_valid e self ->
         exists s1 r1 s2 r2 v c1 c2,
           ACLIPLoss.forward e ps_ssl ps_clip self outputs = (s1, Ok r1)
           /\ ACLIPLoss.forward e ps_ssl ps_clip' self (swap_image_views outputs)
              = (s2, Ok r2)
           /\ dict_get r1 "loss" = Some v /\ dict_get r2 "loss" = Some v
           /\ dict_get r1 "contra_loss_1" = Some c1
           /\ dict_get r2 "contra_loss_2" = Some c1
           /\ dict_get r1 "contra_loss_2" = Some c2
           /\ dict_get r2 "contra_loss_1" = Some c2)
  /\ (forall e ps_ssl ps_ssl' ps_clip ps_clip' self outputs n,
         valid_env e -> aclip_valid_call e ps_ssl ps_clip outputs n ->
         peers_swapped e ps_ssl ps_ssl' -> peers_swapped e ps_clip ps_clip' ->
         aclip_cache_valid e self ->
         exists s1 r1 s2 r2 v,
           ACLIPLoss.forward e ps_ssl ps_clip self outputs = (s1, Ok r1)
           /\ ACLIPLoss.forward e ps_ssl' ps_clip' self (swap_all_views outputs)
              = (s2, Ok r2)
           /\ dict_get r1 "loss" = Some v /\ dict_get r2 "loss" = Some v).
Proof.
  split; [|split].
  - intros e ps ps' self [aug1 aug2] n d He Hn (H1 & H2 & Hp0 & Hp1) Hs Hc.
    simpl in H1, H2.
    destruct (peers_swapped_valid e ps ps' n d Hs Hp0 Hp1) as [Hp0' Hp1'].
    do 5 eexists. split; [|split; [|split]].
    + apply (simclr_forward_ok e ps self aug1 aug2 n d); assumption.
    + apply (simclr_forward_ok e ps' self aug2 aug1 n d); assumption.
    + apply simclr_record_loss.
    + rewrite simclr_record_loss. f_equal. apply simclr_loss_value_swap; [|exact Hs].
      rewrite (has_shape_length _ _ _ H1), (has_shape_length _ _ _ H2). reflexivity.
  - intros e ps_ssl ps_clip ps_clip' self outputs n He
           (d & d_ssl & d_byol & Hv & Hssl & Hclip) Hs Hc.
    pose proof Hv as (Hn & Ht & Hi & _).
    destruct (swapped_views outputs (swap_image_views outputs) n d Ht Hi)
      as [V1 V2]; [reflexivity | simpl; rewrite (has_shape_length _ _ _ Ht);
                                 reflexivity |].
    destruct (contra_value_swap e ps_clip ps_clip' outputs (swap_image_views outputs)
                (view2 outputs) Hs eq_refl eq_refl) as [C0 _].
    destruct (contra_value_swap e ps_clip ps_clip' outputs (swap_image_views outputs)
                (view1 outputs) Hs eq_refl eq_refl) as [_ C1].
    do 7 eexists.
    split; [eapply aclip_forward_ok; eassumption|].
    split; [eapply aclip_forward_ok;
            eauto using swap_image_views_valid, peers_swapped_valid_clip|].
    split; [apply aclip_record_loss|].
    split; [|split; [apply aclip_record_contra|
             split; [|split; [apply aclip_record_contra|]]]].
    + rewrite aclip_record_loss, V1, V2, C0, C1. f_equal.
      cbn [swap_image_views ACLIPLoss.text_embed ACLIPLoss.image_ssl_embed
           ACLIPLoss.byol_feats ACLIPLoss.byol_feats_e]. ring.
    + destruct (aclip_record_contra e ps_ssl ps_clip'
                  (SIMCLRLoss.tau (ACLIPLoss.simclr_loss self))
                  (swap_image_views outputs)) as [_ H2].
      rewrite H2, V2, C1. reflexivity.
    + destruct (aclip_record_contra e ps_ssl ps_clip'
                  (SIMCLRLoss.tau (ACLIPLoss.simclr_loss self))
                  (swap_image_views outputs)) as [H1 _].
      rewrite H1, V1, C0. reflexivity.
  - intros e ps_ssl ps_ssl' ps_clip ps_clip' self outputs n He
           (d & d_ssl & d_byol & Hv & Hssl & Hclip) Hs Hs' Hc.
    pose proof Hv as (Hn & Ht & Hi & Hsl & Hb & Hbe).
    pose proof (has_shape_length _ _ _ Ht) as Hlen.
    destruct (swapped_views outputs (swap_all_views outputs) n d Ht Hi)
      as [V1 V2]; [reflexivity | simpl; rewrite Hlen; reflexivity |].
    destruct (contra_value_swap e ps_clip ps_clip' outputs (swap_all_views outputs)
                (view2 outputs) Hs' eq_refl eq_refl) as [C0 _].
    destruct (contra_value_swap e ps_clip ps_clip' outputs (swap_all_views outputs)
                (view1 outputs) Hs' eq_refl eq_refl) as [_ C1].
    do 5 eexists.
    split; [eapply aclip_forward_ok; eassumption|].
    split; [eapply aclip_forward_ok;
            eauto using swap_all_views_valid, peers_swapped_valid_clip,
              peers_swapped_valid_ssl|].
    split; [apply aclip_record_loss|].
    rewrite aclip_record_loss, V1, V2, C0, C1. f_equal.
    cbn [swap_all_views ACLIPLoss.text_embed ACLIPLoss.image_ssl_embed
         ACLIPLoss.byol_feats ACLIPLoss.byol_feats_e].
    rewrite Hlen.
    rewrite (firstn_swap_views _ n (has_shape_length _ _ _ Hsl)).
    rewrite (skipn_swap_views _ n (has_shape_length _ _ _ Hsl)).
    rewrite (simclr_loss_value_swap e ps_ssl ps_ssl' _ _ _)
      by (try exact Hs;
          rewrite (has_shape_length _ _ _ (firstn_shape _ _ _ Hsl)),
            (has_shape_length _ _ _ (skipn_shape _ _ _ Hsl)); reflexivity).
    rewrite (byol_value_swap _ _ n d_byol Hb Hbe). ring.
Qed.

Lemma loss_symmetric_in_views_witness :
  (exists s1 r1 s2 r2 v,
      SIMCLRLoss.forward single_process (fun _ _ => []) (SIMCLRLoss.init 0.1)
        (SIMCLRLoss.mk_inputs [[1; 0]; [0; 1]] [[3; 4]; [1; 2]]) = (s1, Ok r1)
      /\ SIMCLRLoss.forward single_process (fun _ _ => []) (SIMCLRLoss.init 0.1)
           (SIMCLRLoss.mk_inputs [[3; 4]; [1; 2]] [[1; 0]; [0; 1]]) = (s2, Ok r2)
      /\ dict_get r1 "loss" = Some v /\ dict_get r2 "loss" = Some v)
  /\ (exists s1 r1 s2 r2 v,
         ACLIPLoss.forward single_process (fun _ _ => []) (fun _ _ => [])
                           (ACLIPLoss.init 0.1) sample_inputs = (s1, Ok r1)
         /\ ACLIPLoss.forward single_process (fun _ _ => []) (fun _ _ => [])
                              (ACLIPLoss.init 0.1) (swap_all_views sample_inputs)
            = (s2, Ok r2)
         /\ dict_get r1 "loss" = Some v /\ dict_get r2 "loss" = Some v).
Proof.
  destruct loss_symmetric_in_views as (Hsimclr & _ & Hall).
  split.
  - apply (Hsimclr single_process (fun _ _ => []) (fun _ _ => [])
                   (SIMCLRLoss.init 0.1)
                   (SIMCLRLoss.mk_inputs [[1; 0]; [0; 1]] [[3; 4]; [1; 2]])
                   2%nat 2%nat).
    + exact single_process_valid.
    + lia.
    + split; [concrete_shape|].
      split; [concrete_shape|].
      split; apply valid_peers_single.
    + apply peers_swapped_single.
    + exact I.
  - apply (Hall single_process (fun _ _ => []) (fun _ _ => [])
                (fun _ _ => []) (fun _ _ => []) (ACLIPLoss.init 0.1)
                sample_inputs 1%nat).
    + exact single_process_valid.
    + exists 2%nat, 1%nat, 1%nat. split; [exact sample_inputs_valid|].
      split; [apply valid_ssl_peers_single | apply valid_clip_peers_single].
    + apply peers_swapped_single.
    + apply peers_swapped_single.
    + apply aclip_init_cache_valid.
Defined.

(** ** Scaling the inputs *)

Lemma sum_squares_scaled (c : R) (v : list R) :
  Torch.sum (map (fun x => x * x) (map (Rmult c) v))
  = (c * c) * Torch.sum (map (fun x => x * x) v).
Proof.
  induction v as [|x v IH]; simpl; [ring|]. rewrite IH. ring.
Qed.

Lemma norm2_scaled (c : R) (v : list R) :
  0 <= c -> Torch.norm2 (map (Rmult c) v) = c * Torch.norm2 v.
Proof.
  intros Hc. unfold Torch.norm2. rewrite sum_squares_scaled.
  rewrite sqrt_mult by (try apply sum_squares_nonneg; nra).
  rewrite sqrt_square by exact Hc. reflexivity.
Qed.

Lemma normalize_row_scaled (c : R) (v : list R) :
  stays_unclamped c v ->
  Torch.normalize_row (map (Rmult c) v) = Torch.normalize_row v.
Proof.
  intros (Hc & Hv & Hcv).
  assert (He : 0 < Torch.normalize_eps) by (unfold Torch.normalize_eps; lra).
  unfold Torch.normalize_row. rewrite norm2_scaled by lra.
  rewrite !Rmax_left by assumption. rewrite map_map.
  apply map_ext. intros x. field. split; lra.
Qed.

Lemma normalize_scale_rows (cs : list R) (m : list (list R)) :
  length cs = length m ->
  Forall (fun cr => stays_unclamped (fst cr) (snd cr)) (combine cs m) ->
  Torch.normalize (scale_rows cs m) = Torch.normalize m.
Proof.
  revert m. induction cs as [|c cs IH]; intros [|r m] Hlen H; simpl in *;
    try discriminate; [reflexivity|].
  inversion H as [|? ? Hr Hrest]; subst. unfold scale_rows in *. simpl.
  rewrite (normalize_row_scaled c r Hr). f_equal. apply IH; [lia | exact Hrest].
Qed.

Lemma scale_as_scale_rows (c : R) (m : list (list R)) :
  Torch.scale c m = scale_rows (repeat c (length m)) m.
Proof.
  unfold Torch.scale, scale_rows. induction m as [|r m IH]; simpl; [reflexivity|].
  rewrite IH. reflexivity.
Qed.

Lemma normalize_scale (c : R) (m : list (list R)) :
  Forall (stays_unclamped c) m ->
  Torch.normalize (Torch.scale c m) = Torch.normalize m.
Proof.
  intros H. unfold Torch.scale, Torch.normalize. rewrite map_map.
  apply map_ext_in. intros r Hr. rewrite Forall_forall in H.
  apply normalize_row_scaled, H, Hr.
Qed.

Lemma simclr_forward_normalize_ext (e : Utils.env) (ps : Utils.peers)
      (self : SIMCLRLoss.t) (a b a' b' : list (list R)) :
  Torch.normalize a' = Torch.normalize a ->
  Torch.normalize b' = Torch.normalize b ->
  SIMCLRLoss.forward e ps self (SIMCLRLoss.mk_inputs a' b')
  = SIMCLRLoss.forward e ps self (SIMCLRLoss.mk_inputs a b).
Proof.
  intros Ha Hb. unfold SIMCLRLoss.forward.
  cbn [SIMCLRLoss.aug1_embed SIMCLRLoss.aug2_embed]. rewrite Ha, Hb. reflexivity.
Qed.

(** C10 (as amended): when every row of [aug1_embed] and [aug2_embed] has
    an L2 norm of at least [1e-12] both before and after it is multiplied
    by its positive factor (one factor for all rows, or one per row),
    [SIMCLRLoss.forward] on the scaled batches returns the same record
    and leaves the same state as on the batches themselves, for every
    state, environment and peers. *)
Theorem simclr_forward_scale_invariant :
  (forall e ps self aug1 aug2 c,
      Forall (stays_unclamped c) aug1 -> Forall (stays_unclamped c) aug2 ->
      SIMCLRLoss.forward e ps self
        (SIMCLRLoss.mk_inputs (Torch.scale c aug1) (Torch.scale c aug2))
      = SIMCLRLoss.forward e ps self (SIMCLRLoss.mk_inputs aug1 aug2))
  /\ (forall e ps self aug1 aug2 cs1 cs2,
         length cs1 = length aug1 -> length cs2 = length aug2 ->
         Forall (fun cr => stays_unclamped (fst cr) (snd cr)) (combine cs1 aug1) ->
         Forall (fun cr => stays_unclamped (fst cr) (snd cr)) (combine cs2 aug2) ->
         SIMCLRLoss.forward e ps self
           (SIMCLRLoss.mk_inputs (scale_rows cs1 aug1) (scale_rows cs2 aug2))
         = SIMCLRLoss.forward e ps self (SIMCLRLoss.mk_inputs aug1 aug2)).
Proof.
  split.
  - intros e ps self aug1 aug2 c H1 H2.
    apply simclr_forward_normalize_ext; apply normalize_scale; assumption.
  - intros e ps self aug1 aug2 cs1 cs2 L1 L2 H1 H2.
    apply simclr_forward_normalize_ext; apply normalize_scale_rows; assumption.
Qed.

Lemma stays_unclamped_intro (c low : R) (r : list R) :
  1 <= c -> 0 <= low -> Torch.normalize_eps <= low ->
  low * low <= Torch.sum (map (fun x => x * x) r) ->
  stays_unclamped c r.
Proof.
  intros Hc Hlow He Hs. pose proof (norm2_lower low r Hlow Hs) as Hn.
  split; [lra|]. split; [lra|]. nra.
Qed.

Lemma simclr_forward_scale_invariant_witness :
  SIMCLRLoss.forward single_process (fun _ _ => []) (SIMCLRLoss.init 0.1)
    (SIMCLRLoss.mk_inputs (Torch.scale 2 [[3; 4]; [1; 0]])
                          (Torch.scale 2 [[0; 1]; [1; 1]]))
  = SIMCLRLoss.forward single_process (fun _ _ => []) (SIMCLRLoss.init 0.1)
      (SIMCLRLoss.mk_inputs [[3; 4]; [1; 0]] [[0; 1]; [1; 1]]).
Proof.
  destruct simclr_forward_scale_invariant as [Huniform _].
  apply Huniform.
  - repeat (apply Forall_cons || apply Forall_nil);
      apply (stays_unclamped_intro 2 1); unfold Torch.normalize_eps; simpl; lra.
  - repeat (apply Forall_cons || apply Forall_nil);
      apply (stays_unclamped_intro 2 1); unfold Torch.normalize_eps; simpl; lra.
Defined.

Lemma normalize_row_with (v : list R) (nrm d : R) :
  0 <= nrm -> Torch.sum (map (fun x => x * x) v) = nrm * nrm ->
  Rmax nrm Torch.normalize_eps = d ->
  Torch.normalize_row v = map (fun x => x / d) v.
Proof.
  intros Hn Hs Hd. unfold Torch.normalize_row, Torch.norm2.
  rewrite Hs, sqrt_square by exact Hn. rewrite Hd. reflexivity.
Qed.

Lemma tiny_normalized :
  Torch.normalize tiny_aug1 = [[1e-13 / 1e-12; 0 / 1e-12]; [1 / 1; 0 / 1]]
  /\ Torch.normalize tiny_aug2 = [[0 / 1; 1 / 1]; [3 / 5; 4 / 5]]
  /\ Torch.normalize (Torch.scale 100 tiny_aug1)
     = [[100 * 1e-13 / 1e-11; 100 * 0 / 1e-11]; [100 * 1 / 100; 100 * 0 / 100]]
  /\ Torch.normalize (Torch.scale 100 tiny_aug2)
     = [[100 * 0 / 100; 100 * 1 / 100]; [100 * 3 / 500; 100 * 4 / 500]].
Proof.
  unfold tiny_aug1, tiny_aug2, Torch.scale, Torch.normalize. cbn [map].
  rewrite (normalize_row_with [1e-13; 0] 1e-13 1e-12);
    [| lra | simpl; lra | unfold Torch.normalize_eps; apply Rmax_right; lra].
  rewrite (normalize_row_with [1; 0] 1 1);
    [| lra | simpl; lra | unfold Torch.normalize_eps; apply Rmax_left; lra].
  rewrite (normalize_row_with [0; 1] 1 1);
    [| lra | simpl; lra | unfold Torch.normalize_eps; apply Rmax_left; lra].
  rewrite (normalize_row_with [3; 4] 5 5);
    [| lra | simpl; lra | unfold Torch.normalize_eps; apply Rmax_left; lra].
  rewrite (normalize_row_with [100 * 1e-13; 100 * 0] 1e-11 1e-11);
    [| lra | simpl; lra | unfold Torch.normalize_eps; apply Rmax_left; lra].
  rewrite (normalize_row_with [100 * 1; 100 * 0] 100 100);
    [| lra | simpl; lra | unfold Torch.normalize_eps; apply Rmax_left; lra].
  rewrite (normalize_row_with [100 * 0; 100 * 1] 100 100);
    [| lra | simpl; lra | unfold Torch.normalize_eps; apply Rmax_left; lra].
  rewrite (normalize_row_with [100 * 3; 100 * 4] 500 500);
    [| lra | simpl; lra | unfold Torch.normalize_eps; apply Rmax_left; lra].
  cbn [map]. repeat split; reflexivity.
Qed.

Lemma tiny_accuracies (ps : Utils.peers) :
  simclr_acc_value single_process ps 0.1 tiny_aug1 tiny_aug2 = 50
  /\ simclr_acc_value single_process ps 0.1
       (Torch.scale 100 tiny_aug1) (Torch.scale 100 tiny_aug2) = 0.
Proof.
  destruct tiny_normalized as (Ha & Hb & Ha' & Hb').
  unfold simclr_acc_value. cbv zeta. rewrite !gather_one_single.
  rewrite Ha, Hb, Ha', Hb'.
  unfold accuracy, hits, simclr_cat, append_rows, minus_rows, rows2, outer,
    Torch.div_scalar, make_masks, make_labels, Torch.arange, Torch.dot,
    Torch.scale, tiny_aug1, tiny_aug2, single_process.
  cbn [length map combine seq app fst snd Nat.mul Nat.add Nat.eqb
       Utils.get_rank Utils.get_world_size Torch.sum fold_right
       first_argmax Torch.argmax_from].
  repeat match goal with
         | |- context [Rlt_dec ?a ?b] => destruct (Rlt_dec a b); try lra
         end.
  cbn [filter fst snd Nat.eqb length INR]. split; lra.
Qed.

(** C10 (as stated) fails on a non-zero row whose norm lies below the
    constant at which [F.normalize] clamps: scaling [tiny_aug1] and
    [tiny_aug2] by 100 turns the first row of [tiny_aug1] from a vector
    of norm 0.1 after normalization into a unit vector, and the returned
    ["ssl_acc"] changes from 50 to 0. *)
Lemma simclr_forward_scaling_changes_output :
  Forall (Exists (fun x => x <> 0)) tiny_aug1
  /\ Forall (Exists (fun x => x <> 0)) tiny_aug2
  /\ 0 < 100
  /\ exists s1 r1 s2 r2,
      SIMCLRLoss.forward single_process (fun _ _ => []) (SIMCLRLoss.init 0.1)
        (SIMCLRLoss.mk_inputs tiny_aug1 tiny_aug2) = (s1, Ok r1)
      /\ SIMCLRLoss.forward single_process (fun _ _ => []) (SIMCLRLoss.init 0.1)
           (SIMCLRLoss.mk_inputs (Torch.scale 100 tiny_aug1)
                                 (Torch.scale 100 tiny_aug2)) = (s2, Ok r2)
      /\ dict_get r1 "ssl_acc" = Some 50
      /\ dict_get r2 "ssl_acc" = Some 0
      /\ r1 <> r2.
Proof.
  destruct (tiny_accuracies (fun _ _ => [])) as [H50 H0].
  split; [|split; [|split; [lra|]]].
  - unfold tiny_aug1. repeat apply Forall_cons; try apply Forall_nil;
      apply Exists_cons_hd; lra.
  - unfold tiny_aug2. apply Forall_cons; [|apply Forall_cons; [|apply Forall_nil]].
    + apply Exists_cons_tl, Exists_cons_hd; lra.
    + apply Exists_cons_hd; lra.
  - exists (simclr_cached single_process 0.1 2),
      (simclr_record single_process (fun _ _ => []) 0.1 tiny_aug1 tiny_aug2),
      (simclr_cached single_process 0.1 2),
      (simclr_record single_process (fun _ _ => []) 0.1
                     (Torch.scale 100 tiny_aug1) (Torch.scale 100 tiny_aug2)).
    assert (Hs1 : has_shape tiny_aug1 2 2) by (concrete_shape).
    assert (Hs2 : has_shape tiny_aug2 2 2) by (concrete_shape).
    split; [|split; [|split; [|split]]].
    + apply (simclr_forward_ok single_process _ (SIMCLRLoss.init 0.1) _ _ 2 2);
        auto using single_process_valid, valid_peers_single. exact I.
    + apply (simclr_forward_ok single_process _ (SIMCLRLoss.init 0.1) _ _ 2 2);
        auto using single_process_valid, valid_peers_single, scale_shape. exact I.
    + unfold simclr_record. cbn [dict_get String.eqb Ascii.eqb Bool.eqb].
      f_equal. exact H50.
    + unfold simclr_record. cbn [dict_get String.eqb Ascii.eqb Bool.eqb].
      f_equal. exact H0.
    + intros Heq. apply (f_equal (fun r => dict_get r "ssl_acc")) in Heq.
      unfold simclr_record in Heq.
      cbn [dict_get String.eqb Ascii.eqb Bool.eqb] in Heq.
      rewrite H50, H0 in Heq. inversion Heq. lra.
Qed.

(** ** The keys of the returned record *)

Lemma aclip_record_keys (e : Utils.env) (ps_ssl ps_clip : Utils.peers) (s : R)
      (outputs : ACLIPLoss.inputs) :
  map fst (aclip_record e ps_ssl ps_clip s outputs) = get_metric_names.
Proof. reflexivity. Qed.

(** * Further properties of [losses.py] *)

(** ** What a returning call implies *)

(** A [bind] that returns has a first part that returns. *)
Tactic Notation "bind_inv" hyp(H) ident(x) ident(E) :=
  match type of H with
  | bind ?c _ = Ok _ =>
      destruct c as [x|] eqn:E; cbn [bind] in H; [|discriminate H]
  end.

Lemma mapM_Forall {A B : Type} (f : A -> result B) (P : B -> Prop)
      (l : list A) (r : list B) :
  mapM f l = Ok r ->
  (forall x y, In x l -> f x = Ok y -> P y) ->
  Forall P r.
Proof.
  revert r; induction l as [|x t IH]; simpl; intros r H HP.
  - inversion H. constructor.
  - destruct (f x) as [y|] eqn:Ey; cbn [bind] in H; [|discriminate].
    destruct (mapM f t) as [ys|] eqn:Et; cbn [bind] in H; [|discriminate].
    inversion H; subst. constructor.
    + apply (HP x y); [left; reflexivity | exact Ey].
    + apply IH; [reflexivity|]. intros x' y' Hin. apply HP. right; exact Hin.
Qed.

Lemma argmax_length (m : list (list R)) (pred : list nat) :
  Torch.argmax m = Ok pred -> length pred = length m.
Proof. apply mapM_length. Qed.

Lemma eq_count_bound (pred target : list nat) (correct : nat) :
  length pred = length target ->
  Torch.eq_count pred target = Ok correct -> (correct <= length target)%nat.
Proof.
  intros Hlen. rewrite eq_count_ok by exact Hlen. intros H; inversion H.
  etransitivity; [apply filter_length_le|]. rewrite length_combine. lia.
Qed.

(** The returning runs of the part of [SIMCLRLoss.forward] after the cache
    block, with everything they computed on the way. *)
Lemma simclr_losses_inv (self : SIMCLRLoss.t) (n : nat)
      (q_a q_b k_a k_b : list (list R)) (out : dict) :
  SIMCLRLoss.losses self n q_a q_b k_a k_b = Ok out ->
  exists l cat_a cat_b loss_a loss_b pred correct,
    SIMCLRLoss.labels self = Some l
    /\ length cat_a = length q_a /\ length cat_b = length q_b
    /\ Torch.cross_entropy cat_a l = Ok loss_a
    /\ Torch.cross_entropy cat_b l = Ok loss_b
    /\ Torch.argmax cat_a = Ok pred
    /\ Torch.eq_count pred l = Ok correct
    /\ out = [("loss"%string, (loss_a + loss_b) / 2);
              ("ssl_loss"%string, (loss_a + loss_b) / 2);
              ("ssl_acc"%string, 100 * INR correct / INR n)].
Proof.
  unfold SIMCLRLoss.losses. intros H.
  destruct (SIMCLRLoss.labels self) as [l|]; [|discriminate].
  destruct (SIMCLRLoss.masks self) as [m|]; [|discriminate].
  bind_inv H aa Eaa. bind_inv H aa' Eaa'. bind_inv H bb Ebb. bind_inv H bb' Ebb'.
  bind_inv H ab Eab. bind_inv H ba Eba. bind_inv H cat_a Ecat_a.
  bind_inv H loss_a Ela. bind_inv H cat_b Ecat_b. bind_inv H loss_b Elb.
  cbn [bind] in H. bind_inv H pred Epred. bind_inv H correct Ecorrect.
  inversion H; subst out.
  exists l, cat_a, cat_b, loss_a, loss_b, pred, correct.
  split; [reflexivity|]. split.
  { rewrite (cat1_length _ _ _ Ecat_a). unfold Torch.div_scalar.
    rewrite length_map. apply (matmul_t_length _ _ _ Eab). }
  split.
  { rewrite (cat1_length _ _ _ Ecat_b). unfold Torch.div_scalar.
    rewrite length_map. apply (matmul_t_length _ _ _ Eba). }
  repeat (split; [assumption|]). reflexivity.
Qed.

Lemma simclr_update_cache_empty (e : Utils.env) (self : SIMCLRLoss.t) :
  SIMCLRLoss.last_local_batch_size self <> Some 0%nat ->
  SIMCLRLoss.update_cache e self 0
  = (SIMCLRLoss.mk (SIMCLRLoss.tau self) (Some []) (SIMCLRLoss.masks self)
                   (SIMCLRLoss.last_local_batch_size self),
     Err TorchError).
Proof.
  intros Hne. unfold SIMCLRLoss.update_cache.
  destruct (size_changed 0 (SIMCLRLoss.last_local_batch_size self)) eqn:E.
  - reflexivity.
  - apply size_changed_false in E. contradiction.
Qed.

(** In every state a SimCLR module can be in, the recorded batch size is
    positive and the mask is the one of the recorded size. *)
Lemma simclr_reachable_recorded (e : Utils.env) (self : SIMCLRLoss.t) :
  simclr_reachable e self ->
  forall n, SIMCLRLoss.last_local_batch_size self = Some n ->
            (0 < n)%nat /\ SIMCLRLoss.masks self = Some (make_masks e n).
Proof.
  induction 1 as [temperature | self ps outputs _ IH]; intros n Hn.
  - discriminate.
  - rewrite simclr_forward_state in Hn |- *.
    set (k := length (SIMCLRLoss.aug1_embed outputs)) in *.
    destruct (simclr_update_cache_cases e self k)
      as [[Hlast Hu] | [[Hne Hu] | [Hne [er Hu]]]]; rewrite Hu in Hn |- *;
      cbn [fst] in *.
    + apply IH, Hn.
    + cbn [simclr_cached SIMCLRLoss.last_local_batch_size SIMCLRLoss.masks] in *.
      inversion Hn; subst n. split; [|reflexivity].
      destruct k as [|k']; [|lia].
      rewrite (simclr_update_cache_empty e self Hne) in Hu. discriminate.
    + cbn [SIMCLRLoss.last_local_batch_size SIMCLRLoss.masks] in *. apply IH, Hn.
Qed.

(** ** Signs and ranges *)

Lemma sum_nonneg (l : list R) : Forall (fun x => 0 <= x) l -> 0 <= Torch.sum l.
Proof. induction 1 as [|x l Hx _ IH]; simpl; lra. Qed.

Lemma sum_le_const (l : list R) (c : R) :
  Forall (fun x => x <= c) l -> Torch.sum l <= INR (length l) * c.
Proof.
  induction 1 as [|x l Hx _ IH].
  - simpl. lra.
  - change (length (x :: l)) with (S (length l)). rewrite S_INR. simpl. lra.
Qed.

Lemma mean_nonneg (l : list R) : Forall (fun x => 0 <= x) l -> 0 <= Torch.mean l.
Proof.
  intros H. unfold Torch.mean. destruct l as [|x l].
  - simpl. unfold Rdiv. rewrite Rmult_0_l. lra.
  - apply Rmult_le_pos; [apply sum_nonneg, H|].
    apply Rlt_le, Rinv_0_lt_compat, lt_0_INR. simpl; lia.
Qed.

Lemma mean_between (l : list R) (a b : R) :
  l <> [] -> Forall (fun x => a <= x <= b) l -> a <= Torch.mean l <= b.
Proof.
  intros Hne H. unfold Torch.mean.
  assert (Hn : 0 < INR (length l)).
  { apply lt_0_INR. destruct l; [congruence | simpl; lia]. }
  assert (Hlo : INR (length l) * a <= Torch.sum l).
  { clear Hne Hn. induction H as [|x l Hx _ IH].
    - simpl. lra.
    - change (length (x :: l)) with (S (length l)). rewrite S_INR. simpl. lra. }
  assert (Hhi : Torch.sum l <= INR (length l) * b).
  { apply sum_le_const. eapply Forall_impl; [|exact H]. simpl. intros x Hx; lra. }
  split.
  - apply (Rmult_le_reg_r (INR (length l))); [exact Hn|].
    unfold Rdiv. rewrite Rmult_assoc, Rinv_l by lra. lra.
  - apply (Rmult_le_reg_r (INR (length l))); [exact Hn|].
    unfold Rdiv. rewrite Rmult_assoc, Rinv_l by lra. lra.
Qed.

Lemma sum_exp_pos_or_nil (row : list R) : 0 <= Torch.sum (map exp row).
Proof.
  apply sum_nonneg, Forall_map, Forall_forall. intros x _.
  apply Rlt_le, exp_pos.
Qed.

Lemma exp_le_sum_exp (row : list R) (y : nat) (x : R) :
  nth_error row y = Some x -> exp x <= Torch.sum (map exp row).
Proof.
  revert y; induction row as [|z row IH]; intros [|y] H; simpl in *;
    try discriminate.
  - inversion H; subst. pose proof (sum_exp_pos_or_nil row). lra.
  - specialize (IH y H). pose proof (exp_pos z). lra.
Qed.

Lemma ln_le_mono (x y : R) : 0 < x -> x <= y -> ln x <= ln y.
Proof.
  intros Hx [Hlt | ->]; [|lra]. left. apply ln_increasing; assumption.
Qed.

Lemma log_softmax_nonpos (row : list R) (y : nat) (v : R) :
  nth_error (Torch.log_softmax_row row) y = Some v -> v <= 0.
Proof.
  unfold Torch.log_softmax_row. rewrite nth_error_map.
  destruct (nth_error row y) as [x|] eqn:E; simpl; [|discriminate].
  intros H; inversion H; subst v.
  pose proof (exp_le_sum_exp row y x E) as Hle.
  pose proof (ln_le_mono _ _ (exp_pos x) Hle) as Hln. rewrite ln_exp in Hln. lra.
Qed.

Lemma cross_entropy_nonneg (logits : list (list R)) (target : list nat) (v : R) :
  Torch.cross_entropy logits target = Ok v -> 0 <= v.
Proof.
  unfold Torch.cross_entropy.
  destruct (length logits =? length target)%nat; [|discriminate].
  intros H. bind_inv H picked E. inversion H; subst v.
  apply mean_nonneg. eapply mapM_Forall; [exact E|].
  intros [r y] w _; simpl.
  destruct (nth_error (Torch.log_softmax_row r) y) as [u|] eqn:Eu; [|discriminate].
  intros Hw; inversion Hw; subst w.
  pose proof (log_softmax_nonpos r y u Eu). lra.
Qed.

(** ** [SIMCLRLoss.forward]: errors, shape of the result, ranges *)

Lemma simclr_empty_raises (e : Utils.env) (ps : Utils.peers)
      (self : SIMCLRLoss.t) (outputs : SIMCLRLoss.inputs) :
  SIMCLRLoss.last_local_batch_size self <> Some 0%nat ->
  SIMCLRLoss.aug1_embed outputs = [] ->
  snd (SIMCLRLoss.forward e ps self outputs) = Err TorchError.
Proof.
  intros Hne Hempty. rewrite simclr_forward_unfold. cbv zeta.
  rewrite Hempty. cbn [length].
  rewrite (simclr_update_cache_empty e self Hne). reflexivity.
Qed.

Lemma simclr_reachable_not_empty (e : Utils.env) (self : SIMCLRLoss.t) :
  simclr_reachable e self -> SIMCLRLoss.last_local_batch_size self <> Some 0%nat.
Proof.
  intros Hr H0. destruct (simclr_reachable_recorded e self Hr 0%nat H0). lia.
Qed.

(** X1: an empty [aug1_embed] makes [SIMCLRLoss.forward] raise, in every
    state the module can be in: the one-hot encoding of an empty label
    vector with zero classes is an error.  The labels are already
    replaced by the empty vector when it happens; the mask and the
    recorded batch size are as before. *)
Theorem simclr_forward_empty_batch (e : Utils.env) (ps : Utils.peers)
        (self : SIMCLRLoss.t) (outputs : SIMCLRLoss.inputs) :
  simclr_reachable e self ->
  SIMCLRLoss.aug1_embed outputs = [] ->
  SIMCLRLoss.forward e ps self outputs
  = (SIMCLRLoss.mk (SIMCLRLoss.tau self) (Some []) (SIMCLRLoss.masks self)
                   (SIMCLRLoss.last_local_batch_size self),
     Err TorchError).
Proof.
  intros Hr Hempty. rewrite simclr_forward_unfold. cbv zeta.
  rewrite Hempty. cbn [length].
  rewrite simclr_update_cache_empty; [reflexivity|].
  apply (simclr_reachable_not_empty e self Hr).
Qed.

Lemma simclr_forward_empty_batch_witness :
  SIMCLRLoss.forward single_process (fun _ _ => []) (SIMCLRLoss.init 0.1)
                     (SIMCLRLoss.mk_inputs [] [])
  = (SIMCLRLoss.mk 0.1 (Some []) None None, Err TorchError).
Proof.
  apply (simclr_forward_empty_batch single_process (fun _ _ => [])
           (SIMCLRLoss.init 0.1) (SIMCLRLoss.mk_inputs [] [])).
  - apply simclr_reach_init.
  - reflexivity.
Defined.

Lemma simclr_forward_returns_inv (e : Utils.env) (ps : Utils.peers)
      (self self' : SIMCLRLoss.t) (outputs : SIMCLRLoss.inputs) (out : dict) :
  SIMCLRLoss.forward e ps self outputs = (self', Ok out) ->
  SIMCLRLoss.losses self' (length (SIMCLRLoss.aug1_embed outputs))
    (Torch.normalize (SIMCLRLoss.aug1_embed outputs))
    (Torch.normalize (SIMCLRLoss.aug2_embed outputs))
    (Utils.gather_one e (ps 0%nat)
                      (Torch.normalize (SIMCLRLoss.aug1_embed outputs)))
    (Utils.gather_one e (ps 1%nat)
                      (Torch.normalize (SIMCLRLoss.aug2_embed outputs)))
  = Ok out.
Proof.
  rewrite simclr_forward_unfold. cbv zeta.
  destruct (SIMCLRLoss.update_cache _ _ _) as [s [u|er]]; [|discriminate].
  intros H. injection H as Hs Ho. subst s. exact Ho.
Qed.

Lemma simclr_forward_returns_positive (e : Utils.env) (ps : Utils.peers)
      (self self' : SIMCLRLoss.t) (outputs : SIMCLRLoss.inputs) (out : dict) :
  simclr_reachable e self ->
  SIMCLRLoss.forward e ps self outputs = (self', Ok out) ->
  (0 < length (SIMCLRLoss.aug1_embed outputs))%nat.
Proof.
  intros Hr Hf.
  pose proof (simclr_reach_forward e self ps outputs Hr) as Hr'.
  rewrite Hf in Hr'. cbn [fst] in Hr'.
  apply (simclr_reachable_recorded e self' Hr').
  apply (simclr_records_size e ps self self' outputs out Hf).
Qed.

Lemma simclr_returns_rows_eq (e : Utils.env) (ps : Utils.peers)
      (self self' : SIMCLRLoss.t) (outputs : SIMCLRLoss.inputs) (out : dict) :
  SIMCLRLoss.forward e ps self outputs = (self', Ok out) ->
  length (SIMCLRLoss.aug2_embed outputs) = length (SIMCLRLoss.aug1_embed outputs).
Proof.
  intros Hf.
  destruct (simclr_losses_inv _ _ _ _ _ _ _ (simclr_forward_returns_inv _ _ _ _ _ _ Hf))
    as (l & cat_a & cat_b & la & lb & pred & correct
        & _ & Ha & Hb & Ea & Eb & _).
  apply cross_entropy_length in Ea, Eb.
  rewrite !normalize_length in *. congruence.
Qed.

Lemma simclr_returns_loss (e : Utils.env) (ps : Utils.peers)
      (self self' : SIMCLRLoss.t) (outputs : SIMCLRLoss.inputs) (out : dict) :
  SIMCLRLoss.forward e ps self outputs = (self', Ok out) ->
  exists v a, out = [("loss"%string, v); ("ssl_loss"%string, v); ("ssl_acc"%string, a)]
              /\ 0 <= v.
Proof.
  intros Hf.
  destruct (simclr_losses_inv _ _ _ _ _ _ _ (simclr_forward_returns_inv _ _ _ _ _ _ Hf))
    as (l & cat_a & cat_b & la & lb & pred & correct
        & _ & _ & _ & Ea & Eb & _ & _ & ->).
  do 2 eexists. split; [reflexivity|].
  pose proof (cross_entropy_nonneg _ _ _ Ea).
  pose proof (cross_entropy_nonneg _ _ _ Eb). lra.
Qed.

(** X2: a call of [SIMCLRLoss.forward] returns only if [aug1_embed] and
    [aug2_embed] have the same number of rows, and at least one: the two
    cross-entropies are taken against one label vector. *)
Theorem simclr_forward_returns_same_rows (e : Utils.env) (ps : Utils.peers)
        (self self' : SIMCLRLoss.t) (outputs : SIMCLRLoss.inputs) (out : dict) :
  simclr_reachable e self ->
  SIMCLRLoss.forward e ps self outputs = (self', Ok out) ->
  length (SIMCLRLoss.aug2_embed outputs) = length (SIMCLRLoss.aug1_embed outputs)
  /\ (0 < length (SIMCLRLoss.aug1_embed outputs))%nat.
Proof.
  intros Hr Hf. split.
  - apply (simclr_returns_rows_eq e ps self self' outputs out Hf).
  - apply (simclr_forward_returns_positive e ps self self' outputs out Hr Hf).
Qed.

Lemma pair_inputs_run :
  SIMCLRLoss.forward single_process (fun _ _ => []) (SIMCLRLoss.init 0.1) pair_inputs
  = (simclr_cached single_process 0.1 2,
     Ok (simclr_record single_process (fun _ _ => []) 0.1
                       [[1; 0]; [0; 1]] [[0; 1]; [1; 0]])).
Proof.
  apply (simclr_forward_ok single_process (fun _ _ => []) (SIMCLRLoss.init 0.1)
           [[1; 0]; [0; 1]] [[0; 1]; [1; 0]] 2 2).
  - exact single_process_valid.
  - lia.
  - concrete_shape.
  - concrete_shape.
  - apply valid_peers_single.
  - apply valid_peers_single.
  - exact I.
Qed.

Lemma simclr_forward_returns_same_rows_witness :
  length (SIMCLRLoss.aug2_embed pair_inputs)
  = length (SIMCLRLoss.aug1_embed pair_inputs)
  /\ (0 < length (SIMCLRLoss.aug1_embed pair_inputs))%nat.
Proof.
  exact (simclr_forward_returns_same_rows single_process (fun _ _ => [])
           (SIMCLRLoss.init 0.1) _ pair_inputs _
           (simclr_reach_init single_process 0.1) pair_inputs_run).
Defined.

(** X3: the record that [SIMCLRLoss.forward] returns has exactly the keys
    ["loss"], ["ssl_loss"] and ["ssl_acc"], in this order; ["loss"] and
    ["ssl_loss"] hold the same value, and that value is not negative. *)
Theorem simclr_forward_record (e : Utils.env) (ps : Utils.peers)
        (self self' : SIMCLRLoss.t) (outputs : SIMCLRLoss.inputs) (out : dict) :
  SIMCLRLoss.forward e ps self outputs = (self', Ok out) ->
  map fst out = ["loss"; "ssl_loss"; "ssl_acc"]%string
  /\ exists v, dict_get out "loss" = Some v /\ dict_get out "ssl_loss" = Some v
               /\ 0 <= v.
Proof.
  intros Hf.
  destruct (simclr_returns_loss e ps self self' outputs out Hf)
    as (v & a & -> & Hv).
  split; [reflexivity|]. exists v.
  split; [reflexivity|]. split; [reflexivity | exact Hv].
Qed.

Lemma simclr_forward_record_witness :
  exists out v,
    snd (SIMCLRLoss.forward single_process (fun _ _ => []) (SIMCLRLoss.init 0.1)
                            pair_inputs) = Ok out
    /\ dict_get out "loss" = Some v /\ 0 <= v.
Proof.
  destruct (simclr_forward_record single_process (fun _ _ => [])
              (SIMCLRLoss.init 0.1) _ pair_inputs _ pair_inputs_run)
    as (_ & v & Hl & _ & Hv).
  eexists; exists v. rewrite pair_inputs_run. split; [reflexivity|].
  split; [exact Hl | exact Hv].
Defined.

(** X4: the accuracy that [SIMCLRLoss.forward] returns under ["ssl_acc"]
    is [100 * k / n] for a count [k] of at most the [n] local samples; it
    lies between 0 and 100. *)
Theorem simclr_forward_accuracy_range (e : Utils.env) (ps : Utils.peers)
        (self self' : SIMCLRLoss.t) (outputs : SIMCLRLoss.inputs) (out : dict) :
  simclr_reachable e self ->
  SIMCLRLoss.forward e ps self outputs = (self', Ok out) ->
  let n := length (SIMCLRLoss.aug1_embed outputs) in
  exists k, (k <= n)%nat
            /\ dict_get out "ssl_acc" = Some (100 * INR k / INR n)
            /\ 0 <= 100 * INR k / INR n <= 100.
Proof.
  intros Hr Hf n.
  pose proof (simclr_forward_returns_positive e ps self self' outputs out Hr Hf)
    as Hn. fold n in Hn.
  destruct (simclr_losses_inv _ _ _ _ _ _ _ (simclr_forward_returns_inv _ _ _ _ _ _ Hf))
    as (l & cat_a & cat_b & la & lb & pred & correct
        & _ & Ha & _ & Ea & _ & Ep & Ec & ->).
  apply cross_entropy_length in Ea. apply argmax_length in Ep.
  rewrite normalize_length in Ha. fold n in Ha.
  assert (Hk : (correct <= n)%nat).
  { rewrite <- Ha, <- Ea. apply (eq_count_bound pred l); [congruence | exact Ec]. }
  exists correct. split; [exact Hk|]. split; [reflexivity|].
  assert (H0 : 0 < INR n) by (apply lt_0_INR; exact Hn).
  pose proof (pos_INR correct) as Hc. apply le_INR in Hk.
  split.
  - apply Rmult_le_pos; [lra | apply Rlt_le, Rinv_0_lt_compat, H0].
  - apply (Rmult_le_reg_r (INR n)); [exact H0|].
    unfold Rdiv. rewrite Rmult_assoc, Rinv_l by lra. lra.
Qed.

Lemma simclr_forward_accuracy_range_witness :
  exists out a,
    snd (SIMCLRLoss.forward single_process (fun _ _ => []) (SIMCLRLoss.init 0.1)
                            pair_inputs) = Ok out
    /\ dict_get out "ssl_acc" = Some a /\ 0 <= a <= 100.
Proof.
  destruct (simclr_forward_accuracy_range single_process (fun _ _ => [])
              (SIMCLRLoss.init 0.1) _ pair_inputs _
              (simclr_reach_init single_process 0.1) pair_inputs_run)
    as (k & _ & Ha & Hr).
  eexists; eexists. rewrite pair_inputs_run. split; [reflexivity|].
  split; [exact Ha | exact Hr].
Defined.

(** ** [ACLIPLoss.forward]: errors, shape of the result, ranges *)

Lemma aclip_forward_inner_state (e : Utils.env) (ps_ssl ps_clip : Utils.peers)
      (self : ACLIPLoss.t) (outputs : ACLIPLoss.inputs) :
  ACLIPLoss.simclr_loss (fst (ACLIPLoss.forward e ps_ssl ps_clip self outputs))
  = fst (SIMCLRLoss.forward e ps_ssl (ACLIPLoss.simclr_loss self) (ssl_inputs outputs)).
Proof.
  unfold ACLIPLoss.forward. fold (ssl_inputs outputs).
  destruct (SIMCLRLoss.forward _ _ _ _) as [simclr' [ssl|er]]; [|reflexivity].
  destruct (ACLIPLoss.loss_fn _ _) as [per_row|er]; [|reflexivity].
  cbv zeta. cbn [fst]. unfold ACLIPLoss.update_cache.
  destruct (size_changed _ _); reflexivity.
Qed.

Lemma aclip_reachable_inner (e : Utils.env) (self : ACLIPLoss.t) :
  aclip_reachable e self -> simclr_reachable e (ACLIPLoss.simclr_loss self).
Proof.
  induction 1 as [temperature | self ps_ssl ps_clip outputs _ IH].
  - apply simclr_reach_init.
  - rewrite aclip_forward_inner_state. apply simclr_reach_forward, IH.
Qed.

Lemma aclip_forward_inv (e : Utils.env) (ps_ssl ps_clip : Utils.peers)
      (self self' : ACLIPLoss.t) (outputs : ACLIPLoss.inputs) (out : dict) :
  ACLIPLoss.forward e ps_ssl ps_clip self outputs = (self', Ok out) ->
  exists simclr' ssl per_row,
    SIMCLRLoss.forward e ps_ssl (ACLIPLoss.simclr_loss self) (ssl_inputs outputs)
    = (simclr', Ok ssl)
    /\ ACLIPLoss.loss_fn (ACLIPLoss.byol_feats outputs)
         (ACLIPLoss.byol_feats_e outputs ++ ACLIPLoss.byol_feats_e outputs)
       = Ok per_row
    /\ ACLIPLoss.simclr_loss self' = simclr'
    /\ ACLIPLoss.losses e ps_clip self' outputs ssl (Torch.mean per_row) = Ok out.
Proof.
  unfold ACLIPLoss.forward. fold (ssl_inputs outputs).
  destruct (SIMCLRLoss.forward _ _ _ _) as [simclr' [ssl|er]]; [|discriminate].
  destruct (ACLIPLoss.loss_fn _ _) as [per_row|er]; [|discriminate].
  cbv zeta. intros H. injection H as Hs Ho.
  exists simclr', ssl, per_row. subst self'.
  split; [reflexivity|]. split; [reflexivity|]. split; [|exact Ho].
  unfold ACLIPLoss.update_cache. destruct (size_changed _ _); reflexivity.
Qed.

(** The returning runs of the part of [ACLIPLoss.forward] after the cache
    block, with everything they computed on the way. *)
Lemma aclip_losses_inv (e : Utils.env) (ps : Utils.peers) (self : ACLIPLoss.t)
      (outputs : ACLIPLoss.inputs) (ssl : dict) (byol : R) (out : dict) :
  ACLIPLoss.losses e ps self outputs ssl byol = Ok out ->
  exists l lpi1 lpt1 lpi2 lpt2 ci1 ct1 ci2 ct2 s pred correct,
    ACLIPLoss.labels self = Some l
    /\ length lpi1 = length (view1 outputs)
    /\ length lpt1 = length (ACLIPLoss.text_embed outputs)
    /\ length lpi2 = length (view2 outputs)
    /\ Torch.cross_entropy lpi1 l = Ok ci1 /\ Torch.cross_entropy lpt1 l = Ok ct1
    /\ Torch.cross_entropy lpi2 l = Ok ci2 /\ Torch.cross_entropy lpt2 l = Ok ct2
    /\ dict_get ssl "ssl_loss" = Some s
    /\ Torch.argmax lpi2 = Ok pred /\ Torch.eq_count pred l = Ok correct
    /\ out = [("loss"%string,
               0.5 * ((ci1 + ct1) / 2) + 0.5 * ((ci2 + ct2) / 2) + s + 2 * byol);
              ("simclr_loss"%string, s);
              ("im_byol_loss"%string, byol);
              ("contra_loss_1"%string, (ci1 + ct1) / 2);
              ("contra_loss_2"%string, (ci2 + ct2) / 2);
              ("clip_acc"%string,
               100 * INR correct / INR (length (ACLIPLoss.text_embed outputs)))].
Proof.
  unfold ACLIPLoss.losses.
  change (Utils.all_gather_batch_with_grad e ps ?x)
    with [Utils.gather_one e (ps 0%nat) (view1 outputs);
          Utils.gather_one e (ps 1%nat) (view2 outputs);
          Utils.gather_one e (ps 2%nat)
            (Torch.normalize (ACLIPLoss.text_embed outputs))].
  cbv iota beta. fold (view1 outputs). fold (view2 outputs).
  destruct (ACLIPLoss.labels self) as [l|]; [|discriminate].
  intros H.
  bind_inv H lpi1 E1. bind_inv H lpt1 E2. bind_inv H ci1 E3. bind_inv H ct1 E4.
  bind_inv H lpi2 E5. bind_inv H lpt2 E6. bind_inv H ci2 E7. bind_inv H ct2 E8.
  unfold dict_item in H.
  destruct (dict_get ssl "ssl_loss") as [s|] eqn:Es; [|discriminate].
  cbn [bind] in H. bind_inv H pred E9. bind_inv H correct E10.
  inversion H; subst out.
  exists l, lpi1, lpt1, lpi2, lpt2, ci1, ct1, ci2, ct2, s, pred, correct.
  apply matmul_t_length in E1, E2, E5.
  unfold Torch.scale in E1, E2, E5. rewrite length_map in E1, E2, E5.
  rewrite normalize_length in E2.
  repeat (split; [first [reflexivity | assumption]|]). reflexivity.
Qed.

(** X5: an empty [text_embed] makes [ACLIPLoss.forward] raise, in every
    state the module can be in: its SimCLR module is then called on an
    empty first batch.  The module's own labels and recorded batch size
    are as before. *)
Theorem aclip_forward_empty_batch (e : Utils.env) (ps_ssl ps_clip : Utils.peers)
        (self : ACLIPLoss.t) (outputs : ACLIPLoss.inputs) :
  aclip_reachable e self ->
  ACLIPLoss.text_embed outputs = [] ->
  exists self',
    ACLIPLoss.forward e ps_ssl ps_clip self outputs = (self', Err TorchError)
    /\ ACLIPLoss.labels self' = ACLIPLoss.labels self
    /\ ACLIPLoss.last_local_batch_size self'
       = ACLIPLoss.last_local_batch_size self.
Proof.
  intros Hr Hempty. unfold ACLIPLoss.forward. fold (ssl_inputs outputs).
  pose proof (simclr_empty_raises e ps_ssl (ACLIPLoss.simclr_loss self)
                (ssl_inputs outputs)
                (simclr_reachable_not_empty e _ (aclip_reachable_inner e self Hr)))
    as Hraise.
  destruct (SIMCLRLoss.forward _ _ _ _) as [simclr' r]. cbn [snd] in Hraise.
  rewrite Hraise by (unfold ssl_inputs; rewrite Hempty; reflexivity).
  eexists. split; [reflexivity|]. split; reflexivity.
Qed.

Lemma aclip_forward_empty_batch_witness :
  exists self',
    ACLIPLoss.forward single_process (fun _ _ => []) (fun _ _ => [])
      (ACLIPLoss.init 0.1)
      (ACLIPLoss.mk_inputs [[1; 0]] [] 1 [[1; 0]] [[1; 0]] []) = (self', Err TorchError)
    /\ ACLIPLoss.labels self' = None.
Proof.
  destruct (aclip_forward_empty_batch single_process (fun _ _ => []) (fun _ _ => [])
              (ACLIPLoss.init 0.1)
              (ACLIPLoss.mk_inputs [[1; 0]] [] 1 [[1; 0]] [[1; 0]] []))
    as (self' & Hf & Hl & _).
  - apply aclip_reach_init.
  - reflexivity.
  - exists self'. split; [exact Hf | exact Hl].
Defined.

(** X6: a call of [ACLIPLoss.forward] returns only if there is at least
    one text row and [image_embed] and [image_ssl_embed] each have twice
    as many rows as [text_embed]: the logits of either image view and
    either SimCLR batch are classified against one label per text row. *)
Theorem aclip_forward_returns_two_views (e : Utils.env)
        (ps_ssl ps_clip : Utils.peers) (self self' : ACLIPLoss.t)
        (outputs : ACLIPLoss.inputs) (out : dict) :
  aclip_reachable e self ->
  ACLIPLoss.forward e ps_ssl ps_clip self outputs = (self', Ok out) ->
  let n := length (ACLIPLoss.text_embed outputs) in
  (0 < n)%nat
  /\ length (ACLIPLoss.image_embed outputs) = (2 * n)%nat
  /\ length (ACLIPLoss.image_ssl_embed outputs) = (2 * n)%nat.
Proof.
  intros Hr Hf n.
  destruct (aclip_forward_inv _ _ _ _ _ _ _ Hf)
    as (simclr' & ssl & per_row & Hs & _ & _ & Hl).
  pose proof (simclr_returns_rows_eq e ps_ssl _ _ _ _ Hs) as Hrows.
  pose proof (simclr_forward_returns_positive e ps_ssl _ _ _ _
                (aclip_reachable_inner e self Hr) Hs) as Hpos.
  unfold ssl_inputs in Hrows, Hpos.
  cbn [SIMCLRLoss.aug1_embed SIMCLRLoss.aug2_embed] in Hrows, Hpos.
  fold n in Hrows, Hpos. rewrite length_firstn in Hpos, Hrows.
  rewrite length_skipn in Hrows.
  destruct (aclip_losses_inv _ _ _ _ _ _ _ Hl)
    as (l & lpi1 & lpt1 & lpi2 & lpt2 & ci1 & ct1 & ci2 & ct2 & s & pred & correct
        & _ & L1 & L2 & L3 & C1 & C2 & C3 & _).
  apply cross_entropy_length in C1, C2, C3.
  unfold view1 in L1. unfold view2 in L3. fold n in L1, L2, L3.
  rewrite length_firstn, normalize_length in L1.
  rewrite length_skipn, normalize_length in L3.
  lia.
Qed.

Lemma sample_inputs_run :
  ACLIPLoss.forward single_process (fun _ _ => []) (fun _ _ => [])
                    (ACLIPLoss.init 0.1) sample_inputs
  = (aclip_cached single_process 0.1 1,
     Ok (aclip_record single_process (fun _ _ => []) (fun _ _ => []) 0.1
                      sample_inputs)).
Proof.
  apply (aclip_forward_ok single_process _ _ (ACLIPLoss.init 0.1) sample_inputs
                          1 2 1 1).
  - exact single_process_valid.
  - exact sample_inputs_valid.
  - apply valid_ssl_peers_single.
  - apply valid_clip_peers_single.
  - apply aclip_init_cache_valid.
Qed.

Lemma aclip_forward_returns_two_views_witness :
  (0 < length (ACLIPLoss.text_embed sample_inputs))%nat
  /\ length (ACLIPLoss.image_embed sample_inputs)
     = (2 * length (ACLIPLoss.text_embed sample_inputs))%nat
  /\ length (ACLIPLoss.image_ssl_embed sample_inputs)
     = (2 * length (ACLIPLoss.text_embed sample_inputs))%nat.
Proof.
  exact (aclip_forward_returns_two_views single_process _ _ _ _ sample_inputs _
           (aclip_reach_init single_process 0.1) sample_inputs_run).
Defined.

(** X7: the keys of the record that [ACLIPLoss.forward] returns are the
    names that [get_metric_names] lists, in the same order, and every
    listed name has a value in the record. *)
Theorem aclip_forward_metric_names (e : Utils.env) (ps_ssl ps_clip : Utils.peers)
        (self self' : ACLIPLoss.t) (outputs : ACLIPLoss.inputs) (out : dict) :
  ACLIPLoss.forward e ps_ssl ps_clip self outputs = (self', Ok out) ->
  map fst out = get_metric_names
  /\ forall name, In name get_metric_names -> exists v, dict_get out name = Some v.
Proof.
  intros Hf.
  destruct (aclip_forward_inv _ _ _ _ _ _ _ Hf)
    as (simclr' & ssl & per_row & _ & _ & _ & Hl).
  destruct (aclip_losses_inv _ _ _ _ _ _ _ Hl)
    as (l & lpi1 & lpt1 & lpi2 & lpt2 & ci1 & ct1 & ci2 & ct2 & s & pred & correct
        & _ & _ & _ & _ & _ & _ & _ & _ & _ & _ & _ & ->).
  split; [reflexivity|].
  intros name Hin. unfold get_metric_names in Hin. simpl in Hin.
  repeat (destruct Hin as [<- | Hin]; [eexists; reflexivity|]).
  contradiction.
Qed.

Lemma aclip_forward_metric_names_witness :
  exists out,
    snd (ACLIPLoss.forward single_process (fun _ _ => []) (fun _ _ => [])
                           (ACLIPLoss.init 0.1) sample_inputs) = Ok out
    /\ map fst out = get_metric_names.
Proof.
  destruct (aclip_forward_metric_names single_process _ _ _ _ sample_inputs _
              sample_inputs_run) as [Hk _].
  eexists. rewrite sample_inputs_run. split; [reflexivity | exact Hk].
Defined.

(** X8: [ACLIPLoss.forward] reports under ["simclr_loss"] the value that
    its SimCLR module returns under ["ssl_loss"] (and ["loss"]) for the
    first [n] and the remaining rows of [image_ssl_embed], [n] being the
    number of text rows; the SimCLR module is left in the state that
    this call of its [forward] produces. *)
Theorem aclip_forward_uses_simclr (e : Utils.env) (ps_ssl ps_clip : Utils.peers)
        (self self' : ACLIPLoss.t) (outputs : ACLIPLoss.inputs) (out : dict) :
  ACLIPLoss.forward e ps_ssl ps_clip self outputs = (self', Ok out) ->
  exists ssl v,
    SIMCLRLoss.forward e ps_ssl (ACLIPLoss.simclr_loss self)
      (SIMCLRLoss.mk_inputs
         (firstn (length (ACLIPLoss.text_embed outputs))
                 (ACLIPLoss.image_ssl_embed outputs))
         (skipn (length (ACLIPLoss.text_embed outputs))
                (ACLIPLoss.image_ssl_embed outputs)))
    = (ACLIPLoss.simclr_loss self', Ok ssl)
    /\ dict_get ssl "ssl_loss" = Some v /\ dict_get ssl "loss" = Some v
    /\ dict_get out "simclr_loss" = Some v.
Proof.
  intros Hf.
  destruct (aclip_forward_inv _ _ _ _ _ _ _ Hf)
    as (simclr' & ssl & per_row & Hs & _ & Hst & Hl).
  destruct (aclip_losses_inv _ _ _ _ _ _ _ Hl)
    as (l & lpi1 & lpt1 & lpi2 & lpt2 & ci1 & ct1 & ci2 & ct2 & s & pred & correct
        & _ & _ & _ & _ & _ & _ & _ & _ & Hssl & _ & _ & ->).
  destruct (simclr_returns_loss _ _ _ _ _ _ Hs) as (v & a & Hform & _).
  exists ssl, s. rewrite Hst. split; [exact Hs|].
  split; [exact Hssl|]. split; [|reflexivity].
  subst ssl. cbn [dict_get String.eqb Ascii.eqb Bool.eqb] in Hssl |- *. exact Hssl.
Qed.

Lemma aclip_forward_uses_simclr_witness :
  exists out ssl v,
    snd (ACLIPLoss.forward single_process (fun _ _ => []) (fun _ _ => [])
                           (ACLIPLoss.init 0.1) sample_inputs) = Ok out
    /\ snd (SIMCLRLoss.forward single_process (fun _ _ => []) (SIMCLRLoss.init 0.1)
                               (SIMCLRLoss.mk_inputs [[1]] [[2]])) = Ok ssl
    /\ dict_get ssl "ssl_loss" = Some v /\ dict_get out "simclr_loss" = Some v.
Proof.
  destruct (aclip_forward_uses_simclr single_process _ _ _ _ sample_inputs _
              sample_inputs_run) as (ssl & v & Hs & Hv & _ & Ho).
  eexists; exists ssl, v. rewrite sample_inputs_run. split; [reflexivity|].
  split; [|split; [exact Hv | exact Ho]].
  cbn [sample_inputs ACLIPLoss.text_embed ACLIPLoss.image_ssl_embed length
       firstn skipn ACLIPLoss.init ACLIPLoss.simclr_loss] in Hs.
  rewrite Hs. reflexivity.
Defined.

(** X9: in the record that [ACLIPLoss.forward] returns, ["contra_loss_1"],
    ["contra_loss_2"] and ["simclr_loss"] are not negative, and
    ["clip_acc"] is [100 * k / n] for a count [k] of at most the [n]
    text rows, between 0 and 100. *)
Theorem aclip_forward_ranges (e : Utils.env) (ps_ssl ps_clip : Utils.peers)
        (self self' : ACLIPLoss.t) (outputs : ACLIPLoss.inputs) (out : dict) :
  aclip_reachable e self ->
  ACLIPLoss.forward e ps_ssl ps_clip self outputs = (self', Ok out) ->
  let n := length (ACLIPLoss.text_embed outputs) in
  exists c1 c2 s k,
    dict_get out "contra_loss_1" = Some c1 /\ 0 <= c1
    /\ dict_get out "contra_loss_2" = Some c2 /\ 0 <= c2
    /\ dict_get out "simclr_loss" = Some s /\ 0 <= s
    /\ (k <= n)%nat
    /\ dict_get out "clip_acc" = Some (100 * INR k / INR n)
    /\ 0 <= 100 * INR k / INR n <= 100.
Proof.
  intros Hr Hf n.
  destruct (aclip_forward_inv _ _ _ _ _ _ _ Hf)
    as (simclr' & ssl & per_row & Hs & _ & _ & Hl).
  assert (Hn : (0 < n)%nat).
  { pose proof (simclr_forward_returns_positive e ps_ssl _ _ _ _
                  (aclip_reachable_inner e self Hr) Hs) as Hpos.
    unfold ssl_inputs in Hpos. cbn [SIMCLRLoss.aug1_embed] in Hpos.
    rewrite length_firstn in Hpos. fold n in Hpos. lia. }
  destruct (simclr_returns_loss _ _ _ _ _ _ Hs) as (v & a & Hform & Hpos).
  destruct (aclip_losses_inv _ _ _ _ _ _ _ Hl)
    as (l & lpi1 & lpt1 & lpi2 & lpt2 & ci1 & ct1 & ci2 & ct2 & s & pred & correct
        & _ & _ & L2 & L3 & C1 & C2 & C3 & C4 & Hssl & Ep & Ec & ->).
  subst ssl. cbn [dict_get String.eqb Ascii.eqb Bool.eqb] in Hssl.
  inversion Hssl; subst s.
  pose proof (cross_entropy_nonneg _ _ _ C1).
  pose proof (cross_entropy_nonneg _ _ _ C2).
  pose proof (cross_entropy_nonneg _ _ _ C3).
  pose proof (cross_entropy_nonneg _ _ _ C4).
  apply cross_entropy_length in C2, C3. apply argmax_length in Ep.
  fold n in L2.
  assert (Hk : (correct <= n)%nat).
  { rewrite <- L2, <- C2. apply (eq_count_bound pred l); [congruence | exact Ec]. }
  exists ((ci1 + ct1) / 2), ((ci2 + ct2) / 2), v, correct.
  split; [reflexivity|]. split; [lra|]. split; [reflexivity|]. split; [lra|].
  split; [reflexivity|]. split; [exact Hpos|]. split; [exact Hk|].
  split; [reflexivity|].
  assert (Hpn : 0 < INR n) by (apply lt_0_INR; exact Hn).
  pose proof (pos_INR correct) as Hc. apply le_INR in Hk.
  split.
  - apply Rmult_le_pos; [lra | apply Rlt_le, Rinv_0_lt_compat, Hpn].
  - apply (Rmult_le_reg_r (INR n)); [exact Hpn|].
    unfold Rdiv. rewrite Rmult_assoc, Rinv_l by lra. lra.
Qed.

Lemma aclip_forward_ranges_witness :
  exists out c1 a,
    snd (ACLIPLoss.forward single_process (fun _ _ => []) (fun _ _ => [])
                           (ACLIPLoss.init 0.1) sample_inputs) = Ok out
    /\ dict_get out "contra_loss_1" = Some c1 /\ 0 <= c1
    /\ dict_get out "clip_acc" = Some a /\ 0 <= a <= 100.
Proof.
  destruct (aclip_forward_ranges single_process _ _ _ _ sample_inputs _
              (aclip_reach_init single_process 0.1) sample_inputs_run)
    as (c1 & c2 & s & k & H1 & P1 & _ & _ & _ & _ & _ & Ha & Hr).
  eexists; exists c1; eexists. rewrite sample_inputs_run.
  split; [reflexivity|]. split; [exact H1|]. split; [exact P1|].
  split; [exact Ha | exact Hr].
Defined.

(** ** Normalized rows and their dot products *)

Lemma sum_squares_div (d : R) (v : list R) :
  Torch.sum (map (fun x => x * x) (map (fun x => x / d) v))
  = Torch.sum (map (fun x => x * x) v) * (/ d * / d).
Proof.
  induction v as [|x v IH]; simpl; [ring|]. rewrite IH. unfold Rdiv. ring.
Qed.

(** A row divided by a positive number that is at least its norm has a
    sum of squares of at most one. *)
Lemma sum_squares_clamped (eps : R) (v : list R) :
  0 < eps ->
  Torch.sum (map (fun x => x * x)
                 (map (fun x => x / Rmax (Torch.norm2 v) eps) v)) <= 1.
Proof.
  intros He. set (d := Rmax (Torch.norm2 v) eps).
  assert (Hd : 0 < d) by (unfold d; pose proof (Rmax_r (Torch.norm2 v) eps); lra).
  assert (Hn : Torch.norm2 v <= d) by apply Rmax_l.
  pose proof (sum_squares_nonneg v) as Hs.
  assert (Hsq : Torch.sum (map (fun x => x * x) v) <= d * d).
  { rewrite <- (sqrt_sqrt _ Hs). pose proof (norm2_nonneg v) as H0.
    unfold Torch.norm2 in Hn, H0.
    apply Rmult_le_compat; assumption. }
  rewrite sum_squares_div.
  replace (/ d * / d) with (/ (d * d)) by (rewrite Rinv_mult; reflexivity).
  apply (Rmult_le_reg_r (d * d)); [nra|].
  rewrite Rmult_assoc, Rinv_l by nra. lra.
Qed.

Lemma normalize_row_bounded (v : list R) :
  Torch.sum (map (fun x => x * x) (Torch.normalize_row v)) <= 1.
Proof.
  unfold Torch.normalize_row. apply sum_squares_clamped.
  unfold Torch.normalize_eps. lra.
Qed.

Lemma dot_le_squares (u v : list R) :
  2 * Torch.dot u v
  <= Torch.sum (map (fun x => x * x) u) + Torch.sum (map (fun x => x * x) v)
  /\ - (2 * Torch.dot u v)
     <= Torch.sum (map (fun x => x * x) u) + Torch.sum (map (fun x => x * x) v).
Proof.
  unfold Torch.dot. revert v. induction u as [|x u IH]; intros [|y v]; simpl.
  - lra.
  - pose proof (sum_squares_nonneg (y :: v)) as H. simpl in H. lra.
  - pose proof (sum_squares_nonneg (x :: u)) as H. simpl in H. lra.
  - destruct (IH v) as [H1 H2].
    pose proof (Rle_0_sqr (x - y)) as Hm. pose proof (Rle_0_sqr (x + y)) as Hp.
    unfold Rsqr in Hm, Hp. split; lra.
Qed.

Lemma dot_bounded (u v : list R) :
  Torch.sum (map (fun x => x * x) u) <= 1 ->
  Torch.sum (map (fun x => x * x) v) <= 1 ->
  -1 <= Torch.dot u v <= 1.
Proof.
  intros Hu Hv. destruct (dot_le_squares u v) as [H1 H2]. lra.
Qed.

Lemma normalized_dot_bounded (u v : list R) :
  -1 <= Torch.dot (Torch.normalize_row u) (Torch.normalize_row v) <= 1.
Proof. apply dot_bounded; apply normalize_row_bounded. Qed.

Lemma rows2_Forall {A : Type} (P : A -> Prop) (f : list R -> list R -> A)
      (a b : list (list R)) :
  (forall u v, P (f u v)) -> Forall P (rows2 f a b).
Proof.
  intros H. unfold rows2. apply Forall_map, Forall_forall. intros [u v] _. apply H.
Qed.

Lemma rows2_nonempty {A : Type} (f : list R -> list R -> A) (a b : list (list R)) :
  length a = length b -> (0 < length a)%nat -> rows2 f a b <> [].
Proof.
  intros Hab Ha Hnil. apply (f_equal (@length A)) in Hnil.
  rewrite rows2_length in Hnil by exact Hab. simpl in Hnil. lia.
Qed.

(** X10: in exact arithmetic (the reals of this model; a float result can
    pass a bound by a rounding error), when [byol_feats] has [2n] rows and
    [byol_feats_e] has [n] rows of the same width, with [n] positive, the
    value that [ACLIPLoss.forward] returns under ["im_byol_loss"] lies
    between 0 and 4, and the value under ["loss"] is not negative. *)
Theorem aclip_forward_byol_range (e : Utils.env) (ps_ssl ps_clip : Utils.peers)
        (self self' : ACLIPLoss.t) (outputs : ACLIPLoss.inputs) (out : dict)
        (n d : nat) :
  (0 < n)%nat ->
  has_shape (ACLIPLoss.byol_feats outputs) (n + n) d ->
  has_shape (ACLIPLoss.byol_feats_e outputs) n d ->
  ACLIPLoss.forward e ps_ssl ps_clip self outputs = (self', Ok out) ->
  exists b v,
    dict_get out "im_byol_loss" = Some b /\ 0 <= b <= 4
    /\ dict_get out "loss" = Some v /\ 0 <= v.
Proof.
  intros Hn Hb Hbe Hf.
  destruct (aclip_forward_inv _ _ _ _ _ _ _ Hf)
    as (simclr' & ssl & per_row & Hs & Hloss & _ & Hl).
  rewrite (loss_fn_ok _ _ (n + n) d Hb (app_shape _ _ _ _ _ Hbe Hbe)) in Hloss.
  inversion Hloss as [Hrows]. clear Hloss.
  assert (Hrange : 0 <= Torch.mean per_row <= 4).
  { subst per_row. apply mean_between.
    - apply rows2_nonempty.
      + rewrite length_app, (has_shape_length _ _ _ Hb), (has_shape_length _ _ _ Hbe).
        reflexivity.
      + rewrite (has_shape_length _ _ _ Hb). lia.
    - apply rows2_Forall. intros u v.
      pose proof (normalized_dot_bounded u v). lra. }
  destruct (simclr_returns_loss _ _ _ _ _ _ Hs) as (s0 & a & Hform & Hpos).
  destruct (aclip_losses_inv _ _ _ _ _ _ _ Hl)
    as (l & lpi1 & lpt1 & lpi2 & lpt2 & ci1 & ct1 & ci2 & ct2 & s & pred & correct
        & _ & _ & _ & _ & C1 & C2 & C3 & C4 & Hssl & _ & _ & ->).
  subst ssl. cbn [dict_get String.eqb Ascii.eqb Bool.eqb] in Hssl.
  inversion Hssl; subst s.
  pose proof (cross_entropy_nonneg _ _ _ C1).
  pose proof (cross_entropy_nonneg _ _ _ C2).
  pose proof (cross_entropy_nonneg _ _ _ C3).
  pose proof (cross_entropy_nonneg _ _ _ C4).
  do 2 eexists. split; [reflexivity|]. split; [exact Hrange|].
  split; [reflexivity|]. lra.
Qed.

Lemma aclip_forward_byol_range_witness :
  exists out b v,
    snd (ACLIPLoss.forward single_process (fun _ _ => []) (fun _ _ => [])
                           (ACLIPLoss.init 0.1) sample_inputs) = Ok out
    /\ dict_get out "im_byol_loss" = Some b /\ 0 <= b <= 4
    /\ dict_get out "loss" = Some v /\ 0 <= v.
Proof.
  destruct (aclip_forward_byol_range single_process (fun _ _ => []) (fun _ _ => [])
              (ACLIPLoss.init 0.1) (aclip_cached single_process 0.1 1)
              sample_inputs
              (aclip_record single_process (fun _ _ => []) (fun _ _ => []) 0.1
                            sample_inputs) 1 1)
    as (b & v & H).
  - lia.
  - concrete_shape.
  - concrete_shape.
  - exact sample_inputs_run.
  - eexists; exists b, v. rewrite sample_inputs_run. split; [reflexivity | exact H].
Defined.

(** ** [cal_simsiam_loss]: range, identical operands, zero rows, symmetry *)

Lemma cosine_row_bounded (u v : list R) : -1 <= Torch.cosine_row u v <= 1.
Proof.
  unfold Torch.cosine_row.
  apply dot_bounded; apply sum_squares_clamped; unfold Torch.cosine_eps; lra.
Qed.

Lemma supported_versions_same_shape (p z : list (list R)) (version : string)
      (n d : nat) :
  version = "original"%string \/ version = "simplified"%string ->
  has_shape p n d -> has_shape z n d ->
  exists f,
    cal_simsiam_loss p z version = Ok (- Torch.mean (rows2 f p z))
    /\ (f = (fun u v => Torch.dot (Torch.normalize_row u) (Torch.normalize_row v))
        \/ f = Torch.cosine_row).
Proof.
  intros [-> | ->] Hp Hz.
  - eexists. split; [apply (original_same_shape p z n d Hp Hz)|]. left; reflexivity.
  - eexists. split; [apply (simplified_same_shape p z n d Hp Hz)|]. right; reflexivity.
Qed.

(** X11: in exact arithmetic (the reals of this model; a float result can
    pass a bound by a rounding error), on two batches of the same shape
    with at least one row, either supported version of [cal_simsiam_loss]
    returns a value between -1 and 1. *)
Theorem cal_simsiam_loss_range (p z : list (list R)) (version : string) (n d : nat) :
  version = "original"%string \/ version = "simplified"%string ->
  (0 < n)%nat -> has_shape p n d -> has_shape z n d ->
  exists v, cal_simsiam_loss p z version = Ok v /\ -1 <= v <= 1.
Proof.
  intros Hv Hn Hp Hz.
  destruct (supported_versions_same_shape p z version n d Hv Hp Hz) as (f & Hf & Hcase).
  eexists. split; [exact Hf|].
  assert (Hm : -1 <= Torch.mean (rows2 f p z) <= 1).
  { apply mean_between.
    - apply rows2_nonempty.
      + rewrite (has_shape_length _ _ _ Hp), (has_shape_length _ _ _ Hz). reflexivity.
      + rewrite (has_shape_length _ _ _ Hp). exact Hn.
    - apply rows2_Forall. intros u v. destruct Hcase as [-> | ->].
      + apply normalized_dot_bounded.
      + apply cosine_row_bounded. }
  lra.
Qed.

Lemma cal_simsiam_loss_range_witness :
  exists v, cal_simsiam_loss [[3; 4]; [1; 0]] [[0; 2]; [1; 1]] "simplified" = Ok v
            /\ -1 <= v <= 1.
Proof.
  apply (cal_simsiam_loss_range [[3; 4]; [1; 0]] [[0; 2]; [1; 1]] "simplified" 2 2).
  - right; reflexivity.
  - lia.
  - concrete_shape.
  - concrete_shape.
Defined.

Lemma dot_self (u : list R) : Torch.dot u u = Torch.sum (map (fun x => x * x) u).
Proof.
  unfold Torch.dot. induction u as [|x u IH]; simpl; [reflexivity|].
  rewrite IH. reflexivity.
Qed.

Lemma cosine_self (u : list R) : 0 < Torch.norm2 u -> cosine u u = 1.
Proof.
  intros Hn. unfold cosine. rewrite dot_self.
  unfold Torch.norm2 in *. rewrite sqrt_sqrt by apply sum_squares_nonneg.
  apply Rinv_r. intros H0. rewrite H0, sqrt_0 in Hn. lra.
Qed.

Lemma rows2_diag {A : Type} (f : list R -> list R -> A) (a : list (list R)) :
  rows2 f a a = map (fun u => f u u) a.
Proof.
  unfold rows2. induction a as [|u a IH]; simpl; [reflexivity|].
  rewrite IH. reflexivity.
Qed.

(** X12: in exact arithmetic (the reals of this model; floats reach the
    value up to rounding, and only while the squared norms do not
    overflow), the negative cosine similarity of a batch with itself is
    -1, in either supported version, when the batch has at least one row
    and every row has an L2 norm of at least [1e-8]. *)
Theorem cal_simsiam_loss_self (p : list (list R)) (version : string) (n d : nat) :
  version = "original"%string \/ version = "simplified"%string ->
  (0 < n)%nat -> has_shape p n d ->
  Forall (fun r => Torch.cosine_eps <= Torch.norm2 r) p ->
  cal_simsiam_loss p p version = Ok (-1).
Proof.
  intros Hv Hn Hp Hlarge.
  destruct (supported_versions_same_shape p p version n d Hv Hp Hp) as (f & Hf & Hcase).
  rewrite Hf. apply f_equal.
  assert (Hm : 1 <= Torch.mean (rows2 f p p) <= 1).
  { apply mean_between.
    - apply rows2_nonempty; [reflexivity|].
      rewrite (has_shape_length _ _ _ Hp). exact Hn.
    - rewrite rows2_diag. apply Forall_map.
      eapply Forall_impl; [|exact Hlarge]. intros u Hu; simpl.
      assert (Hpos : 0 < Torch.norm2 u) by (unfold Torch.cosine_eps in Hu; lra).
      assert (Hone : f u u = 1).
      { destruct Hcase as [-> | ->].
        - rewrite normalized_dot_large by exact Hu. apply cosine_self, Hpos.
        - rewrite cosine_row_large by exact Hu. apply cosine_self, Hpos. }
      rewrite Hone. lra. }
  lra.
Qed.

Lemma cal_simsiam_loss_self_witness :
  cal_simsiam_loss [[3; 4]; [1; 0]] [[3; 4]; [1; 0]] "original" = Ok (-1).
Proof.
  apply (cal_simsiam_loss_self [[3; 4]; [1; 0]] "original" 2 2).
  - left; reflexivity.
  - lia.
  - concrete_shape.
  - apply Forall_cons; [|apply Forall_cons; [|apply Forall_nil]];
      apply norm2_lower; unfold Torch.cosine_eps; simpl; lra.
Defined.

Lemma dot_comm (u v : list R) : Torch.dot u v = Torch.dot v u.
Proof.
  unfold Torch.dot. revert v. induction u as [|x u IH]; intros [|y v]; simpl;
    try reflexivity.
  rewrite IH. ring.
Qed.

Lemma rows2_flip {A : Type} (f : list R -> list R -> A) (a b : list (list R)) :
  rows2 f a b = rows2 (fun u v => f v u) b a.
Proof.
  unfold rows2. revert b. induction a as [|u a IH]; intros [|v b]; simpl;
    try reflexivity.
  rewrite IH. reflexivity.
Qed.

(** X13: on two batches of the same shape, [cal_simsiam_loss] returns the
    same value when prediction and target trade places, in either
    supported version (only the gradient, which is not modelled, tells
    them apart). *)
Theorem cal_simsiam_loss_symmetric (p z : list (list R)) (version : string)
        (n d : nat) :
  version = "original"%string \/ version = "simplified"%string ->
  has_shape p n d -> has_shape z n d ->
  cal_simsiam_loss z p version = cal_simsiam_loss p z version.
Proof.
  intros [-> | ->] Hp Hz.
  - rewrite (original_same_shape p z n d Hp Hz), (original_same_shape z p n d Hz Hp).
    rewrite (rows2_flip _ z p). do 3 f_equal. apply rows2_ext.
    intros u v _ _. apply dot_comm.
  - rewrite (simplified_same_shape p z n d Hp Hz),
      (simplified_same_shape z p n d Hz Hp).
    rewrite (rows2_flip _ z p). do 3 f_equal. apply rows2_ext.
    intros u v _ _. unfold Torch.cosine_row. apply dot_comm.
Qed.

Lemma cal_simsiam_loss_symmetric_witness :
  cal_simsiam_loss [[0; 2]; [1; 1]] [[3; 4]; [1; 0]] "simplified"
  = cal_simsiam_loss [[3; 4]; [1; 0]] [[0; 2]; [1; 1]] "simplified".
Proof.
  apply (cal_simsiam_loss_symmetric [[3; 4]; [1; 0]] [[0; 2]; [1; 1]]
           "simplified" 2 2).
  - right; reflexivity.
  - concrete_shape.
  - concrete_shape.
Defined.

Lemma dot_zero_l (u v : list R) : Forall (fun x => x = 0) u -> Torch.dot u v = 0.
Proof.
  unfold Torch.dot. intros H. revert v.
  induction H as [|x u Hx _ IH]; intros [|y v]; simpl; try reflexivity.
  rewrite IH, Hx. ring.
Qed.

Lemma map_div_zero (d : R) (u : list R) :
  Forall (fun x => x = 0) u -> Forall (fun x => x = 0) (map (fun x => x / d) u).
Proof.
  intros H. apply Forall_map. eapply Forall_impl; [|exact H].
  intros x ->. unfold Rdiv. ring.
Qed.

(** X14: a prediction batch of zero rows gives the value 0 in either
    supported version of [cal_simsiam_loss], whatever the target of the
    same shape is: a zero row is divided by the stabilising constant, not
    by its norm. *)
Theorem cal_simsiam_loss_zero_prediction (p z : list (list R)) (version : string)
        (n d : nat) :
  version = "original"%string \/ version = "simplified"%string ->
  (0 < n)%nat -> has_shape p n d -> has_shape z n d ->
  Forall (Forall (fun x => x = 0)) p ->
  exists v, cal_simsiam_loss p z version = Ok v /\ v = 0.
Proof.
  intros Hv Hn Hp Hz Hzero.
  destruct (supported_versions_same_shape p z version n d Hv Hp Hz) as (f & Hf & Hcase).
  eexists. split; [exact Hf|].
  assert (Hm : 0 <= Torch.mean (rows2 f p z) <= 0).
  { apply mean_between.
    - apply rows2_nonempty.
      + rewrite (has_shape_length _ _ _ Hp), (has_shape_length _ _ _ Hz). reflexivity.
      + rewrite (has_shape_length _ _ _ Hp). exact Hn.
    - unfold rows2. apply Forall_map, Forall_forall. intros [u v] Hin. simpl.
      rewrite Forall_forall in Hzero.
      pose proof (Hzero u (in_combine_l _ _ _ _ Hin)) as Hu.
      assert (H0 : f u v = 0).
      { destruct Hcase as [-> | ->].
        - apply dot_zero_l. unfold Torch.normalize_row. apply map_div_zero, Hu.
        - unfold Torch.cosine_row. apply dot_zero_l, map_div_zero, Hu. }
      rewrite H0. lra. }
  lra.
Qed.

Lemma cal_simsiam_loss_zero_prediction_witness :
  exists v, cal_simsiam_loss [[0; 0]; [0; 0]] [[3; 4]; [1; 0]] "original" = Ok v
            /\ v = 0.
Proof.
  apply (cal_simsiam_loss_zero_prediction [[0; 0]; [0; 0]] [[3; 4]; [1; 0]]
           "original" 2 2).
  - left; reflexivity.
  - lia.
  - concrete_shape.
  - concrete_shape.
  - repeat constructor.
Defined.

(** ** What the cached state looks like *)

Lemma simclr_reachable_no_record (e : Utils.env) (self : SIMCLRLoss.t) :
  simclr_reachable e self ->
  SIMCLRLoss.last_local_batch_size self = None -> SIMCLRLoss.masks self = None.
Proof.
  induction 1 as [temperature | self ps outputs _ IH]; [reflexivity|].
  rewrite simclr_forward_state.
  destruct (simclr_update_cache_cases e self (length (SIMCLRLoss.aug1_embed outputs)))
    as [[_ Hu] | [[_ Hu] | [_ [er Hu]]]]; rewrite Hu; cbn [fst].
  - exact IH.
  - discriminate.
  - exact IH.
Qed.

(** X15: in every state a SimCLR module can be in, whether its calls
    returned or raised: a recorded batch size [n] is positive and comes
    with the [n] by [n * world_size] mask of that size; without a
    recorded size there is no mask; and cached labels, if any, are the
    labels [m * rank + [0..m)] of some batch size [m]. *)
Theorem simclr_state_invariant (e : Utils.env) (self : SIMCLRLoss.t) :
  simclr_reachable e self ->
  (forall n, SIMCLRLoss.last_local_batch_size self = Some n ->
             (0 < n)%nat
             /\ SIMCLRLoss.masks self = Some (make_masks e n)
             /\ has_shape (make_masks e n) n (n * Utils.get_world_size e))
  /\ (SIMCLRLoss.last_local_batch_size self = None -> SIMCLRLoss.masks self = None)
  /\ (forall l, SIMCLRLoss.labels self = Some l ->
                exists m, l = make_labels e m /\ length l = m).
Proof.
  intros Hr. split; [|split].
  - intros n Hn. destruct (simclr_reachable_recorded e self Hr n Hn) as [Hpos Hm].
    split; [exact Hpos|]. split; [exact Hm | apply make_masks_shape].
  - apply (simclr_reachable_no_record e self Hr).
  - intros l Hl. destruct (simclr_labels_form e self Hr l Hl) as [m ->].
    exists m. split; [reflexivity | apply make_labels_length].
Qed.

Lemma simclr_state_invariant_witness :
  SIMCLRLoss.masks (fst (SIMCLRLoss.forward single_process (fun _ _ => [])
                           (SIMCLRLoss.init 0.1) pair_inputs))
  = Some (make_masks single_process 2).
Proof.
  destruct (simclr_state_invariant single_process
              (fst (SIMCLRLoss.forward single_process (fun _ _ => [])
                      (SIMCLRLoss.init 0.1) pair_inputs)))
    as (Hrec & _ & _).
  - apply simclr_reach_forward, simclr_reach_init.
  - destruct (Hrec 2%nat) as (_ & Hm & _); [|exact Hm].
    rewrite pair_inputs_run. reflexivity.
Defined.

Lemma aclip_forward_state_cases (e : Utils.env) (ps_ssl ps_clip : Utils.peers)
      (self : ACLIPLoss.t) (outputs : ACLIPLoss.inputs) :
  let self' := fst (ACLIPLoss.forward e ps_ssl ps_clip self outputs) in
  let n := length (ACLIPLoss.text_embed outputs) in
  (ACLIPLoss.labels self' = ACLIPLoss.labels self
   /\ ACLIPLoss.last_local_batch_size self' = ACLIPLoss.last_local_batch_size self)
  \/ (ACLIPLoss.labels self' = Some (make_labels e n)
      /\ ACLIPLoss.last_local_batch_size self' = Some n
      /\ exists simclr' ssl,
          SIMCLRLoss.forward e ps_ssl (ACLIPLoss.simclr_loss self) (ssl_inputs outputs)
          = (simclr', Ok ssl)).
Proof.
  unfold ACLIPLoss.forward. fold (ssl_inputs outputs).
  destruct (SIMCLRLoss.forward _ _ _ _) as [simclr' [ssl|er]] eqn:Es;
    [|left; split; reflexivity].
  destruct (ACLIPLoss.loss_fn _ _) as [per_row|er]; [|left; split; reflexivity].
  cbv zeta. cbn [fst]. unfold ACLIPLoss.update_cache.
  cbn [ACLIPLoss.last_local_batch_size ACLIPLoss.labels ACLIPLoss.simclr_loss].
  destruct (size_changed _ _); [right | left; split; reflexivity].
  split; [reflexivity|]. split; [reflexivity|]. exists simclr', ssl. reflexivity.
Qed.

Lemma aclip_reachable_recorded (e : Utils.env) (self : ACLIPLoss.t) :
  aclip_reachable e self ->
  match ACLIPLoss.last_local_batch_size self with
  | Some n => (0 < n)%nat /\ ACLIPLoss.labels self = Some (make_labels e n)
  | None => ACLIPLoss.labels self = None
  end.
Proof.
  induction 1 as [temperature | self ps_ssl ps_clip outputs Hr IH]; [reflexivity|].
  destruct (aclip_forward_state_cases e ps_ssl ps_clip self outputs)
    as [[Hl Hs] | (Hl & Hs & simclr' & ssl & Hf)]; rewrite Hs, Hl.
  - exact IH.
  - split; [|reflexivity].
    pose proof (simclr_forward_returns_positive e ps_ssl _ _ _ _
                  (aclip_reachable_inner e self Hr) Hf) as Hpos.
    unfold ssl_inputs in Hpos. cbn [SIMCLRLoss.aug1_embed] in Hpos.
    rewrite length_firstn in Hpos. lia.
Qed.

(** X16: in every state a combined module can be in, whether its calls
    returned or raised: a recorded batch size [n] is positive and comes
    with the labels [n * rank + [0..n)]; without a recorded size there
    are no labels; and the SimCLR module it owns is in a state that
    calls of [SIMCLRLoss.forward] can produce. *)
Theorem aclip_state_invariant (e : Utils.env) (self : ACLIPLoss.t) :
  aclip_reachable e self ->
  (forall n, ACLIPLoss.last_local_batch_size self = Some n ->
             (0 < n)%nat /\ ACLIPLoss.labels self = Some (make_labels e n))
  /\ (ACLIPLoss.last_local_batch_size self = None -> ACLIPLoss.labels self = None)
  /\ simclr_reachable e (ACLIPLoss.simclr_loss self).
Proof.
  intros Hr. pose proof (aclip_reachable_recorded e self Hr) as H.
  split; [|split].
  - intros n Hn. rewrite Hn in H. exact H.
  - intros Hn. rewrite Hn in H. exact H.
  - apply aclip_reachable_inner, Hr.
Qed.

Lemma aclip_state_invariant_witness :
  ACLIPLoss.labels (fst (ACLIPLoss.forward single_process (fun _ _ => [])
                           (fun _ _ => []) (ACLIPLoss.init 0.1) sample_inputs))
  = Some (make_labels single_process 1).
Proof.
  destruct (aclip_state_invariant single_process
              (fst (ACLIPLoss.forward single_process (fun _ _ => [])
                      (fun _ _ => []) (ACLIPLoss.init 0.1) sample_inputs)))
    as (Hrec & _ & _).
  - apply aclip_reach_forward, aclip_reach_init.
  - destruct (Hrec 1%nat) as (_ & Hl); [|exact Hl].
    rewrite sample_inputs_run. reflexivity.
Defined.

(** ** A raising call and the cache *)

Lemma cross_entropy_length_mismatch (logits : list (list R)) (target : list nat) :
  length logits <> length target ->
  Torch.cross_entropy logits target = Err TorchError.
Proof.
  intros H. unfold Torch.cross_entropy.
  destruct (Nat.eqb_spec (length logits) (length target)); [contradiction|].
  reflexivity.
Qed.

Lemma simclr_update_cache_miss (e : Utils.env) (self : SIMCLRLoss.t) (n : nat) :
  valid_env e -> (0 < n)%nat ->
  SIMCLRLoss.last_local_batch_size self <> Some n ->
  SIMCLRLoss.update_cache e self n
  = (simclr_cached e (SIMCLRLoss.tau self) n, Ok tt).
Proof.
  intros He Hn Hne. unfold SIMCLRLoss.update_cache.
  destruct (size_changed n (SIMCLRLoss.last_local_batch_size self)) eqn:E.
  - rewrite (one_hot_make_labels e n He Hn), scaled_one_hot_is_mask. reflexivity.
  - apply size_changed_false in E. contradiction.
Qed.

Lemma simclr_forward_ok_miss (e : Utils.env) (ps : Utils.peers) (self : SIMCLRLoss.t)
      (outputs : SIMCLRLoss.inputs) (n d : nat) :
  valid_env e -> (0 < n)%nat -> simclr_valid_call e ps outputs n d ->
  SIMCLRLoss.last_local_batch_size self <> Some n ->
  exists out,
    SIMCLRLoss.forward e ps self outputs
    = (simclr_cached e (SIMCLRLoss.tau self) n, Ok out).
Proof.
  intros He Hn (H1 & H2 & Hp0 & Hp1) Hne.
  rewrite simclr_forward_unfold. cbv zeta.
  rewrite (has_shape_length _ _ _ H1).
  rewrite (simclr_update_cache_miss e self n He Hn Hne).
  eexists. f_equal.
  apply (simclr_losses_ok e _ _ _ _ _ n d He Hn); auto with shapes.
Qed.

Lemma simclr_losses_wrong_labels (e : Utils.env) (s : R) (l : list nat)
      (q_a q_b k_a k_b : list (list R)) (n d : nat) :
  length l <> n ->
  has_shape q_a n d -> has_shape q_b n d ->
  has_shape k_a (n * Utils.get_world_size e) d ->
  has_shape k_b (n * Utils.get_world_size e) d ->
  SIMCLRLoss.losses (SIMCLRLoss.mk s (Some l) (Some (make_masks e n)) (Some n))
                    n q_a q_b k_a k_b
  = Err TorchError.
Proof.
  intros Hl Hqa Hqb Hka Hkb.
  set (t := (n * Utils.get_world_size e)%nat) in *.
  pose proof (make_masks_shape e n) as Hm. fold t in Hm.
  unfold SIMCLRLoss.losses. cbn [SIMCLRLoss.labels SIMCLRLoss.masks SIMCLRLoss.tau].
  rewrite (matmul_t_ok q_a k_a d) by (eapply has_shape_rows; eassumption).
  rewrite bind_ok.
  rewrite (sub_ok _ (make_masks e n) n t) by (try eapply logits_shape; eassumption).
  rewrite bind_ok.
  rewrite (matmul_t_ok q_b k_b d) by (eapply has_shape_rows; eassumption).
  rewrite bind_ok.
  rewrite (sub_ok _ (make_masks e n) n t) by (try eapply logits_shape; eassumption).
  rewrite bind_ok.
  rewrite (matmul_t_ok q_a k_b d) by (eapply has_shape_rows; eassumption).
  rewrite bind_ok.
  rewrite (matmul_t_ok q_b k_a d) by (eapply has_shape_rows; eassumption).
  rewrite bind_ok.
  assert (Hlen : length (Torch.div_scalar (outer q_a k_b) s)
                 = length (minus_rows (Torch.div_scalar (outer q_a k_a) s)
                                      (make_masks e n))).
  { rewrite (has_shape_length _ n t) by (eapply logits_shape; eassumption).
    symmetry. eapply has_shape_length, minus_rows_shape;
      [eapply logits_shape|]; eassumption. }
  rewrite (cat1_ok _ _ Hlen). rewrite bind_ok.
  rewrite cross_entropy_length_mismatch; [reflexivity|].
  unfold append_rows. rewrite rows2_length by exact Hlen.
  rewrite (has_shape_length _ n t) by (eapply logits_shape; eassumption).
  auto.
Qed.

(** X17: a raising call can leave the SimCLR cache out of step.  From the
    state after a returning call of batch size [n], a call with an empty
    [aug1_embed] raises, keeps the recorded size [n] and leaves an empty
    label vector behind; every later call of size [n], though well
    shaped, then raises as well, its labels being reused without
    recomputation; a well-shaped call of another size recomputes them
    and returns. *)
Theorem simclr_raising_call_spoils_cache (e : Utils.env) (ps0 ps : Utils.peers)
        (temperature : R) (empty outputs : SIMCLRLoss.inputs) (n d : nat) :
  valid_env e -> (0 < n)%nat ->
  SIMCLRLoss.aug1_embed empty = [] ->
  simclr_valid_call e ps outputs n d ->
  let s := simclr_cached e temperature n in
  let s' := SIMCLRLoss.mk temperature (Some []) (Some (make_masks e n)) (Some n) in
  SIMCLRLoss.forward e ps0 s empty = (s', Err TorchError)
  /\ SIMCLRLoss.forward e ps s' outputs = (s', Err TorchError)
  /\ (forall ps' outputs' m d',
         m <> n -> (0 < m)%nat -> simclr_valid_call e ps' outputs' m d' ->
         exists out,
           SIMCLRLoss.forward e ps' s' outputs'
           = (simclr_cached e temperature m, Ok out)).
Proof.
  intros He Hn Hempty (H1 & H2 & Hp0 & Hp1) s s'. split; [|split].
  - rewrite simclr_forward_unfold. cbv zeta. rewrite Hempty. cbn [length].
    rewrite simclr_update_cache_empty; [reflexivity|].
    unfold s. cbn [simclr_cached SIMCLRLoss.last_local_batch_size].
    intros H; inversion H. lia.
  - rewrite (simclr_reuse e ps s' outputs)
      by (rewrite (has_shape_length _ _ _ H1); reflexivity).
    f_equal. rewrite (has_shape_length _ _ _ H1).
    apply (simclr_losses_wrong_labels e temperature [] _ _ _ _ n d);
      auto with shapes. simpl; lia.
  - intros ps' outputs' m d' Hne Hm Hcall.
    apply (simclr_forward_ok_miss e ps' s' outputs' m d' He Hm Hcall).
    unfold s'. cbn [SIMCLRLoss.last_local_batch_size].
    intros H; inversion H. apply Hne. symmetry. assumption.
Qed.

Lemma simclr_raising_call_spoils_cache_witness :
  SIMCLRLoss.forward single_process (fun _ _ => [])
                     (simclr_cached single_process 0.1 4)
                     (SIMCLRLoss.mk_inputs [] [])
  = (SIMCLRLoss.mk 0.1 (Some []) (Some (make_masks single_process 4)) (Some 4%nat),
     Err TorchError)
  /\ snd (SIMCLRLoss.forward single_process (fun _ _ => [])
            (SIMCLRLoss.mk 0.1 (Some []) (Some (make_masks single_process 4))
                           (Some 4%nat))
            batch_of_4) = Err TorchError.
Proof.
  destruct (simclr_raising_call_spoils_cache single_process (fun _ _ => [])
              (fun _ _ => []) 0.1 (SIMCLRLoss.mk_inputs [] []) batch_of_4 4 1)
    as (Hraise & Hagain & _).
  - exact single_process_valid.
  - lia.
  - reflexivity.
  - apply batch_of_4_valid.
  - split; [exact Hraise|]. rewrite Hagain. reflexivity.
Defined.

(** ** Labels and the gathered batch *)

Lemma nth_error_concat_blocks {A : Type} (blocks : list (list A)) (n r i : nat) :
  Forall (fun b => length b = n) blocks ->
  (i < n)%nat ->
  nth_error (concat blocks) (n * r + i)
  = match nth_error blocks r with
    | Some b => nth_error b i
    | None => None
    end.
Proof.
  intros Hb Hi. revert r. induction Hb as [|b blocks Hlen _ IH]; intros r.
  - simpl. destruct r; simpl; destruct (n * _ + i)%nat; reflexivity.
  - destruct r as [|r]; simpl.
    + rewrite Nat.mul_0_r. simpl. apply nth_error_app1. lia.
    + rewrite nth_error_app2 by (rewrite Hlen; nia).
      replace (n * S r + i - length b)%nat with (n * r + i)%nat
        by (rewrite Hlen; nia).
      apply IH.
Qed.

(** X18: the label of local sample [i] is the row at which the gather
    places the worker's own row [i]: with a valid rank and peers that
    hand in [n] rows each, row [n * rank + i] of a gathered batch is row
    [i] of the local batch, and every label is below the number of
    gathered rows. *)
Theorem labels_index_own_rows (e : Utils.env) (contrib : nat -> list (list R))
        (local : list (list R)) (n d i : nat) :
  valid_env e -> has_shape local n d -> valid_peers e contrib n d -> (i < n)%nat ->
  nth_error (Utils.gather_one e contrib local) (nth i (make_labels e n) 0%nat)
  = nth_error local i
  /\ (nth i (make_labels e n) 0%nat < length (Utils.gather_one e contrib local))%nat.
Proof.
  intros He Hl Hp Hi. rewrite make_labels_nth by exact Hi.
  pose proof (gather_one_shape e contrib local n d Hl Hp) as Hg.
  split.
  - unfold Utils.gather_one. rewrite nth_error_concat_blocks.
    + rewrite nth_error_map, nth_error_seq.
      unfold valid_env in He. apply Nat.ltb_lt in He. rewrite He. simpl.
      rewrite Nat.eqb_refl. reflexivity.
    + apply Forall_map, Forall_forall. intros r Hr. apply in_seq in Hr.
      destruct (Nat.eqb_spec r (Utils.get_rank e)).
      * apply (has_shape_length _ _ _ Hl).
      * apply (has_shape_length _ n d), Hp; [lia | assumption].
    + exact Hi.
  - rewrite (has_shape_length _ _ _ Hg). unfold valid_env in He. nia.
Qed.

Lemma labels_index_own_rows_witness :
  nth_error (Utils.gather_one (Utils.mk_env 1 2)
                              (fun _ => [[5; 5]; [6; 6]]) [[1; 0]; [0; 1]])
            (nth 1 (make_labels (Utils.mk_env 1 2) 2) 0%nat)
  = Some [0; 1].
Proof.
  destruct (labels_index_own_rows (Utils.mk_env 1 2) (fun _ => [[5; 5]; [6; 6]])
              [[1; 0]; [0; 1]] 2 2 1) as [H _].
  - unfold valid_env; simpl; lia.
  - concrete_shape.
  - intros r _ _. concrete_shape.
  - lia.
  - exact H.
Defined.

(** ** The mask and the prediction *)

Lemma normalize_bounded (m : list (list R)) : bounded_rows (Torch.normalize m).
Proof.
  unfold bounded_rows, Torch.normalize. apply Forall_map, Forall_forall.
  intros r _. apply normalize_row_bounded.
Qed.

Lemma gather_one_bounded (e : Utils.env) (contrib : nat -> list (list R))
      (local : list (list R)) :
  bounded_rows local -> bounded_peers e contrib ->
  bounded_rows (Utils.gather_one e contrib local).
Proof.
  intros Hl Hp. unfold bounded_rows, Utils.gather_one.
  apply Forall_concat, Forall_map, Forall_forall. intros r Hr. apply in_seq in Hr.
  destruct (Nat.eqb_spec r (Utils.get_rank e)); [exact Hl|].
  apply Hp; [lia | assumption].
Qed.

Lemma bounded_row (m : list (list R)) (i : nat) :
  bounded_rows m -> Torch.sum (map (fun x => x * x) (row m i)) <= 1.
Proof.
  intros H. unfold row. destruct (nth_in_or_default i m []) as [Hin | ->].
  - unfold bounded_rows in H. rewrite Forall_forall in H. apply H, Hin.
  - simpl. lra.
Qed.

Lemma scaled_dot_range (s : R) (u v : list R) :
  0 < s ->
  Torch.sum (map (fun x => x * x) u) <= 1 ->
  Torch.sum (map (fun x => x * x) v) <= 1 ->
  - / s <= Torch.dot u v / s <= / s.
Proof.
  intros Hs Hu Hv. pose proof (dot_bounded u v Hu Hv) as [Hlo Hhi].
  pose proof (Rinv_0_lt_compat s Hs) as Hi. unfold Rdiv. split; nra.
Qed.

Lemma simclr_cat_row (e : Utils.env) (s : R) (q k1 k2 : list (list R)) (n d i : nat) :
  (i < n)%nat ->
  has_shape q n d ->
  has_shape k1 (n * Utils.get_world_size e) d ->
  has_shape k2 (n * Utils.get_world_size e) d ->
  row (simclr_cat s (make_masks e n) q k1 k2) i
  = (map (fun v => Torch.dot (row q i) v / s) k1
     ++ map (fun xy => fst xy - snd xy)
            (combine (map (fun v => Torch.dot (row q i) v / s) k2)
                     (map (fun j => if (j =? global_index e n i)%nat then 1e9 else 0)
                          (seq 0 (n * Utils.get_world_size e)))))%list.
Proof.
  intros Hi Hq H1 H2. set (t := (n * Utils.get_world_size e)%nat) in *.
  pose proof (make_masks_shape e n) as Hm. fold t in Hm.
  assert (Hqi : (i < length q)%nat) by (rewrite (has_shape_length _ _ _ Hq); exact Hi).
  assert (Hl : forall k, has_shape k t d ->
                         length (Torch.div_scalar (outer q k) s) = n).
  { intros k Hk. eapply has_shape_length, logits_shape; eassumption. }
  unfold simclr_cat, append_rows.
  rewrite row_rows2; cycle 1.
  { rewrite (Hl k1 H1); exact Hi. }
  { rewrite (Hl k1 H1). symmetry.
    eapply has_shape_length, minus_rows_shape; [eapply logits_shape|]; eassumption. }
  unfold minus_rows. rewrite row_rows2; cycle 1.
  { rewrite (Hl k2 H2); exact Hi. }
  { rewrite (Hl k2 H2). symmetry. apply (has_shape_length _ _ _ Hm). }
  rewrite !row_logits, row_make_masks by assumption. reflexivity.
Qed.

Lemma masked_entry_not_first_max (s : R) (u : list R) (k1 k2 : list (list R))
      (t y : nat) :
  0 < s -> 2 / s < 1e9 -> (y < t)%nat ->
  length k1 = t -> length k2 = t ->
  Torch.sum (map (fun x => x * x) u) <= 1 ->
  bounded_rows k1 -> bounded_rows k2 ->
  first_argmax
    (map (fun v => Torch.dot u v / s) k1
     ++ map (fun xy => fst xy - snd xy)
            (combine (map (fun v => Torch.dot u v / s) k2)
                     (map (fun j => if (j =? y)%nat then 1e9 else 0) (seq 0 t))))%list
  <> (t + y)%nat.
Proof.
  intros Hs Hbig Hy H1 H2 Hu Hb1 Hb2.
  set (A := map (fun v => Torch.dot u v / s) k1).
  set (X := map (fun v => Torch.dot u v / s) k2).
  set (M := map (fun j => if (j =? y)%nat then 1e9 else 0) (seq 0 t)).
  set (B := map (fun xy : R * R => fst xy - snd xy) (combine X M)).
  assert (HA : length A = t) by (unfold A; rewrite length_map; exact H1).
  assert (HX : length X = t) by (unfold X; rewrite length_map; exact H2).
  assert (HM : length M = t) by (unfold M; rewrite length_map, length_seq; reflexivity).
  assert (HB : length B = t).
  { unfold B. rewrite length_map, length_combine, HX, HM. apply Nat.min_id. }
  assert (Hne : (A ++ B)%list <> []).
  { intros E. apply (f_equal (@length R)) in E. rewrite length_app, HA in E.
    simpl in E. lia. }
  destruct (first_argmax_spec _ Hne) as (_ & Hmax & _).
  intros Habs. rewrite Habs in Hmax.
  specialize (Hmax 0%nat). rewrite length_app, HA in Hmax.
  specialize (Hmax ltac:(lia)).
  rewrite app_nth1 in Hmax by lia.
  rewrite <- HA in Hmax at 1. rewrite app_nth2_plus in Hmax.
  (* the first cross-view entry *)
  assert (H0 : - / s <= nth 0 A 0).
  { unfold A.
    rewrite (nth_indep _ 0 (Torch.dot u [] / s)) by (rewrite length_map; lia).
    rewrite (map_nth (fun v => Torch.dot u v / s) k1 [] 0).
    apply scaled_dot_range; [assumption | assumption | apply (bounded_row k1 0 Hb1)]. }
  (* the masked same-view entry *)
  assert (Hm : nth y B 0 <= / s - 1e9).
  { unfold B.
    rewrite (nth_indep _ 0 (fst (0, 0) - snd (0, 0)))
      by (rewrite length_map, length_combine, HX, HM; lia).
    rewrite (map_nth (fun xy : R * R => fst xy - snd xy) (combine X M) (0, 0) y).
    rewrite combine_nth by congruence. cbn [fst snd].
    assert (HMy : nth y M 0 = 1e9).
    { unfold M.
      rewrite (nth_indep _ 0 (if (0 =? y)%nat then 1e9 else 0))
        by (rewrite length_map, length_seq; lia).
      rewrite (map_nth (fun j => if (j =? y)%nat then 1e9 else 0) (seq 0 t) 0%nat y).
      rewrite seq_nth by lia. simpl. rewrite Nat.eqb_refl. reflexivity. }
    assert (HXy : nth y X 0 <= / s).
    { unfold X.
      rewrite (nth_indep _ 0 (Torch.dot u [] / s)) by (rewrite length_map; lia).
      rewrite (map_nth (fun v => Torch.dot u v / s) k2 [] y).
      apply scaled_dot_range; [assumption | assumption | apply (bounded_row k2 y Hb2)]. }
    rewrite HMy. lra. }
  unfold Rdiv in Hbig. lra.
Qed.

Lemma nth_map_seq (f : nat -> R) (m j : nat) :
  (j < m)%nat -> nth j (map f (seq 0 m)) 0 = f j.
Proof.
  intros Hj.
  rewrite (nth_indep _ 0 (f 0%nat)) by (rewrite length_map, length_seq; exact Hj).
  rewrite (map_nth f (seq 0 m) 0%nat j). rewrite seq_nth by exact Hj. reflexivity.
Qed.

(** Row [i] of the logits that [SIMCLRLoss.forward] classifies, entry by
    entry. *)
Lemma simclr_cat_row_entries (e : Utils.env) (s : R) (q k1 k2 : list (list R))
      (n d i : nat) :
  (i < n)%nat ->
  has_shape q n d ->
  has_shape k1 (n * Utils.get_world_size e) d ->
  has_shape k2 (n * Utils.get_world_size e) d ->
  row (simclr_cat s (make_masks e n) q k1 k2) i
  = map (fun j => simclr_similarity s (n * Utils.get_world_size e) q k1 k2 i j
                  - (if (j =? n * Utils.get_world_size e + global_index e n i)%nat
                     then 1e9 else 0))
        (seq 0 (n * Utils.get_world_size e + n * Utils.get_world_size e)).
Proof.
  intros Hi Hq H1 H2. rewrite (simclr_cat_row e s q k1 k2 n d i Hi Hq H1 H2).
  set (t := (n * Utils.get_world_size e)%nat) in *.
  set (y := global_index e n i).
  pose proof (has_shape_length _ _ _ H1) as L1.
  pose proof (has_shape_length _ _ _ H2) as L2.
  set (A := map (fun v => Torch.dot (row q i) v / s) k1).
  set (X := map (fun v => Torch.dot (row q i) v / s) k2).
  set (M := map (fun j => if (j =? y)%nat then 1e9 else 0) (seq 0 t)).
  set (B := map (fun xy : R * R => fst xy - snd xy) (combine X M)).
  assert (HA : length A = t) by (unfold A; rewrite length_map; exact L1).
  assert (HX : length X = t) by (unfold X; rewrite length_map; exact L2).
  assert (HM : length M = t) by (unfold M; rewrite length_map, length_seq; reflexivity).
  assert (HB : length B = t).
  { unfold B. rewrite length_map, length_combine, HX, HM. apply Nat.min_id. }
  apply (nth_ext _ _ 0 0).
  { rewrite length_app, HA, HB, length_map, length_seq. reflexivity. }
  intros j Hj. rewrite length_app, HA, HB in Hj.
  rewrite nth_map_seq by exact Hj. unfold simclr_similarity.
  destruct (Nat.ltb_spec j t) as [Hlt | Hge].
  - rewrite app_nth1 by lia.
    destruct (Nat.eqb_spec j (t + y)) as [Heq | _]; [lia|].
    unfold A.
    rewrite (nth_indep _ 0 (Torch.dot (row q i) [] / s)) by (rewrite length_map; lia).
    rewrite (map_nth (fun v => Torch.dot (row q i) v / s) k1 [] j).
    unfold row. lra.
  - rewrite app_nth2 by lia. rewrite HA.
    assert (Hj' : (j - t < t)%nat) by lia.
    unfold B.
    rewrite (nth_indep _ 0 (fst (0, 0) - snd (0, 0)))
      by (rewrite length_map, length_combine, HX, HM; lia).
    rewrite (map_nth (fun xy : R * R => fst xy - snd xy) (combine X M) (0, 0) (j - t)).
    rewrite combine_nth by congruence. cbn [fst snd].
    unfold M. rewrite nth_map_seq by exact Hj'.
    unfold X.
    rewrite (nth_indep _ 0 (Torch.dot (row q i) [] / s)) by (rewrite length_map; lia).
    rewrite (map_nth (fun v => Torch.dot (row q i) v / s) k2 [] (j - t)).
    unfold row.
    destruct (Nat.eqb_spec (j - t) y) as [E1 | E1];
      destruct (Nat.eqb_spec j (t + y)) as [E2 | E2]; try lia; reflexivity.
Qed.

(** X19: the mask takes a sample's own same-view entry out of the
    prediction.  For a temperature [tau] with [2 / tau < 1e9] and workers
    that hand in rows of norm at most one, a call of [SIMCLRLoss.forward]
    on operands of fitting shapes returns an ["ssl_acc"] of
    [100 * count_correct / n] for predictions of which prediction [i] is
    the first maximum of the [2 * t] masked logits of sample [i] ([t] the
    size of the global batch), is never [t + global_index i], the
    sample's own same-view entry, and has the largest similarity among
    all the other candidates. *)
Theorem simclr_forward_never_predicts_itself (e : Utils.env) (ps : Utils.peers)
        (self : SIMCLRLoss.t) (aug1 aug2 : list (list R)) (n d : nat) :
  valid_env e -> (0 < n)%nat ->
  0 < SIMCLRLoss.tau self -> 2 / SIMCLRLoss.tau self < 1e9 ->
  has_shape aug1 n d -> has_shape aug2 n d ->
  valid_peers e (ps 0%nat) n d -> valid_peers e (ps 1%nat) n d ->
  bounded_peers e (ps 0%nat) -> bounded_peers e (ps 1%nat) ->
  simclr_cache_valid e self ->
  let t := (n * Utils.get_world_size e)%nat in
  let q_a := Torch.normalize aug1 in
  let k_a := Utils.gather_one e (ps 0%nat) q_a in
  let k_b := Utils.gather_one e (ps 1%nat) (Torch.normalize aug2) in
  let similarity := simclr_similarity (SIMCLRLoss.tau self) t q_a k_b k_a in
  exists self' out pred,
    SIMCLRLoss.forward e ps self (SIMCLRLoss.mk_inputs aug1 aug2) = (self', Ok out)
    /\ length pred = n
    /\ (forall i, (i < n)%nat ->
                  is_first_max
                    (map (fun j => similarity i j
                                   - (if (j =? t + global_index e n i)%nat
                                      then 1e9 else 0))
                         (seq 0 (t + t)))
                    (nth i pred 0%nat)
                  /\ nth i pred 0%nat <> (t + global_index e n i)%nat
                  /\ forall j, (j < t + t)%nat -> j <> (t + global_index e n i)%nat ->
                               similarity i j <= similarity i (nth i pred 0%nat))
    /\ dict_get out "ssl_acc" = Some (100 * INR (count_correct e n pred) / INR n).
Proof.
  intros He Hn Hs Hbig H1 H2 Hp0 Hp1 Hb0 Hb1 Hcache t q_a k_a k_b similarity.
  set (s := SIMCLRLoss.tau self) in *.
  assert (Hqa : has_shape q_a n d) by (apply normalize_shape; exact H1).
  assert (Hqb : has_shape (Torch.normalize aug2) n d) by (apply normalize_shape; exact H2).
  assert (Hka : has_shape k_a t d) by (apply gather_one_shape; assumption).
  assert (Hkb : has_shape k_b t d) by (apply gather_one_shape; assumption).
  assert (Ht : (0 < t)%nat) by (unfold t, valid_env in *; nia).
  pose proof (make_masks_shape e n) as Hm. fold t in Hm.
  set (cat := simclr_cat s (make_masks e n) q_a k_b k_a).
  pose proof (simclr_cat_shape s _ _ _ _ _ _ _ Hqa Hkb Hka Hm) as Hcat. fold cat in Hcat.
  pose proof (has_shape_length _ _ _ Hcat) as Hcatlen.
  exists (simclr_cached e s n), (simclr_record e ps s aug1 aug2), (map first_argmax cat).
  split; [apply (simclr_forward_ok e ps self aug1 aug2 n d); assumption|].
  split; [rewrite length_map; exact Hcatlen|].
  split.
  - intros i Hi.
    assert (Hrow : nth i (map first_argmax cat) 0%nat = first_argmax (row cat i)).
    { unfold row.
      rewrite (nth_indep _ 0%nat (first_argmax []))
        by (rewrite length_map, Hcatlen; exact Hi).
      apply (map_nth first_argmax). }
    rewrite Hrow.
    assert (Hne : first_argmax (row cat i) <> (t + global_index e n i)%nat).
    { unfold cat. rewrite (simclr_cat_row e s q_a k_b k_a n d i Hi Hqa Hkb Hka). fold t.
      apply masked_entry_not_first_max; try assumption.
      - unfold global_index, t, valid_env in *. nia.
      - apply (has_shape_length _ _ _ Hkb).
      - apply (has_shape_length _ _ _ Hka).
      - apply bounded_row, normalize_bounded.
      - apply gather_one_bounded; [apply normalize_bounded | assumption].
      - apply gather_one_bounded; [apply normalize_bounded | assumption]. }
    assert (Hentries :
              row cat i
              = map (fun j => similarity i j
                              - (if (j =? t + global_index e n i)%nat then 1e9 else 0))
                    (seq 0 (t + t)))
      by (apply (simclr_cat_row_entries e s q_a k_b k_a n d i Hi Hqa Hkb Hka)).
    assert (Hfm : is_first_max (row cat i) (first_argmax (row cat i))).
    { apply first_argmax_spec. intros E.
      apply (f_equal (@length R)) in E.
      rewrite Hentries, length_map, length_seq in E. simpl in E. lia. }
    remember (first_argmax (row cat i)) as fa eqn:Hfa. clear Hfa.
    rewrite Hentries in Hfm.
    split; [exact Hfm|]. split; [exact Hne|].
    intros j Hj Hjne.
    destruct Hfm as (Hlt & Hmax & _).
    rewrite length_map, length_seq in Hlt, Hmax.
    specialize (Hmax j Hj).
    rewrite !nth_map_seq in Hmax by assumption.
    destruct (Nat.eqb_spec j (t + global_index e n i)) as [E | _]; [contradiction|].
    destruct (Nat.eqb_spec fa (t + global_index e n i)) as [E | _]; [contradiction|].
    lra.
  - unfold simclr_record. cbn [dict_get String.eqb Ascii.eqb Bool.eqb].
    unfold simclr_acc_value, accuracy.
    rewrite (has_shape_length _ _ _ H1). fold s q_a k_a k_b cat.
    rewrite (hits_as_count e cat n Hcatlen). reflexivity.
Qed.

Lemma simclr_forward_never_predicts_itself_witness :
  exists self' out pred,
    SIMCLRLoss.forward single_process (fun _ _ => []) (SIMCLRLoss.init 0.1)
      (SIMCLRLoss.mk_inputs [[1; 0]; [0; 1]] [[0; 1]; [1; 0]]) = (self', Ok out)
    /\ length pred = 2%nat
    /\ (forall i, (i < 2)%nat ->
                  nth i pred 0%nat <> (2 * 1 + global_index single_process 2 i)%nat)
    /\ dict_get out "ssl_acc"
       = Some (100 * INR (count_correct single_process 2 pred) / INR 2).
Proof.
  destruct (simclr_forward_never_predicts_itself single_process (fun _ _ => [])
              (SIMCLRLoss.init 0.1) [[1; 0]; [0; 1]] [[0; 1]; [1; 0]] 2 2)
    as (self' & out & pred & Hrun & Hlen & Hpred & Hacc).
  - exact single_process_valid.
  - lia.
  - simpl; lra.
  - simpl; lra.
  - concrete_shape.
  - concrete_shape.
  - apply valid_peers_single.
  - apply valid_peers_single.
  - intros r Hr Hne; simpl in *; lia.
  - intros r Hr Hne; simpl in *; lia.
  - split; exact I.
  - exists self', out, pred. split; [exact Hrun|]. split; [exact Hlen|].
    split; [|exact Hacc]. intros i Hi. apply (Hpred i Hi).
Defined.

(** ** The BYOL term on identical features *)

Lemma normalized_dot_self (u : list R) :
  Torch.normalize_eps <= Torch.norm2 u ->
  Torch.dot (Torch.normalize_row u) (Torch.normalize_row u) = 1.
Proof.
  intros Hu. rewrite normalize_row_large by exact Hu. rewrite dot_scaled.
  rewrite <- Rinv_mult. apply cosine_self.
  unfold Torch.normalize_eps in Hu. lra.
Qed.

(** X20: in exact arithmetic (the reals of this model; floats reach the
    value up to rounding), when the online features are the target
    features repeated twice ([byol_feats = byol_feats_e ++ byol_feats_e]),
    the target features have at least one row and every row has an L2
    norm of at least [1e-12], a returning call of [ACLIPLoss.forward]
    reports an ["im_byol_loss"] of zero. *)
Theorem aclip_forward_byol_zero (e : Utils.env) (ps_ssl ps_clip : Utils.peers)
        (self self' : ACLIPLoss.t) (outputs : ACLIPLoss.inputs) (out : dict)
        (n d : nat) :
  (0 < n)%nat ->
  has_shape (ACLIPLoss.byol_feats_e outputs) n d ->
  ACLIPLoss.byol_feats outputs
  = (ACLIPLoss.byol_feats_e outputs ++ ACLIPLoss.byol_feats_e outputs)%list ->
  Forall (fun r => Torch.normalize_eps <= Torch.norm2 r) (ACLIPLoss.byol_feats_e outputs) ->
  ACLIPLoss.forward e ps_ssl ps_clip self outputs = (self', Ok out) ->
  dict_get out "im_byol_loss" = Some 0.
Proof.
  intros Hn Hbe Heq Hlarge Hf.
  destruct (aclip_forward_inv _ _ _ _ _ _ _ Hf)
    as (simclr' & ssl & per_row & _ & Hloss & _ & Hl).
  rewrite Heq in Hloss.
  pose proof (app_shape _ _ _ _ _ Hbe Hbe) as Hbb.
  rewrite (loss_fn_ok _ _ (n + n) d Hbb Hbb) in Hloss.
  inversion Hloss as [Hrows]. clear Hloss.
  assert (Hz : Torch.mean per_row = 0).
  { assert (Hm : 0 <= Torch.mean per_row <= 0); [|lra].
    subst per_row. apply mean_between.
    - apply rows2_nonempty; [reflexivity|].
      rewrite (has_shape_length _ _ _ Hbb). lia.
    - rewrite rows2_diag. apply Forall_map.
      assert (Hall : Forall (fun r => Torch.normalize_eps <= Torch.norm2 r)
                            (ACLIPLoss.byol_feats_e outputs
                             ++ ACLIPLoss.byol_feats_e outputs)%list)
        by (apply Forall_app; split; assumption).
      eapply Forall_impl; [|exact Hall]. intros u Hu; simpl.
      rewrite (normalized_dot_self u Hu). lra. }
  destruct (aclip_losses_inv _ _ _ _ _ _ _ Hl)
    as (l & lpi1 & lpt1 & lpi2 & lpt2 & ci1 & ct1 & ci2 & ct2 & s & pred & correct
        & _ & _ & _ & _ & _ & _ & _ & _ & _ & _ & _ & ->).
  transitivity (Some (Torch.mean per_row)); [reflexivity|].
  apply f_equal. exact Hz.
Qed.

Lemma aclip_forward_byol_zero_witness :
  exists out,
    snd (ACLIPLoss.forward single_process (fun _ _ => []) (fun _ _ => [])
                           (ACLIPLoss.init 0.1) sample_inputs) = Ok out
    /\ dict_get out "im_byol_loss" = Some 0.
Proof.
  eexists. rewrite sample_inputs_run. split; [reflexivity|].
  apply (aclip_forward_byol_zero single_process (fun _ _ => []) (fun _ _ => [])
           (ACLIPLoss.init 0.1) (aclip_cached single_process 0.1 1)
           sample_inputs _ 1 1).
  - lia.
  - concrete_shape.
  - reflexivity.
  - apply Forall_cons; [|apply Forall_nil].
    apply norm2_lower; unfold Torch.normalize_eps; simpl; lra.
  - exact sample_inputs_run.
Defined.

(** ** A logit scale of zero *)

Lemma sum_exp_zeros (r : list R) :
  Forall (fun x => x = 0) r -> Torch.sum (map exp r) = INR (length r).
Proof.
  induction 1 as [|x r Hx _ IH]; [reflexivity|].
  change (length (x :: r)) with (S (length r)). rewrite S_INR.
  simpl. rewrite IH, Hx, exp_0. ring.
Qed.

Lemma nth_zeros (r : list R) (y : nat) : Forall (fun x => x = 0) r -> nth y r 0 = 0.
Proof.
  intros H. destruct (nth_in_or_default y r 0) as [Hin | E]; [|exact E].
  rewrite Forall_forall in H. apply H, Hin.
Qed.

Lemma mean_nll_zero_logits (logits : list (list R)) (target : list nat) (t : nat) :
  (0 < length logits)%nat -> length logits = length target ->
  Forall (fun r => length r = t /\ Forall (fun x => x = 0) r) logits ->
  mean_nll logits target = ln (INR t).
Proof.
  intros Hpos Hlen Hall. unfold mean_nll.
  assert (Hm : ln (INR t)
               <= Torch.mean (map (fun ry : list R * nat => nll_row (fst ry) (snd ry))
                                  (combine logits target))
               <= ln (INR t)); [|lra].
  apply mean_between.
  - intros E. apply (f_equal (@length R)) in E.
    rewrite length_map, length_combine in E. simpl in E. lia.
  - apply Forall_map, Forall_forall. intros [r y] Hin; simpl.
    rewrite Forall_forall in Hall.
    destruct (Hall r (in_combine_l _ _ _ _ Hin)) as [Hr Hz].
    unfold nll_row, logsumexp. rewrite (sum_exp_zeros r Hz), (nth_zeros r y Hz), Hr.
    lra.
Qed.

Lemma outer_scale_zero (a k : list (list R)) :
  Forall (fun r => length r = length k /\ Forall (fun x => x = 0) r)
         (outer (Torch.scale 0 a) k).
Proof.
  unfold outer, Torch.scale. rewrite map_map. apply Forall_map, Forall_forall.
  intros u _. split; [apply length_map|].
  apply Forall_map, Forall_forall. intros v _.
  apply dot_zero_l, Forall_map, Forall_forall. intros x _. ring.
Qed.

Lemma outer_length (a k : list (list R)) : length (outer a k) = length a.
Proof. unfold outer. apply length_map. Qed.

(** X21: with a logit scale of zero, a call of [ACLIPLoss.forward] on
    operands of fitting shapes reports the logarithm of the global batch
    size, [ln (n * world_size)], as both ["contra_loss_1"] and
    ["contra_loss_2"], whatever the embeddings are. *)
Theorem aclip_forward_zero_scale (e : Utils.env) (ps_ssl ps_clip : Utils.peers)
        (self : ACLIPLoss.t) (outputs : ACLIPLoss.inputs) (n d d_ssl d_byol : nat) :
  valid_env e -> valid_inputs outputs n d d_ssl d_byol ->
  valid_ssl_peers e ps_ssl n d_ssl -> valid_clip_peers e ps_clip n d ->
  aclip_cache_valid e self ->
  ACLIPLoss.logit_scale outputs = 0 ->
  exists out,
    snd (ACLIPLoss.forward e ps_ssl ps_clip self outputs) = Ok out
    /\ dict_get out "contra_loss_1" = Some (ln (INR (n * Utils.get_world_size e)))
    /\ dict_get out "contra_loss_2" = Some (ln (INR (n * Utils.get_world_size e))).
Proof.
  intros He Hv Hs Hc Hcache Hzero.
  rewrite (aclip_forward_ok e ps_ssl ps_clip self outputs n d d_ssl d_byol
                            He Hv Hs Hc Hcache).
  eexists. split; [reflexivity|].
  destruct Hv as (Hn & Ht & Hi & _). destruct Hc as (Hc0 & Hc1 & Hc2).
  pose proof (has_shape_length _ _ _ Ht) as Hlen.
  pose proof (normalize_shape _ _ _ Ht) as Htn.
  pose proof (normalize_shape _ _ _ Hi) as Hin.
  assert (Hv1 : has_shape (view1 outputs) n d)
    by (unfold view1; rewrite Hlen; apply firstn_shape, Hin).
  assert (Hv2 : has_shape (view2 outputs) n d)
    by (unfold view2; rewrite Hlen; apply skipn_shape, Hin).
  assert (Hcontra : forall slot view,
             has_shape view n d -> valid_peers e (ps_clip slot) n d ->
             contra_value e ps_clip outputs slot view
             = ln (INR (n * Utils.get_world_size e))).
  { intros slot view Hview Hpeers. unfold contra_value, image_logits, text_logits.
    rewrite Hzero, Hlen.
    rewrite (mean_nll_zero_logits _ _ (n * Utils.get_world_size e));
      [rewrite (mean_nll_zero_logits _ _ (n * Utils.get_world_size e)); [lra| | |]| | |].
    - rewrite outer_length. unfold Torch.scale. rewrite length_map.
      rewrite (has_shape_length _ _ _ Htn). exact Hn.
    - rewrite outer_length, make_labels_length. unfold Torch.scale.
      rewrite length_map. apply (has_shape_length _ _ _ Htn).
    - rewrite <- (has_shape_length _ _ _ (gather_one_shape e _ _ n d Hview Hpeers)).
      apply outer_scale_zero.
    - rewrite outer_length. unfold Torch.scale. rewrite length_map.
      rewrite (has_shape_length _ _ _ Hview). exact Hn.
    - rewrite outer_length, make_labels_length. unfold Torch.scale.
      rewrite length_map. apply (has_shape_length _ _ _ Hview).
    - rewrite <- (has_shape_length _ _ _ (gather_one_shape e _ _ n d Htn Hc2)).
      apply outer_scale_zero. }
  unfold aclip_record. cbn [dict_get String.eqb Ascii.eqb Bool.eqb].
  rewrite (Hcontra 0%nat (view1 outputs) Hv1 Hc0).
  rewrite (Hcontra 1%nat (view2 outputs) Hv2 Hc1).
  split; reflexivity.
Qed.

Lemma zero_scale_inputs_valid : valid_inputs zero_scale_inputs 1 2 1 1.
Proof.
  unfold valid_inputs, zero_scale_inputs; simpl.
  split; [lia|]. repeat (split; [concrete_shape|]). concrete_shape.
Qed.

Lemma aclip_forward_zero_scale_witness :
  exists out,
    snd (ACLIPLoss.forward single_process (fun _ _ => []) (fun _ _ => [])
                           (ACLIPLoss.init 0.1) zero_scale_inputs) = Ok out
    /\ dict_get out "contra_loss_1" = Some (ln (INR (1 * 1)))
    /\ dict_get out "contra_loss_2" = Some (ln (INR (1 * 1))).
Proof.
  apply (aclip_forward_zero_scale single_process (fun _ _ => []) (fun _ _ => [])
           (ACLIPLoss.init 0.1) zero_scale_inputs 1 2 1 1).
  - exact single_process_valid.
  - exact zero_scale_inputs_valid.
  - apply valid_ssl_peers_single.
  - apply valid_clip_peers_single.
  - apply aclip_init_cache_valid.
  - reflexivity.
Defined.

(** ** Scaling the operands of [ACLIPLoss.forward] *)

Lemma normalize_firstn (n : nat) (m : list (list R)) :
  Torch.normalize (firstn n m) = firstn n (Torch.normalize m).
Proof. unfold Torch.normalize. symmetry. apply firstn_map. Qed.

Lemma normalize_skipn (n : nat) (m : list (list R)) :
  Torch.normalize (skipn n m) = skipn n (Torch.normalize m).
Proof. unfold Torch.normalize. symmetry. apply skipn_map. Qed.

Lemma normalize_app (a b : list (list R)) :
  Torch.normalize (a ++ b) = (Torch.normalize a ++ Torch.normalize b)%list.
Proof. unfold Torch.normalize. apply map_app. Qed.

(** [ACLIPLoss.forward] reads its tensors through [F.normalize] and the
    number of text rows only. *)
Lemma aclip_forward_normalize_ext (e : Utils.env) (ps_ssl ps_clip : Utils.peers)
      (self : ACLIPLoss.t) (o o' : ACLIPLoss.inputs) :
  Torch.normalize (ACLIPLoss.image_embed o') = Torch.normalize (ACLIPLoss.image_embed o) ->
  Torch.normalize (ACLIPLoss.text_embed o') = Torch.normalize (ACLIPLoss.text_embed o) ->
  ACLIPLoss.logit_scale o' = ACLIPLoss.logit_scale o ->
  Torch.normalize (ACLIPLoss.image_ssl_embed o')
  = Torch.normalize (ACLIPLoss.image_ssl_embed o) ->
  Torch.normalize (ACLIPLoss.byol_feats o') = Torch.normalize (ACLIPLoss.byol_feats o) ->
  Torch.normalize (ACLIPLoss.byol_feats_e o')
  = Torch.normalize (ACLIPLoss.byol_feats_e o) ->
  ACLIPLoss.forward e ps_ssl ps_clip self o' = ACLIPLoss.forward e ps_ssl ps_clip self o.
Proof.
  intros Hi Ht Hs Hssl Hb Hbe.
  assert (Hlen : length (ACLIPLoss.text_embed o') = length (ACLIPLoss.text_embed o)).
  { rewrite <- (normalize_length (ACLIPLoss.text_embed o')), Ht.
    apply normalize_length. }
  unfold ACLIPLoss.forward. rewrite Hlen.
  rewrite (simclr_forward_normalize_ext e ps_ssl (ACLIPLoss.simclr_loss self)
             (firstn (length (ACLIPLoss.text_embed o)) (ACLIPLoss.image_ssl_embed o))
             (skipn (length (ACLIPLoss.text_embed o)) (ACLIPLoss.image_ssl_embed o)))
    by (rewrite ?normalize_firstn, ?normalize_skipn, Hssl; reflexivity).
  assert (Hloss : ACLIPLoss.loss_fn (ACLIPLoss.byol_feats o')
                    (ACLIPLoss.byol_feats_e o' ++ ACLIPLoss.byol_feats_e o')
                  = ACLIPLoss.loss_fn (ACLIPLoss.byol_feats o)
                      (ACLIPLoss.byol_feats_e o ++ ACLIPLoss.byol_feats_e o)).
  { unfold ACLIPLoss.loss_fn. rewrite !normalize_app, Hb, Hbe. reflexivity. }
  rewrite Hloss. clear Hloss.
  assert (Hlosses : forall s ssl byol,
             ACLIPLoss.losses e ps_clip s o' ssl byol
             = ACLIPLoss.losses e ps_clip s o ssl byol).
  { intros s ssl byol. unfold ACLIPLoss.losses. rewrite Hlen, Hi, Ht, Hs.
    reflexivity. }
  destruct (SIMCLRLoss.forward _ _ _ _) as [simclr' [ssl|er]]; [|reflexivity].
  destruct (ACLIPLoss.loss_fn _ _) as [per_row|er]; [|reflexivity].
  cbv zeta. rewrite Hlosses. reflexivity.
Qed.

(** X22: in exact arithmetic (the reals of this model, where no norm
    overflows and no quotient is rounded), when every row of the five
    tensors of the input record has an L2 norm of at least [1e-12] both
    before and after its tensor is multiplied by a positive factor (one
    factor per tensor), [ACLIPLoss.forward] returns the same result and
    leaves the same state on the scaled record as on the record
    itself. *)
Theorem aclip_forward_scale_invariant (e : Utils.env) (ps_ssl ps_clip : Utils.peers)
        (self : ACLIPLoss.t) (outputs : ACLIPLoss.inputs)
        (c_image c_text c_ssl c_byol c_byol_e : R) :
  Forall (stays_unclamped c_image) (ACLIPLoss.image_embed outputs) ->
  Forall (stays_unclamped c_text) (ACLIPLoss.text_embed outputs) ->
  Forall (stays_unclamped c_ssl) (ACLIPLoss.image_ssl_embed outputs) ->
  Forall (stays_unclamped c_byol) (ACLIPLoss.byol_feats outputs) ->
  Forall (stays_unclamped c_byol_e) (ACLIPLoss.byol_feats_e outputs) ->
  ACLIPLoss.forward e ps_ssl ps_clip self
    (scale_inputs c_image c_text c_ssl c_byol c_byol_e outputs)
  = ACLIPLoss.forward e ps_ssl ps_clip self outputs.
Proof.
  intros Hi Ht Hssl Hb Hbe.
  apply aclip_forward_normalize_ext; unfold scale_inputs; simpl;
    first [reflexivity | apply normalize_scale; assumption].
Qed.

Lemma sample_inputs_unclamped :
  Forall (stays_unclamped 2) (ACLIPLoss.image_embed sample_inputs)
  /\ Forall (stays_unclamped 3) (ACLIPLoss.text_embed sample_inputs)
  /\ Forall (stays_unclamped 4) (ACLIPLoss.image_ssl_embed sample_inputs)
  /\ Forall (stays_unclamped 5) (ACLIPLoss.byol_feats sample_inputs)
  /\ Forall (stays_unclamped 6) (ACLIPLoss.byol_feats_e sample_inputs).
Proof.
  unfold sample_inputs; simpl.
  repeat split;
    repeat (first [apply Forall_nil | apply Forall_cons]);
    apply (stays_unclamped_intro _ 1); unfold Torch.normalize_eps; simpl; lra.
Qed.

Lemma aclip_forward_scale_invariant_witness :
  ACLIPLoss.forward single_process (fun _ _ => []) (fun _ _ => [])
    (ACLIPLoss.init 0.1) (scale_inputs 2 3 4 5 6 sample_inputs)
  = ACLIPLoss.forward single_process (fun _ _ => []) (fun _ _ => [])
      (ACLIPLoss.init 0.1) sample_inputs.
Proof.
  destruct sample_inputs_unclamped as (H1 & H2 & H3 & H4 & H5).
  exact (aclip_forward_scale_invariant single_process (fun _ _ => []) (fun _ _ => [])
           (ACLIPLoss.init 0.1) sample_inputs 2 3 4 5 6 H1 H2 H3 H4 H5).
Defined.

(** ** The kind of the errors *)

Lemma torch_only_ok {A : Type} (x : A) : torch_only (Ok x).
Proof. intros er H. discriminate. Qed.

Lemma torch_only_err {A : Type} : torch_only (@Err A TorchError).
Proof. intros er H. injection H as <-. reflexivity. Qed.

Lemma torch_only_retype {A B : Type} (er : error) :
  torch_only (@Err A er) -> torch_only (@Err B er).
Proof. intros H er' E. injection E as <-. apply H. reflexivity. Qed.

Lemma torch_only_bind {A B : Type} (c : result A) (k : A -> result B) :
  torch_only c -> (forall x, torch_only (k x)) -> torch_only (bind c k).
Proof.
  intros Hc Hk er H. destruct c as [x|e0]; simpl in H.
  - exact (Hk x er H).
  - injection H as <-. apply Hc. reflexivity.
Qed.

Lemma torch_only_mapM {A B : Type} (f : A -> result B) (l : list A) :
  (forall x, torch_only (f x)) -> torch_only (mapM f l).
Proof.
  intros Hf. induction l as [|x l IH]; simpl; [apply torch_only_ok|].
  apply torch_only_bind; [apply Hf|]. intros y.
  apply torch_only_bind; [exact IH|]. intros ys. apply torch_only_ok.
Qed.

Lemma torch_only_bzip {A : Type} (xs ys : list A) : torch_only (Torch.bzip xs ys).
Proof.
  unfold Torch.bzip. destruct (length xs =? length ys)%nat; [apply torch_only_ok|].
  destruct xs as [|x [|x' xs]]; destruct ys as [|y [|y' ys]];
    first [apply torch_only_ok | apply torch_only_err].
Qed.

Lemma torch_only_broadcast2 (a b : list (list R)) : torch_only (Torch.broadcast2 a b).
Proof.
  unfold Torch.broadcast2. apply torch_only_bind; [apply torch_only_bzip|].
  intros rows. apply torch_only_mapM. intros rr. apply torch_only_bzip.
Qed.

Lemma torch_only_elementwise (f : R -> R -> R) (a b : list (list R)) :
  torch_only (Torch.elementwise f a b).
Proof.
  unfold Torch.elementwise. apply torch_only_bind; [apply torch_only_broadcast2|].
  intros pairs. apply torch_only_ok.
Qed.

Lemma torch_only_matmul_t (a b : list (list R)) : torch_only (Torch.matmul_t a b).
Proof.
  unfold Torch.matmul_t. apply torch_only_mapM. intros ra.
  apply torch_only_mapM. intros rb.
  destruct (length ra =? length rb)%nat; [apply torch_only_ok | apply torch_only_err].
Qed.

Lemma torch_only_cat1 (a b : list (list R)) : torch_only (Torch.cat1 a b).
Proof.
  unfold Torch.cat1.
  destruct (length a =? length b)%nat; [apply torch_only_ok | apply torch_only_err].
Qed.

Lemma torch_only_one_hot (labels : list nat) (c : nat) :
  torch_only (Torch.one_hot labels c).
Proof.
  unfold Torch.one_hot. destruct labels as [|y labels].
  - destruct (c =? 0)%nat; [apply torch_only_err | apply torch_only_ok].
  - destruct (list_max (y :: labels) <? c)%nat;
      [apply torch_only_ok | apply torch_only_err].
Qed.

Lemma torch_only_cross_entropy (logits : list (list R)) (target : list nat) :
  torch_only (Torch.cross_entropy logits target).
Proof.
  unfold Torch.cross_entropy.
  destruct (length logits =? length target)%nat; [|apply torch_only_err].
  apply torch_only_bind; [|intros picked; apply torch_only_ok].
  apply torch_only_mapM. intros ry.
  destruct (nth_error _ _); [apply torch_only_ok | apply torch_only_err].
Qed.

Lemma torch_only_argmax (m : list (list R)) : torch_only (Torch.argmax m).
Proof.
  unfold Torch.argmax. apply torch_only_mapM. intros [|x t]; simpl;
    [apply torch_only_err | apply torch_only_ok].
Qed.

Lemma torch_only_eq_count (pred labels : list nat) :
  torch_only (Torch.eq_count pred labels).
Proof.
  unfold Torch.eq_count. apply torch_only_bind; [apply torch_only_bzip|].
  intros pairs. apply torch_only_ok.
Qed.

Create HintDb torch_only.

#[local] Hint Resolve torch_only_ok torch_only_err torch_only_elementwise
  torch_only_matmul_t torch_only_cat1 torch_only_one_hot torch_only_cross_entropy
  torch_only_argmax torch_only_eq_count : torch_only.

Ltac torch_only_step :=
  repeat (apply torch_only_bind; [auto with torch_only | intros ?]);
  auto with torch_only.

Lemma torch_only_simclr_losses (self : SIMCLRLoss.t) (n : nat)
      (q_a q_b k_a k_b : list (list R)) :
  torch_only (SIMCLRLoss.losses self n q_a q_b k_a k_b).
Proof.
  unfold SIMCLRLoss.losses, Torch.sub.
  destruct (SIMCLRLoss.labels self) as [l|]; [|apply torch_only_err].
  destruct (SIMCLRLoss.masks self) as [m|]; [|apply torch_only_err].
  torch_only_step.
Qed.

Lemma torch_only_simclr_forward (e : Utils.env) (ps : Utils.peers)
      (self : SIMCLRLoss.t) (outputs : SIMCLRLoss.inputs) :
  torch_only (snd (SIMCLRLoss.forward e ps self outputs)).
Proof.
  unfold SIMCLRLoss.forward. cbn [Utils.all_gather_batch_with_grad length seq combine map].
  unfold SIMCLRLoss.update_cache.
  destruct (size_changed _ _); cbn [snd].
  - pose proof (torch_only_one_hot
                  (make_labels e (length (Torch.normalize (SIMCLRLoss.aug1_embed outputs))))
                  (length (Torch.normalize (SIMCLRLoss.aug1_embed outputs))
                   * Utils.get_world_size e)) as Hoh.
    destruct (Torch.one_hot _ _) as [oh|er]; cbn [snd].
    + apply torch_only_simclr_losses.
    + exact (torch_only_retype er Hoh).
  - apply torch_only_simclr_losses.
Qed.

Lemma torch_only_loss_fn (x y : list (list R)) : torch_only (ACLIPLoss.loss_fn x y).
Proof. unfold ACLIPLoss.loss_fn, Torch.mul. torch_only_step. Qed.

(** After a returning call of the SimCLR module the lookup of
    ["ssl_loss"] in its record succeeds. *)
Lemma torch_only_aclip_losses (e : Utils.env) (ps : Utils.peers) (self : ACLIPLoss.t)
      (outputs : ACLIPLoss.inputs) (ssl : dict) (byol s : R) :
  dict_get ssl "ssl_loss" = Some s ->
  torch_only (ACLIPLoss.losses e ps self outputs ssl byol).
Proof.
  intros Hs. unfold ACLIPLoss.losses.
  cbn [Utils.all_gather_batch_with_grad length seq combine map].
  destruct (ACLIPLoss.labels self) as [l|]; [|apply torch_only_err].
  unfold dict_item. rewrite Hs. torch_only_step.
Qed.

(** X23: on an input record that has its six entries, whatever their
    shapes, [ACLIPLoss.forward] fails only inside a tensor operation: the
    lookup of ["ssl_loss"] in the record of the SimCLR module never raises
    [KeyError], and no plain [Exception] is raised. *)
Theorem aclip_forward_error_kind (e : Utils.env) (ps_ssl ps_clip : Utils.peers)
        (self : ACLIPLoss.t) (outputs : ACLIPLoss.inputs) (er : error) :
  snd (ACLIPLoss.forward e ps_ssl ps_clip self outputs) = Err er ->
  er = TorchError.
Proof.
  unfold ACLIPLoss.forward. fold (ssl_inputs outputs).
  pose proof (torch_only_simclr_forward e ps_ssl (ACLIPLoss.simclr_loss self)
                (ssl_inputs outputs)) as Hssl.
  destruct (SIMCLRLoss.forward e ps_ssl (ACLIPLoss.simclr_loss self) (ssl_inputs outputs))
    as [simclr' [ssl|er0]] eqn:Hrun; cbn [snd] in *.
  - pose proof (torch_only_loss_fn (ACLIPLoss.byol_feats outputs)
                  (ACLIPLoss.byol_feats_e outputs ++ ACLIPLoss.byol_feats_e outputs))
      as Hloss.
    destruct (ACLIPLoss.loss_fn _ _) as [per_row|er1]; cbn [snd].
    + destruct (simclr_returns_loss _ _ _ _ _ _ Hrun) as (s0 & a & Hform & _).
      apply (torch_only_aclip_losses _ _ _ _ _ _ s0).
      subst ssl. reflexivity.
    + apply (torch_only_retype er1 Hloss).
  - apply Hssl.
Qed.

Lemma aclip_forward_error_kind_witness :
  exists er,
    snd (ACLIPLoss.forward single_process (fun _ _ => []) (fun _ _ => [])
                           (ACLIPLoss.init 0.1) empty_inputs) = Err er
    /\ er = TorchError.
Proof.
  exists TorchError.
  assert (H : snd (ACLIPLoss.forward single_process (fun _ _ => []) (fun _ _ => [])
                                     (ACLIPLoss.init 0.1) empty_inputs)
              = Err TorchError) by reflexivity.
  split; [exact H|].
  exact (aclip_forward_error_kind single_process (fun _ _ => []) (fun _ _ => [])
           (ACLIPLoss.init 0.1) empty_inputs TorchError H).
Defined.
